(** * The geometric and structural core of the editor

    A shallow embedding of [packages/editor/src/lib/editor/Editor.ts]:
    the forest of shapes held by the record store, the page-transform
    cache, the ancestor walks, [reparentShapes], the arrow (connector)
    maintenance handlers and the point hit test [getShapeAtPoint].

    Conventions of the embedding.
    - The record store is a finite map from shape ids to shape records.
    - Methods that walk the parent chain recurse as the TypeScript does;
      they take a [fuel] argument and answer [Diverge] when it runs out,
      which is what a cyclic parent chain makes the TypeScript do.
    - A [throw] is the outcome [Throw].
    - JavaScript numbers used as coordinates and angles are an abstract
      scalar type; the affine matrices of [primitives/Mat], which are not
      part of the sources at hand, are an interface ([MatOps]). *)

From stdpp Require Import base option list gmap strings fin_maps sorting.
From Stdlib Require Import QArith Qabs Lia Ascii.

Close Scope Q_scope.

(* ================================================================== *)
(** ** Outcomes of a method call *)

Inductive outcome (A : Type) : Type :=
| Ret (a : A)
| Throw (msg : string)
| Diverge.
Arguments Ret {A} a.
Arguments Throw {A} msg.
Arguments Diverge {A}.

#[export] Instance outcome_ret : MRet outcome := @Ret.
#[export] Instance outcome_bind : MBind outcome := λ A B f m,
  match m with
  | Ret a => f a
  | Throw e => Throw e
  | Diverge => Diverge
  end.
#[export] Instance outcome_fmap : FMap outcome := λ A B f m,
  match m with
  | Ret a => Ret (f a)
  | Throw e => Throw e
  | Diverge => Diverge
  end.

(** [returns f a]: the call [f], given enough fuel, returns [a]. *)
Definition returns {A} (f : nat → outcome A) (a : A) : Prop :=
  ∃ n0, ∀ n, n0 ≤ n → f n = Ret a.

(* ================================================================== *)
(** ** Identifiers *)

Abbreviation TLShapeId := string (only parsing).
Abbreviation TLPageId := string (only parsing).
Abbreviation IndexKey := string (only parsing).

(** [TLParentId = TLPageId | TLShapeId]; the two kinds of id are told
    apart by their prefix ([isPageId], [isShapeId]). *)
Inductive TLParentId : Type :=
| PageId (p : TLPageId)
| ShapeId (s : TLShapeId).

#[export] Instance TLParentId_eq_dec : EqDecision TLParentId.
Proof. solve_decision. Defined.

Definition isPageId (p : TLParentId) : bool :=
  match p with PageId _ => true | ShapeId _ => false end.

Definition isShapeId (p : TLParentId) : bool :=
  match p with PageId _ => false | ShapeId _ => true end.

(* ================================================================== *)
(** ** Numbers, vectors and matrices *)

(** The numbers stored in a shape ([x], [y], [rotation]).  The editor
    code at hand only copies, compares ([===]) and subtracts them. *)
Class Scalar : Type := {
  num : Type;
  num_eq_dec :: EqDecision num;
  num_sub : num → num → num;
}.

Module Vec.
Record t `{Scalar} : Type := mk { x : num; y : num }.
Arguments mk {_} _ _.
End Vec.

#[export] Instance Vec_eq_dec `{Scalar} : EqDecision Vec.t.
Proof. solve_decision. Defined.

(** The operations of [Mat] that the editor calls.  Methods that mutate
    their receiver are always called on a fresh or cloned matrix, so
    they are functions here. *)
Class MatOps `{Scalar} : Type := {
  Mat : Type;
  Mat_Identity : Mat;
  (** [Mat.Compose(a, b)] *)
  Mat_Compose : Mat → Mat → Mat;
  (** [m.translate(x, y)] *)
  Mat_translate : Mat → num → num → Mat;
  (** [m.rotate(r)] *)
  Mat_rotate : Mat → num → Mat;
  (** [m.clone().invert()] *)
  Mat_invert : Mat → Mat;
  (** [m.point()] *)
  Mat_point : Mat → Vec.t;
  (** [m.rotation()] *)
  Mat_rotation : Mat → num;
  (** [m.applyToPoint(p)] *)
  Mat_applyToPoint : Mat → Vec.t → Vec.t;
}.

(* ================================================================== *)
(** ** Shape records *)

(** An arrow terminal: [{ type: 'point', x, y }] or
    [{ type: 'binding', boundShapeId, normalizedAnchor, ... }]. *)
Inductive TLArrowTerminal `{Scalar} : Type :=
| TerminalPoint (x y : num)
| TerminalBinding (boundShapeId : TLShapeId) (normalizedAnchor : Vec.t)
    (isExact isPrecise : bool).

#[export] Instance TLArrowTerminal_eq_dec `{Scalar} : EqDecision TLArrowTerminal.
Proof. solve_decision. Defined.

(** The shape types the editor core distinguishes, with the props it
    reads from them. *)
Inductive TLShapeProps `{Scalar} : Type :=
| ArrowProps (start end_ : TLArrowTerminal) (text : string)
| GeoProps (fill : string) (text : string)
| FrameProps
| GroupProps
| OtherProps.

#[export] Instance TLShapeProps_eq_dec `{Scalar} : EqDecision TLShapeProps.
Proof. solve_decision. Defined.

Inductive TLShapeType : Type := ArrowType | GeoType | FrameType | GroupType | OtherType.

#[export] Instance TLShapeType_eq_dec : EqDecision TLShapeType.
Proof. solve_decision. Defined.

Module TLShape.
Record t `{Scalar} : Type := mk {
  id : TLShapeId;
  parentId : TLParentId;
  index : IndexKey;
  x : num;
  y : num;
  rotation : num;
  isLocked : bool;
  props : TLShapeProps;
}.
Arguments mk {_} _ _ _ _ _ _ _ _.

(** [shape.type] *)
Definition type `{Scalar} (s : t) : TLShapeType :=
  match props s with
  | ArrowProps _ _ _ => ArrowType
  | GeoProps _ _ => GeoType
  | FrameProps => FrameType
  | GroupProps => GroupType
  | OtherProps => OtherType
  end.
End TLShape.

#[export] Instance TLShape_eq_dec `{Scalar} : EqDecision TLShape.t.
Proof. solve_decision. Defined.

(** The editor state the core reads: the shape records of the store and
    the [isReadonly] flag of the instance state. *)
Record Editor `{Scalar} : Type := mkEditor {
  store : gmap TLShapeId TLShape.t;
  isReadonly : bool;
}.
Arguments mkEditor {_} _ _.

(** The store keeps every record under its own id. *)
Definition store_wf `{Scalar} (ed : Editor) : Prop :=
  map_Forall (λ k s, TLShape.id s = k) (store ed).

(** [child]'s record names [parent] as its parent shape. *)
Definition parent_of `{Scalar} (ed : Editor) (child parent : TLShapeId) : Prop :=
  ∃ s, store ed !! child = Some s ∧ TLShape.parentId s = ShapeId parent.

(** The parent graph is a forest: every walk up the parents ends. *)
Definition Acyclic `{Scalar} (ed : Editor) : Prop :=
  ∀ k, Acc (λ p c, parent_of ed c p) k.

Section Transform.
Context `{MatOps}.

(** [getShape] (Editor.ts 4432) *)
Definition getShape (ed : Editor) (id : TLParentId) : option TLShape.t :=
  match id with
  | ShapeId k => store ed !! k
  | PageId _ => None
  end.

(** The matrix [Mat.Identity().translate(x, y).rotate(rotation)]. *)
Definition localTransformOf (s : TLShape.t) : Mat :=
  Mat_rotate (Mat_translate Mat_Identity (TLShape.x s) (TLShape.y s)) (TLShape.rotation s).

(** [getShapeLocalTransform] (Editor.ts 3648) *)
Definition getShapeLocalTransform (ed : Editor) (id : TLShapeId) : outcome Mat :=
  match getShape ed (ShapeId id) with
  | None => Throw "Editor.getTransform: shape not found"
  | Some freshShape => Ret (localTransformOf freshShape)
  end.

(** [_getShapePageTransformCache().get(id)] (Editor.ts 3660): the
    computed cache answers [undefined] for an id with no record, and
    otherwise the value derived from the record. *)
Fixpoint _getShapePageTransformCache (fuel : nat) (ed : Editor) (id : TLShapeId)
  : outcome (option Mat) :=
  match fuel with
  | 0 => Diverge
  | S fuel =>
    match store ed !! id with
    | None => Ret None
    | Some shape =>
      match TLShape.parentId shape with
      | PageId _ =>
        m ← getShapeLocalTransform ed (TLShape.id shape); Ret (Some m)
      | ShapeId parent =>
        parentTransform ← _getShapePageTransformCache fuel ed parent;
        m ← getShapeLocalTransform ed (TLShape.id shape);
        Ret (Some (Mat_Compose (default Mat_Identity parentTransform) m))
      end
    end
  end.

(** [getShapePageTransform] (Editor.ts 3708) *)
Definition getShapePageTransform (fuel : nat) (ed : Editor) (id : TLShapeId)
  : outcome Mat :=
  m ← _getShapePageTransformCache fuel ed id; Ret (default Mat_Identity m).

End Transform.

(* ================================================================== *)
(** ** Walks up the parent chain *)

Section Ancestors.
Context `{Scalar}.

(** [getShapeParent] (Editor.ts 4449) *)
Definition getShapeParent (ed : Editor) (shape : option TLShapeId) : option TLShape.t :=
  match shape with
  | None => None
  | Some id =>
    match getShape ed (ShapeId id) with
    | None => None
    | Some freshShape =>
      match TLShape.parentId freshShape with
      | ShapeId parentId => store ed !! parentId
      | PageId _ => None
      end
    end
  end.

(** [hasAncestor] (Editor.ts 3940) *)
Fixpoint hasAncestor (fuel : nat) (ed : Editor) (shape : option TLShapeId)
    (ancestorId : TLShapeId) : outcome bool :=
  match fuel with
  | 0 => Diverge
  | S fuel =>
    match shape ≫= (λ id, getShape ed (ShapeId id)) with
    | None => Ret false
    | Some freshShape =>
      if decide (TLShape.parentId freshShape = ShapeId ancestorId) then Ret true
      else hasAncestor fuel ed
             (TLShape.id <$> getShapeParent ed (Some (TLShape.id freshShape)))
             ancestorId
    end
  end.

(** [findShapeAncestor] (Editor.ts 3916) *)
Fixpoint findShapeAncestor (fuel : nat) (ed : Editor) (shape : TLShapeId)
    (predicate : TLShape.t → bool) : outcome (option TLShape.t) :=
  match fuel with
  | 0 => Diverge
  | S fuel =>
    match getShape ed (ShapeId shape) with
    | None => Ret None
    | Some freshShape =>
      match TLShape.parentId freshShape with
      | PageId _ => Ret None
      | ShapeId parentId =>
        match getShape ed (ShapeId parentId) with
        | None => Ret None
        | Some parent =>
          if predicate parent then Ret (Some parent)
          else findShapeAncestor fuel ed (TLShape.id parent) predicate
        end
      end
    end
  end.

(** [getAncestorPageId] (Editor.ts 4529) *)
Fixpoint getAncestorPageId (fuel : nat) (ed : Editor) (shape : option TLShapeId)
  : outcome (option TLPageId) :=
  match fuel with
  | 0 => Diverge
  | S fuel =>
    match shape ≫= (λ id, getShape ed (ShapeId id)) with
    | None => Ret None
    | Some _shape =>
      match TLShape.parentId _shape with
      | PageId page => Ret (Some page)
      | ShapeId parentId =>
        getAncestorPageId fuel ed (TLShape.id <$> getShape ed (ShapeId parentId))
      end
    end
  end.

(** [isShapeOrAncestorLocked] (Editor.ts 4001); the argument is the
    record the caller holds, or [undefined]. *)
Fixpoint isShapeOrAncestorLocked (fuel : nat) (ed : Editor) (arg : option TLShape.t)
  : outcome bool :=
  match fuel with
  | 0 => Diverge
  | S fuel =>
    match arg with
    | None => Ret false
    | Some shape =>
      if TLShape.isLocked shape then Ret true
      else isShapeOrAncestorLocked fuel ed (getShapeParent ed (Some (TLShape.id shape)))
    end
  end.

(** [others.every((shape) => this.hasAncestor(shape, ancestorId))],
    stopping at the first [false]. *)
Fixpoint every_hasAncestor (fuel : nat) (ed : Editor) (others : list TLShape.t)
    (ancestorId : TLShapeId) : outcome bool :=
  match others with
  | [] => Ret true
  | shape :: rest =>
    b ← hasAncestor fuel ed (Some (TLShape.id shape)) ancestorId;
    if b : bool then every_hasAncestor fuel ed rest ancestorId else Ret false
  end.

(** The [while (ancestor)] loop of [findCommonAncestor]. *)
Fixpoint findCommonAncestor_loop (fuel : nat) (ed : Editor) (ancestor : option TLShape.t)
    (others : list TLShape.t) (predicate : option (TLShape.t → bool))
  : outcome (option TLShapeId) :=
  match fuel with
  | 0 => Diverge
  | S fuel =>
    match ancestor with
    | None => Ret None
    | Some anc =>
      if negb (from_option (λ p, p anc) true predicate) then
        findCommonAncestor_loop fuel ed (getShapeParent ed (Some (TLShape.id anc)))
          others predicate
      else
        b ← every_hasAncestor fuel ed others (TLShape.id anc);
        if b : bool then Ret (Some (TLShape.id anc))
        else findCommonAncestor_loop fuel ed (getShapeParent ed (Some (TLShape.id anc)))
               others predicate
    end
  end.

(** [findCommonAncestor] (Editor.ts 3954), called with shape ids. *)
Definition findCommonAncestor (fuel : nat) (ed : Editor) (shapes : list TLShapeId)
    (predicate : option (TLShape.t → bool)) : outcome (option TLShapeId) :=
  match shapes with
  | [] => Ret None
  | _ =>
    let freshShapes := omap (λ id, getShape ed (ShapeId id)) shapes in
    match freshShapes with
    | [only] =>
      match TLShape.parentId only with
      | PageId _ => Ret None
      | ShapeId parentId =>
        match predicate with
        | Some p =>
          r ← findShapeAncestor fuel ed (TLShape.id only) p;
          Ret (TLShape.id <$> (r : option TLShape.t))
        | None => Ret (Some parentId)
        end
      end
    | [] => Ret None
    | nodeA :: others =>
      findCommonAncestor_loop fuel ed (getShapeParent ed (Some (TLShape.id nodeA)))
        others predicate
    end
  end.

End Ancestors.

(* ================================================================== *)
(** ** Collaborators outside the sources *)

(** The order-key generators of [@tldraw/utils]. *)
Class IndexOps : Type := {
  getIndices : nat → list IndexKey;
  getIndicesAbove : IndexKey → nat → list IndexKey;
  getIndicesBetween : IndexKey → IndexKey → nat → list IndexKey;
  getIndexAbove : IndexKey → IndexKey;
  getIndexBetween : IndexKey → IndexKey → IndexKey;
}.

(** The optional [onBeforeUpdate] hook of the shape's util:
    [None] when the util has no hook or the hook returns nothing. *)
Class ShapeUtils `{Scalar} : Type := {
  onBeforeUpdate : TLShape.t → TLShape.t → option TLShape.t;
}.

(** Shape partials, with the base properties that the structural writes
    of the core set.  [None] is an absent key. *)
Module TLShapePartial.
Record t `{Scalar} : Type := mk {
  id : TLShapeId;
  type : TLShapeType;
  parentId : option TLParentId;
  index : option IndexKey;
  x : option num;
  y : option num;
  rotation : option num;
  isLocked : option bool;
}.
Arguments mk {_} _ _ _ _ _ _ _ _.
End TLShapePartial.

Section Writes.
Context `{MatOps} `{!IndexOps} `{!ShapeUtils}.

(** Order keys compare as strings. *)
Definition index_le (a b : TLShape.t) : Prop :=
  Is_true (String.leb (TLShape.index a) (TLShape.index b)).

#[local] Instance index_le_dec a b : Decision (index_le a b).
Proof. unfold index_le. apply _. Defined.

(** Modelled from the spec: the child index ([derivations/parentsToChildren])
    is not among the sources; it maps a parent id to the ids of its
    children, ordered by order key. [getSortedChildIdsForParent]
    (Editor.ts 4698) reads it. *)
Definition getSortedChildIdsForParent (ed : Editor) (parent : TLParentId) : list TLShapeId :=
  TLShape.id <$>
    merge_sort index_le
      (filter (λ s, TLShape.parentId s = parent) (map_to_list (store ed)).*2).

(** Modelled from the spec: the record store is an external collaborator;
    [store.put(records)] writes each record under its id, in order. *)
Definition store_put (ed : Editor) (records : list TLShape.t) : Editor :=
  mkEditor (foldl (λ st r, <[TLShape.id r := r]> st) (store ed) records) (isReadonly ed).

(** [applyPartialToShape] (Editor.ts 8518): every key present in the
    partial, other than [id] and [type], replaces the previous value. *)
Definition applyPartialToShape (prev : TLShape.t) (partial : TLShapePartial.t) : TLShape.t :=
  {| TLShape.id := TLShape.id prev;
     TLShape.parentId := default (TLShape.parentId prev) (TLShapePartial.parentId partial);
     TLShape.index := default (TLShape.index prev) (TLShapePartial.index partial);
     TLShape.x := default (TLShape.x prev) (TLShapePartial.x partial);
     TLShape.y := default (TLShape.y prev) (TLShapePartial.y partial);
     TLShape.rotation := default (TLShape.rotation prev) (TLShapePartial.rotation partial);
     TLShape.isLocked := default (TLShape.isLocked prev) (TLShapePartial.isLocked partial);
     TLShape.props := TLShape.props prev |}.

(** The loop of [_updateShapes] (Editor.ts 6738): the record to write for
    one partial, if any. *)
Definition updatedShape (ed : Editor) (partial : TLShapePartial.t) : option TLShape.t :=
  match getShape ed (ShapeId (TLShapePartial.id partial)) with
  | None => None
  | Some shape =>
    let updated := applyPartialToShape shape partial in
    if decide (updated = shape) then None
    else Some (default updated (onBeforeUpdate shape updated))
  end.

(** [_updateShapes] (Editor.ts 6738) *)
Definition _updateShapes (ed : Editor) (_partials : list TLShapePartial.t) : Editor :=
  if isReadonly ed then ed
  else store_put ed (omap (updatedShape ed) _partials).

(** The loop of [updateShapes] (Editor.ts 6714): the partials that pass
    the lock check. *)
Fixpoint compactedPartials (fuel : nat) (ed : Editor) (partials : list TLShapePartial.t)
  : outcome (list TLShapePartial.t) :=
  match partials with
  | [] => Ret []
  | partial :: rest =>
    match getShape ed (ShapeId (TLShapePartial.id partial)) with
    | None => compactedPartials fuel ed rest
    | Some shape =>
      locked ← isShapeOrAncestorLocked fuel ed (Some shape);
      if (locked : bool) && negb (bool_decide (is_Some (TLShapePartial.isLocked partial)))
      then compactedPartials fuel ed rest
      else kept ← compactedPartials fuel ed rest; Ret (partial :: kept)
    end
  end.

(** [updateShapes] (Editor.ts 6714) *)
Definition updateShapes (fuel : nat) (ed : Editor) (partials : list TLShapePartial.t)
  : outcome Editor :=
  kept ← compactedPartials fuel ed partials; Ret (_updateShapes ed kept).

(** The order keys [reparentShapes] gives to the [n] moved shapes
    (Editor.ts 4579-4615); an empty [insertIndex] is falsy. *)
Definition reparentIndices (sibs : list TLShape.t) (insertIndex : option IndexKey)
    (n : nat) : list IndexKey :=
  match insertIndex with
  | Some insertIndex =>
    if decide (insertIndex = EmptyString) then
      match last sibs with
      | Some sib => getIndicesAbove (TLShape.index sib) n
      | None => getIndices n
      end
    else
      match list_find (λ s, TLShape.index s = insertIndex) sibs with
      | Some (i, sibWithInsertIndex) =>
        match sibs !! (i + 1) with
        | Some sibAbove => getIndicesBetween insertIndex (TLShape.index sibAbove) n
        | None => getIndicesAbove insertIndex n
        end
      | None =>
        match list_find (λ s, Is_true (String.ltb insertIndex (TLShape.index s)))
                (merge_sort index_le sibs) with
        | Some (_, sibAbove) => getIndicesBetween insertIndex (TLShape.index sibAbove) n
        | None => getIndicesAbove insertIndex n
        end
      end
  | None =>
    match last sibs with
    | Some sib => getIndicesAbove (TLShape.index sib) n
    | None => getIndices n
    end
  end.

(** The [for] loop of [reparentShapes] (Editor.ts 4630-4652), from the
    [i]-th shape on. *)
Fixpoint reparentChanges (fuel : nat) (ed : Editor) (parentId : TLParentId)
    (invertedParentTransform : Mat) (parentPageRotation : num)
    (indices : list IndexKey) (i : nat) (shapesToReparent : list TLShape.t)
  : outcome (list TLShapePartial.t) :=
  match shapesToReparent with
  | [] => Ret []
  | shape :: rest =>
    pageTransform ← getShapePageTransform fuel ed (TLShape.id shape);
    let pagePoint := Mat_point pageTransform in
    let newPoint := Mat_applyToPoint invertedParentTransform pagePoint in
    let newRotation := num_sub (Mat_rotation pageTransform) parentPageRotation in
    changes ← reparentChanges fuel ed parentId invertedParentTransform
                 parentPageRotation indices (S i) rest;
    Ret ({| TLShapePartial.id := TLShape.id shape;
            TLShapePartial.type := TLShape.type shape;
            TLShapePartial.parentId := Some parentId;
            TLShapePartial.x := Some (Vec.x newPoint);
            TLShapePartial.y := Some (Vec.y newPoint);
            TLShapePartial.rotation := Some newRotation;
            TLShapePartial.index := indices !! i;
            TLShapePartial.isLocked := Some (TLShape.isLocked shape) |} :: changes)
  end.

(** The partial [{ id, type, isLocked: false }]. *)
Definition unlockPartial (shape : TLShape.t) : TLShapePartial.t :=
  {| TLShapePartial.id := TLShape.id shape;
     TLShapePartial.type := TLShape.type shape;
     TLShapePartial.parentId := None;
     TLShapePartial.x := None;
     TLShapePartial.y := None;
     TLShapePartial.rotation := None;
     TLShapePartial.index := None;
     TLShapePartial.isLocked := Some false |}.

(** [reparentShapes] (Editor.ts 4566), called with shape ids. *)
Definition reparentShapes (fuel : nat) (ed : Editor) (ids : list TLShapeId)
    (parentId : TLParentId) (insertIndex : option IndexKey) : outcome Editor :=
  match ids with
  | [] => Ret ed
  | _ =>
    parentTransform ←
      match parentId with
      | PageId _ => Ret Mat_Identity
      | ShapeId parent => getShapePageTransform fuel ed parent
      end;
    let parentPageRotation := Mat_rotation parentTransform in
    let sibs :=
      omap (λ id, getShape ed (ShapeId id)) (getSortedChildIdsForParent ed parentId) in
    let indices := reparentIndices sibs insertIndex (length ids) in
    let invertedParentTransform := Mat_invert parentTransform in
    let shapesToReparent := omap (λ id, getShape ed (ShapeId id)) ids in
    let lockedShapes := filter (λ shape, Is_true (TLShape.isLocked shape)) shapesToReparent in
    ed1 ←
      match lockedShapes with
      | [] => Ret ed
      | _ => updateShapes fuel ed (unlockPartial <$> lockedShapes)
      end;
    changes ← reparentChanges fuel ed1 parentId invertedParentTransform
                 parentPageRotation indices 0 shapesToReparent;
    updateShapes fuel ed1 changes
  end.

End Writes.

(* ================================================================== *)
(** ** Arrows: the binding consistency handlers *)

Inductive TLHandleId : Type := HandleStart | HandleEnd.

#[export] Instance TLHandleId_eq_dec : EqDecision TLHandleId.
Proof. solve_decision. Defined.

(** [getArrowTerminalsInArrowSpace(editor, arrow)[handleId]] of
    [shapes/shared/arrow/shared], which is not among the sources: where
    the terminal of the arrow currently resolves to. *)
Class ArrowOps `{Scalar} : Type := {
  getArrowTerminalsInArrowSpace : Editor → TLShape.t → TLHandleId → Vec.t;
}.

Section Arrows.
Context `{MatOps} `{!IndexOps} `{!ShapeUtils} `{!ArrowOps}.

(** [arrow.props[handleId]] *)
Definition terminalOf (shape : TLShape.t) (handle : TLHandleId) : option TLArrowTerminal :=
  match TLShape.props shape with
  | ArrowProps start end_ _ =>
    Some match handle with HandleStart => start | HandleEnd => end_ end
  | _ => None
  end.

(** [{ ...arrow, props: { ...arrow.props, [handleId]: terminal } }] *)
Definition withTerminal (shape : TLShape.t) (handle : TLHandleId)
    (terminal : TLArrowTerminal) : TLShape.t :=
  {| TLShape.id := TLShape.id shape;
     TLShape.parentId := TLShape.parentId shape;
     TLShape.index := TLShape.index shape;
     TLShape.x := TLShape.x shape;
     TLShape.y := TLShape.y shape;
     TLShape.rotation := TLShape.rotation shape;
     TLShape.isLocked := TLShape.isLocked shape;
     TLShape.props :=
       match TLShape.props shape with
       | ArrowProps start end_ text =>
         match handle with
         | HandleStart => ArrowProps terminal end_ text
         | HandleEnd => ArrowProps start terminal text
         end
       | props => props
       end |}.

(** The shape a terminal is bound to, if it is a binding. *)
Definition boundShapeIdOf (terminal : TLArrowTerminal) : option TLShapeId :=
  match terminal with
  | TerminalBinding boundShapeId _ _ _ => Some boundShapeId
  | TerminalPoint _ _ => None
  end.

(** Modelled from the spec: the arrow bindings index
    ([derivations/arrowBindingsIndex]) is not among the sources; for a
    shape id it lists every [{ arrowId, handleId }] of an arrow of the
    store whose terminal [handleId] is bound to that shape.
    [_getArrowBindingsIndex().get()[shapeId]] (Editor.ts 918). *)
Definition arrowBindingsOf (ed : Editor) (shapeId : TLShapeId)
  : list (TLShapeId * TLHandleId) :=
  map_to_list (store ed) ≫= (λ '(arrowId, shape),
    filter (λ '(_, handle), terminalOf shape handle ≫= boundShapeIdOf = Some shapeId)
           [(arrowId, HandleStart); (arrowId, HandleEnd)]).

(** [unbindArrowTerminal] (Editor.ts 358) *)
Definition unbindArrowTerminal (ed : Editor) (arrow : TLShape.t) (handleId : TLHandleId)
  : Editor :=
  let p := getArrowTerminalsInArrowSpace ed arrow handleId in
  store_put ed [withTerminal arrow handleId (TerminalPoint (Vec.x p) (Vec.y p))].

(** The binding clean-up of the [beforeDelete] handler (Editor.ts
    507-514), over the bindings read from the index. *)
Fixpoint unbindAll (ed : Editor) (bindings : list (TLShapeId * TLHandleId)) : Editor :=
  match bindings with
  | [] => ed
  | (arrowId, handleId) :: rest =>
    match getShape ed (ShapeId arrowId) with
    | None => unbindAll ed rest
    | Some arrow => unbindAll (unbindArrowTerminal ed arrow handleId) rest
    end
  end.

(** The shape [beforeDelete] handler (Editor.ts 501), on the shape
    records of the store. *)
Definition beforeDelete (ed : Editor) (record : TLShape.t) : Editor :=
  unbindAll ed (arrowBindingsOf ed (TLShape.id record)).

(** [getShapeNearestSibling] (Editor.ts 4464) *)
Definition getShapeNearestSibling (fuel : nat) (ed : Editor) (siblingShape : TLShape.t)
    (targetShape : option TLShape.t) : outcome (option TLShape.t) :=
  match targetShape with
  | None => Ret None
  | Some target =>
    if decide (TLShape.parentId target = TLShape.parentId siblingShape) then Ret (Some target)
    else findShapeAncestor fuel ed (TLShape.id target)
           (λ ancestor, bool_decide (TLShape.parentId ancestor = TLShape.parentId siblingShape))
  end.

(** The shape a terminal of [arrow] is bound to:
    [start.type === 'binding' ? this.getShape(start.boundShapeId) : undefined]. *)
Definition boundShapeOf (ed : Editor) (terminal : TLArrowTerminal) : option TLShape.t :=
  boundShapeIdOf terminal ≫= (λ id, getShape ed (ShapeId id)).

(** The parent [reparentArrow] chooses (Editor.ts 278-293); [None] is
    the early [return]. *)
Definition nextParentIdOf (fuel : nat) (ed : Editor) (arrow : TLShape.t)
    (startShape endShape : option TLShape.t) (parentPageId : TLPageId)
  : outcome (option TLParentId) :=
  match startShape, endShape with
  | Some startShape, Some endShape =>
    common ← findCommonAncestor fuel ed [TLShape.id startShape; TLShape.id endShape] None;
    Ret (Some (from_option ShapeId (PageId parentPageId) common))
  | Some bound, None | None, Some bound =>
    let bindingParentId := TLShape.parentId bound in
    if decide (bindingParentId = TLShape.parentId arrow)
    then Ret (Some (TLShape.parentId arrow))
    else Ret (Some (PageId parentPageId))
  | None, None => Ret None
  end.

(** The order key [reparentArrow] moves the arrow to (Editor.ts
    305-353), or [None] when it leaves the arrow where it is. *)
Definition arrowFinalIndex (ed : Editor) (reparentedArrow : TLShape.t)
    (startSibling endSibling : option TLShape.t) : option IndexKey :=
  let highest :=
    match startSibling, endSibling with
    | Some s, Some e =>
      Some (if String.ltb (TLShape.index e) (TLShape.index s) then s else e)
    | Some s, None => Some s
    | None, Some e => Some e
    | None, None => None
    end in
  match highest with
  | None => None
  | Some highestSibling =>
    let higherSiblings :=
      filter (λ sibling,
                Is_true (String.ltb (TLShape.index highestSibling) (TLShape.index sibling)))
        (omap (λ id, getShape ed (ShapeId id))
              (getSortedChildIdsForParent ed (TLShape.parentId highestSibling))) in
    let finalIndex :=
      match higherSiblings with
      | next :: _ =>
        let nextHighestNonArrowSibling :=
          snd <$> list_find (λ sibling, TLShape.type sibling ≠ ArrowType) higherSiblings in
        if String.ltb (TLShape.index highestSibling) (TLShape.index reparentedArrow)
           && from_option
                (λ sibling, String.ltb (TLShape.index reparentedArrow) (TLShape.index sibling))
                true nextHighestNonArrowSibling
        then None
        else Some (getIndexBetween (TLShape.index highestSibling) (TLShape.index next))
      | [] => Some (getIndexAbove (TLShape.index highestSibling))
      end in
    match finalIndex with
    | None => None
    | Some finalIndex =>
      if decide (finalIndex ≠ TLShape.index reparentedArrow) then Some finalIndex else None
    end
  end.

(** The partial [{ id: arrowId, type: 'arrow', index: finalIndex }]. *)
Definition indexPartial (arrowId : TLShapeId) (finalIndex : IndexKey) : TLShapePartial.t :=
  {| TLShapePartial.id := arrowId;
     TLShapePartial.type := ArrowType;
     TLShapePartial.parentId := None;
     TLShapePartial.x := None;
     TLShapePartial.y := None;
     TLShapePartial.rotation := None;
     TLShapePartial.index := Some finalIndex;
     TLShapePartial.isLocked := None |}.

(** The second half of [reparentArrow] (Editor.ts 299-355): the arrow is
    placed above the sibling that holds its higher bound shape. *)
Definition reindexArrow (fuel : nat) (ed : Editor) (arrowId : TLShapeId)
    (startShape endShape : option TLShape.t) : outcome Editor :=
  match getShape ed (ShapeId arrowId) with
  | None => Throw "no reparented arrow"
  | Some reparentedArrow =>
    startSibling ← getShapeNearestSibling fuel ed reparentedArrow startShape;
    endSibling ← getShapeNearestSibling fuel ed reparentedArrow endShape;
    match arrowFinalIndex ed reparentedArrow startSibling endSibling with
    | None => Ret ed
    | Some finalIndex => updateShapes fuel ed [indexPartial arrowId finalIndex]
    end
  end.

(** [reparentArrow] (Editor.ts 268) *)
Definition reparentArrow (fuel : nat) (ed : Editor) (arrowId : TLShapeId) : outcome Editor :=
  match getShape ed (ShapeId arrowId) with
  | None => Ret ed
  | Some arrow =>
    match TLShape.props arrow with
    | ArrowProps start end_ _ =>
      let startShape := boundShapeOf ed start in
      let endShape := boundShapeOf ed end_ in
      parentPageId ← getAncestorPageId fuel ed (Some (TLShape.id arrow));
      match parentPageId with
      | None => Ret ed
      | Some parentPageId =>
        nextParentId ← nextParentIdOf fuel ed arrow startShape endShape parentPageId;
        match nextParentId with
        | None => Ret ed
        | Some nextParentId =>
          ed1 ←
            (if decide (nextParentId ≠ TLShape.parentId arrow)
             then reparentShapes fuel ed [arrowId] nextParentId None
             else Ret ed);
          reindexArrow fuel ed1 arrowId startShape endShape
        end
      end
    | _ => Throw "TypeError: arrow.props.start is undefined"
    end
  end.

(** [arrowDidUpdate] (Editor.ts 363); both unbinds write the record the
    handler was given. *)
Definition arrowDidUpdate (fuel : nat) (ed : Editor) (arrow : TLShape.t) : outcome Editor :=
  let unbindIfAway (ed : Editor) (handle : TLHandleId) : outcome Editor :=
    match terminalOf arrow handle ≫= boundShapeIdOf with
    | None => Ret ed
    | Some boundShapeId =>
      let boundShape := getShape ed (ShapeId boundShapeId) in
      arrowPage ← getAncestorPageId fuel ed (Some (TLShape.id arrow));
      boundPage ← getAncestorPageId fuel ed (TLShape.id <$> boundShape);
      if bool_decide (is_Some boundShape) && bool_decide (arrowPage = boundPage)
      then Ret ed
      else Ret (unbindArrowTerminal ed arrow handle)
    end in
  ed1 ← unbindIfAway ed HandleStart;
  ed2 ← unbindIfAway ed1 HandleEnd;
  reparentArrow fuel ed2 (TLShape.id arrow).

End Arrows.

(* ================================================================== *)
(** ** Numbers that are only compared *)

(** Distances, margins and areas: the hit test only compares them, takes
    absolute values and starts its minima at [Infinity].  Comparisons of
    JavaScript numbers are exact, so these are rationals with a point at
    infinity. *)
Inductive number : Type :=
| Finite (q : Q)
| Infinity.

Definition number_leb (a b : number) : bool :=
  match a, b with
  | Finite p, Finite q => Qle_bool p q
  | _, Infinity => true
  | Infinity, Finite _ => false
  end.

Definition number_ltb (a b : number) : bool :=
  match a, b with
  | Finite p, Finite q => negb (Qle_bool q p)
  | Finite _, Infinity => true
  | Infinity, _ => false
  end.

Definition number_eqb (a b : number) : bool :=
  match a, b with
  | Finite p, Finite q => Qeq_bool p q
  | Infinity, Infinity => true
  | _, _ => false
  end.

(** [Math.abs] *)
Definition number_abs (a : number) : number :=
  match a with
  | Finite q => Finite (Qabs q)
  | Infinity => Infinity
  end.

(** [a / b] for a positive divisor. *)
Definition number_div (a b : number) : number :=
  match a, b with
  | Finite p, Finite q => if Qeq_bool q 0 then Infinity else Finite (p / q)
  | Finite _, Infinity => Finite 0
  | Infinity, _ => Infinity
  end.

(* ================================================================== *)
(** ** Geometry *)

(** What the editor reads from a [Geometry2d] of [primitives/geometry]. *)
Module Geometry2d.
Record t `{Scalar} : Type := mk {
  isClosed : bool;
  isFilled : bool;
  isLabel : bool;
  area : number;
  vertices : list Vec.t;
  (** [bounds.w], [bounds.h], [bounds.containsPoint(p, margin)] *)
  bounds_w : number;
  bounds_h : number;
  bounds_containsPoint : Vec.t → number → bool;
  isPointInBounds : Vec.t → bool;
  (** [distanceToPoint(p, hitInside)] *)
  distanceToPoint : Vec.t → bool → number;
  (** [hitTestPoint(p, margin, hitInside)] *)
  hitTestPoint : Vec.t → number → bool → bool;
}.
End Geometry2d.

(** A shape's geometry: a plain [Geometry2d], or a [Group2d] with its
    child geometries. *)
Inductive ShapeGeometry `{Scalar} : Type :=
| Single (geometry : Geometry2d.t)
| Group2d (geometry : Geometry2d.t) (children : list Geometry2d.t).

Definition geometryOf `{Scalar} (g : ShapeGeometry) : Geometry2d.t :=
  match g with Single geometry | Group2d geometry _ => geometry end.

(** [geometry instanceof Group2d] and [geometry.children] *)
Definition childrenOf `{Scalar} (g : ShapeGeometry) : option (list Geometry2d.t) :=
  match g with Single _ => None | Group2d _ children => Some children end.

(** The primitives of [primitives/Box], [primitives/utils],
    [primitives/intersect] and [constants] that the editor calls. *)
Class GeometryOps `{Scalar} : Type := {
  Box : Type;
  (** [a.contains(b)] *)
  Box_contains : Box → Box → bool;
  Box_corners : Box → list Vec.t;
  Box_FromPoints : list Vec.t → Box;
  Vec_Equals : Vec.t → Vec.t → bool;
  pointInPolygon : Vec.t → list Vec.t → bool;
  intersectPolygonPolygon : list Vec.t → list Vec.t → option (list Vec.t);
  HIT_TEST_MARGIN : number;
}.

(** What a hit test reads from the editor: the camera, the shapes of the
    current page in z-order, and the derived caches, which are defined for
    every shape of the page. *)
Class EditorReads `{GeometryOps} : Type := {
  getZoomLevel : number;
  getViewportPageBounds : Box;
  getCurrentPageShapesSorted : list TLShape.t;
  getCurrentPageRenderingShapesSorted : list TLShape.t;
  getShapeMask : TLShapeId → option (list Vec.t);
  getShapeGeometry : TLShapeId → ShapeGeometry;
  getShapePageBounds : TLShapeId → option Box;
  getPointInShapeSpace : TLShapeId → Vec.t → Vec.t;
}.

(** The options of [getShapeAtPoint], defaults filled in. *)
Module HitOptions.
Record t `{Scalar} : Type := mk {
  renderingOnly : bool;
  margin : number;
  hitLabels : bool;
  hitInside : bool;
  hitFrameInside : bool;
  filter : option (TLShape.t → bool);
}.
Arguments mk {_} _ _ _ _ _ _.
End HitOptions.

(** The four variables the loop of [getShapeAtPoint] carries. *)
Record HitState `{Scalar} : Type := mkHitState {
  inHollowSmallestArea : number;
  inHollowSmallestAreaHit : option TLShape.t;
  inMarginClosestToEdgeDistance : number;
  inMarginClosestToEdgeHit : option TLShape.t;
}.
Arguments mkHitState {_} _ _ _ _.

(** One turn of the loop: [return], [continue], or a [TypeError]. *)
Inductive HitStep `{Scalar} : Type :=
| Return (hit : option TLShape.t)
| Continue (state : HitState)
| Raise (msg : string).

Section HitTest.
Context `{EditorReads}.

Definition isWhiteSpace (c : ascii) : bool :=
  bool_decide (c ∈ [" "; "009"; "010"; "011"; "012"; "013"]%char).

(** [text.trim()] is truthy. *)
Fixpoint trimmedNonEmpty (text : string) : bool :=
  match text with
  | EmptyString => false
  | String c rest => negb (isWhiteSpace c) || trimmedNonEmpty rest
  end.

(** The filter that builds [shapesToCheck] (Editor.ts 4112-4118). *)
Definition toCheck (opts : HitOptions.t) (point : Vec.t) (shape : TLShape.t) : bool :=
  if bool_decide (TLShape.type shape = GroupType) then false
  else
    match getShapeMask (TLShape.id shape) with
    | Some pageMask =>
      if negb (pointInPolygon point pageMask) then false
      else from_option (λ f, f shape) true (HitOptions.filter opts)
    | None => from_option (λ f, f shape) true (HitOptions.filter opts)
    end.

Definition shapesToCheck (opts : HitOptions.t) (point : Vec.t) : list TLShape.t :=
  filter (λ shape, Is_true (toCheck opts point shape))
    (if HitOptions.renderingOnly opts then getCurrentPageRenderingShapesSorted
     else getCurrentPageShapesSorted).

(** "Check labels first" (Editor.ts 4127-4139): whether the point is on
    a label of the shape; [None] when the loop is given the [children]
    of a geometry that is not a group, which are [undefined]. *)
Definition labelHit (shape : TLShape.t) (geometry : ShapeGeometry)
    (pointInShapeSpace : Vec.t) : option bool :=
  let onLabel (text : string) : option bool :=
    if trimmedNonEmpty text then
      existsb (λ child, Geometry2d.isLabel child
                        && Geometry2d.isPointInBounds child pointInShapeSpace)
        <$> childrenOf geometry
    else Some false in
  match TLShape.props shape with
  | ArrowProps _ _ text => onLabel text
  | GeoProps fill text => if bool_decide (fill = "none") then onLabel text else Some false
  | _ => Some false
  end.

(** The [distance] of a shape that is not a frame (Editor.ts 4167-4198). *)
Definition shapeDistance (opts : HitOptions.t) (geometry : ShapeGeometry)
    (pointInShapeSpace : Vec.t) : number :=
  match geometry with
  | Group2d _ children =>
    foldl (λ minDistance child,
             if Geometry2d.isLabel child && negb (HitOptions.hitLabels opts) then minDistance
             else
               let tDistance := Geometry2d.distanceToPoint child pointInShapeSpace (HitOptions.hitInside opts) in
               if number_ltb tDistance minDistance then tDistance else minDistance)
          Infinity children
  | Single g =>
    if number_eqb (HitOptions.margin opts) (Finite 0)
       && (number_ltb (Geometry2d.bounds_w g) (Finite 1)
           || number_ltb (Geometry2d.bounds_h g) (Finite 1))
    then Geometry2d.distanceToPoint g pointInShapeSpace (HitOptions.hitInside opts)
    else if Geometry2d.bounds_containsPoint g pointInShapeSpace (HitOptions.margin opts)
    then Geometry2d.distanceToPoint g pointInShapeSpace (HitOptions.hitInside opts)
    else Infinity
  end.

(** [geometry.isFilled || (isGroup && geometry.children[0].isFilled)] *)
Definition countsAsFilled (geometry : ShapeGeometry) : option bool :=
  if Geometry2d.isFilled (geometryOf geometry) then Some true
  else
    match geometry with
    | Single _ => Some false
    | Group2d _ (first :: _) => Some (Geometry2d.isFilled first)
    | Group2d _ [] => None
    end.

(** [a || b] on shapes. *)
Definition orElse (a b : option TLShape.t) : option TLShape.t :=
  match a with Some _ => a | None => b end.

(** The body of the loop of [getShapeAtPoint] (Editor.ts 4120-4244). *)
Definition checkShape (opts : HitOptions.t) (point : Vec.t) (state : HitState)
    (shape : TLShape.t) : HitStep :=
  let geometry := getShapeGeometry (TLShape.id shape) in
  let pointInShapeSpace := getPointInShapeSpace (TLShape.id shape) point in
  match labelHit shape geometry pointInShapeSpace with
  | None => Raise "TypeError: geometry.children is not iterable"
  | Some true => Return (Some shape)
  | Some false =>
    if bool_decide (TLShape.type shape = FrameType) then
      let distance :=
        Geometry2d.distanceToPoint (geometryOf geometry) pointInShapeSpace
          (HitOptions.hitInside opts) in
      if number_leb (number_abs distance) (HitOptions.margin opts) then
        Return (orElse (inMarginClosestToEdgeHit state) (Some shape))
      else if Geometry2d.hitTestPoint (geometryOf geometry) pointInShapeSpace (Finite 0) true then
        Return (orElse (inMarginClosestToEdgeHit state)
                  (orElse (inHollowSmallestAreaHit state)
                     (if HitOptions.hitFrameInside opts then Some shape else None)))
      else Continue state
    else
      let distance := shapeDistance opts geometry pointInShapeSpace in
      if Geometry2d.isClosed (geometryOf geometry) then
        if number_leb distance (HitOptions.margin opts) then
          match countsAsFilled geometry with
          | None => Raise "TypeError: geometry.children[0] is undefined"
          | Some true => Return (orElse (inMarginClosestToEdgeHit state) (Some shape))
          | Some false =>
            match getShapePageBounds (TLShape.id shape) with
            | None => Raise "TypeError: getShapePageBounds(shape) is undefined"
            | Some pageBounds =>
              if Box_contains pageBounds getViewportPageBounds then Continue state
              else if number_ltb (number_abs distance) (HitOptions.margin opts) then
                if number_ltb (number_abs distance) (inMarginClosestToEdgeDistance state) then
                  Continue (mkHitState (inHollowSmallestArea state)
                              (inHollowSmallestAreaHit state)
                              (number_abs distance) (Some shape))
                else Continue state
              else if bool_decide (inMarginClosestToEdgeHit state = None) then
                let area := Geometry2d.area (geometryOf geometry) in
                if number_ltb area (inHollowSmallestArea state) then
                  Continue (mkHitState area (Some shape)
                              (inMarginClosestToEdgeDistance state)
                              (inMarginClosestToEdgeHit state))
                else Continue state
              else Continue state
            end
          end
        else Continue state
      else if number_ltb distance (number_div HIT_TEST_MARGIN getZoomLevel) then
        Return (Some shape)
      else Continue state
  end.

(** The loop, over the shapes from the topmost down. *)
Fixpoint hitLoop (opts : HitOptions.t) (point : Vec.t) (state : HitState)
    (topDown : list TLShape.t) : HitStep :=
  match topDown with
  | [] => Continue state
  | shape :: rest =>
    match checkShape opts point state shape with
    | Continue state' => hitLoop opts point state' rest
    | stop => stop
    end
  end.

Definition initialHitState : HitState := mkHitState Infinity None Infinity None.

(** [getShapeAtPoint] (Editor.ts 4079) *)
Definition getShapeAtPoint (point : Vec.t) (opts : HitOptions.t) : outcome (option TLShape.t) :=
  match hitLoop opts point initialHitState (reverse (shapesToCheck opts point)) with
  | Return hit => Ret hit
  | Continue state =>
    Ret (orElse (inMarginClosestToEdgeHit state) (inHollowSmallestAreaHit state))
  | Raise msg => Throw msg
  end.

(** [isPointInShape] (Editor.ts 4290) *)
Definition isPointInShape (shape : TLShapeId) (point : Vec.t)
    (margin : number) (hitInside : bool) : bool :=
  match getShapeMask shape with
  | Some pageMask =>
    if negb (pointInPolygon point pageMask) then false
    else Geometry2d.hitTestPoint (geometryOf (getShapeGeometry shape))
           (getPointInShapeSpace shape point) margin hitInside
  | None =>
    Geometry2d.hitTestPoint (geometryOf (getShapeGeometry shape))
      (getPointInShapeSpace shape point) margin hitInside
  end.

(** [corners.every((p, i) => p && Vec.Equals(p, pageMask[i]))] *)
Fixpoint cornersMatch (corners pageMask : list Vec.t) (i : nat) : outcome bool :=
  match corners with
  | [] => Ret true
  | p :: rest =>
    match pageMask !! i with
    | None => Throw "TypeError: pageMask[i] is undefined"
    | Some q => if Vec_Equals p q then cornersMatch rest pageMask (S i) else Ret false
    end
  end.

(** [getShapeMaskedPageBounds] (Editor.ts 3850) with the derivation of
    its cache (Editor.ts 3856). *)
Definition getShapeMaskedPageBounds (shape : TLShapeId) : outcome (option Box) :=
  match getShapePageBounds shape with
  | None => Ret None
  | Some pageBounds =>
    match getShapeMask shape with
    | Some pageMask =>
      if bool_decide (length pageMask = 0) then Ret None
      else
        let corners := Box_corners pageBounds in
        same ← cornersMatch corners pageMask 0;
        if same : bool then Ret (Some pageBounds)
        else
          match intersectPolygonPolygon pageMask corners with
          | None => Ret None
          | Some intersection => Ret (Some (Box_FromPoints intersection))
          end
    | None => Ret (Some pageBounds)
    end
  end.

End HitTest.

(* ================================================================== *)
(** ** Standing assumptions of the properties *)

(** The [onBeforeUpdate] hooks of the shape utils leave the structural
    fields of the record they are given as they are. *)
Definition hooks_keep_structure `{ShapeUtils} : Prop :=
  ∀ prev next r, onBeforeUpdate prev next = Some r →
    TLShape.id r = TLShape.id next ∧
    TLShape.parentId r = TLShape.parentId next ∧
    TLShape.isLocked r = TLShape.isLocked next ∧
    TLShape.props r = TLShape.props next.


(** ... and the place of the record in its parent's space. *)
Definition hooks_keep_placement `{ShapeUtils} : Prop :=
  ∀ prev next r, onBeforeUpdate prev next = Some r →
    TLShape.x r = TLShape.x next ∧
    TLShape.y r = TLShape.y next ∧
    TLShape.rotation r = TLShape.rotation next.

(** [c] is a common ancestor of the shapes [a] and [b]: a shape of the
    store that lies above both. *)
Definition commonAncestor `{Scalar} (ed : Editor) (a b c : TLShapeId) : Prop :=
  is_Some (store ed !! c) ∧ tc (parent_of ed) a c ∧ tc (parent_of ed) b c.

(** [c] is the lowest common ancestor of [a] and [b]: every other common
    ancestor lies above it. *)
Definition lowestCommonAncestor `{Scalar} (ed : Editor) (a b c : TLShapeId) : Prop :=
  commonAncestor ed a b c ∧
  ∀ c', commonAncestor ed a b c' → c' = c ∨ tc (parent_of ed) c c'.


(* ================================================================== *)
(** ** Vocabulary of the hit-test properties *)

Section HitVocabulary.
Context `{EditorReads}.

(** The distance the loop computes for a shape that is not a frame. *)
Definition distanceOf (opts : HitOptions.t) (point : Vec.t) (shape : TLShape.t) : number :=
  shapeDistance opts (getShapeGeometry (TLShape.id shape))
    (getPointInShapeSpace (TLShape.id shape) point).

Definition areaOf (shape : TLShape.t) : number :=
  Geometry2d.area (geometryOf (getShapeGeometry (TLShape.id shape))).

(** [labelHit] of a shape at a page point. *)
Definition labelHitAt (point : Vec.t) (shape : TLShape.t) : option bool :=
  labelHit shape (getShapeGeometry (TLShape.id shape))
    (getPointInShapeSpace (TLShape.id shape) point).

(** The page bounds of the shape contain the whole viewport. *)
Definition coversViewport (shape : TLShape.t) : bool :=
  match getShapePageBounds (TLShape.id shape) with
  | Some pageBounds => Box_contains pageBounds getViewportPageBounds
  | None => false
  end.

(** A closed, hollow shape that is not a frame. *)
Definition isHollow (shape : TLShape.t) : bool :=
  negb (bool_decide (TLShape.type shape = FrameType))
  && Geometry2d.isClosed (geometryOf (getShapeGeometry (TLShape.id shape)))
  && bool_decide (countsAsFilled (getShapeGeometry (TLShape.id shape)) = Some false).

(** The hollow shapes the loop considers: no label hit, the distance is
    at most the margin, the page bounds are known and do not contain the
    viewport. *)
Definition hollowInReach (opts : HitOptions.t) (point : Vec.t) (shape : TLShape.t) : bool :=
  bool_decide (labelHitAt point shape = Some false)
  && isHollow shape
  && number_leb (distanceOf opts point shape) (HitOptions.margin opts)
  && bool_decide (is_Some (getShapePageBounds (TLShape.id shape)))
  && negb (coversViewport shape).

(** ... with the point within the margin of the edge ... *)
Definition marginCandidate (opts : HitOptions.t) (point : Vec.t) (shape : TLShape.t) : bool :=
  hollowInReach opts point shape
  && number_ltb (number_abs (distanceOf opts point shape)) (HitOptions.margin opts).

(** ... or inside the shape, deeper than the margin. *)
Definition hollowCandidate (opts : HitOptions.t) (point : Vec.t) (shape : TLShape.t) : bool :=
  hollowInReach opts point shape
  && negb (number_ltb (number_abs (distanceOf opts point shape)) (HitOptions.margin opts)).

(** The loop holds [hit] as one of its two pending candidates. *)
Definition tracked (state : HitState) (hit : TLShape.t) : Prop :=
  inMarginClosestToEdgeHit state = Some hit ∨ inHollowSmallestAreaHit state = Some hit.

(** The turn of the loop for [shape] can return, or record a candidate. *)
Definition accepted (opts : HitOptions.t) (point : Vec.t) (shape : TLShape.t) : Prop :=
  ∃ state, checkShape opts point state shape ≠ Continue state.

End HitVocabulary.


(* ================================================================== *)
(** ** More walks up the tree *)

Section MoreAncestors.
Context `{MatOps}.

(** The [isInPageSearch] loop of [isShapeInPage]. *)
Fixpoint isInPageSearch (fuel : nat) (ed : Editor) (parent : option TLShape.t)
    (pageId : TLPageId) : outcome bool :=
  match fuel with
  | 0 => Diverge
  | S fuel =>
    match parent with
    | None => Ret false
    | Some parent =>
      if decide (TLShape.parentId parent = PageId pageId) then Ret true
      else isInPageSearch fuel ed (getShape ed (TLShape.parentId parent)) pageId
    end
  end.

(** [isShapeInPage] (Editor.ts 4497) *)
Definition isShapeInPage (fuel : nat) (ed : Editor) (shape : TLShapeId)
    (pageId : TLPageId) : outcome bool :=
  match getShape ed (ShapeId shape) with
  | None => Ret false
  | Some shapeToCheck =>
    if decide (TLShape.parentId shapeToCheck = PageId pageId) then Ret true
    else isInPageSearch fuel ed (getShape ed (TLShape.parentId shapeToCheck)) pageId
  end.

(** [getShapeAncestors] (Editor.ts 3886): [acc.push(parent)] appends to
    the accumulator, and [acc.reverse()] reverses it only on the branch
    that reaches a page. *)
Fixpoint getShapeAncestors (fuel : nat) (ed : Editor) (shape : TLShapeId)
    (acc : list TLShape.t) : outcome (list TLShape.t) :=
  match fuel with
  | 0 => Diverge
  | S fuel =>
    match getShape ed (ShapeId shape) with
    | None => Ret acc
    | Some freshShape =>
      match TLShape.parentId freshShape with
      | PageId _ => Ret (reverse acc)
      | ShapeId parentId =>
        match store ed !! parentId with
        | None => Ret acc
        | Some parent => getShapeAncestors fuel ed (TLShape.id parent) (acc ++ [parent])
        end
      end
    end
  end.

(** [getShapeParentTransform] (Editor.ts 3688) *)
Definition getShapeParentTransform (fuel : nat) (ed : Editor) (shape : TLShapeId)
  : outcome Mat :=
  match getShape ed (ShapeId shape) with
  | None => Ret Mat_Identity
  | Some freshShape =>
    match TLShape.parentId freshShape with
    | PageId _ => Ret Mat_Identity
    | ShapeId parentId =>
      m ← _getShapePageTransformCache fuel ed parentId; Ret (default Mat_Identity m)
    end
  end.

(** [isAncestorSelected] (Editor.ts 1470), with the selected shape ids
    of the current page state. *)
Definition isAncestorSelected (fuel : nat) (ed : Editor)
    (selectedShapeIds : list TLShapeId) (shape : TLShapeId) : outcome bool :=
  match getShape ed (ShapeId shape) with
  | None => Ret false
  | Some _shape =>
    r ← findShapeAncestor fuel ed (TLShape.id _shape)
           (λ parent, bool_decide (TLShape.id parent ∈ selectedShapeIds));
    Ret (bool_decide (is_Some (r : option TLShape.t)))
  end.

End MoreAncestors.


(* ================================================================== *)
(** ** Locking *)

Section Locking.
Context `{MatOps} `{!IndexOps} `{!ShapeUtils}.

(** The partial [{ id: shape.id, type: shape.type, isLocked }]. *)
Definition lockPartial (isLocked : bool) (shape : TLShape.t) : TLShapePartial.t :=
  {| TLShapePartial.id := TLShape.id shape;
     TLShapePartial.type := TLShape.type shape;
     TLShapePartial.parentId := None;
     TLShapePartial.x := None;
     TLShapePartial.y := None;
     TLShapePartial.rotation := None;
     TLShapePartial.index := None;
     TLShapePartial.isLocked := Some isLocked |}.

(** [toggleLock] (Editor.ts 5202), called with shape ids.  The selected
    shape ids of the current page state are threaded through:
    [setSelectedShapes([])] leaves them empty. *)
Definition toggleLock (fuel : nat) (ed : Editor) (selectedShapeIds : list TLShapeId)
    (ids : list TLShapeId) : outcome (Editor * list TLShapeId) :=
  if isReadonly ed || bool_decide (length ids = 0) then Ret (ed, selectedShapeIds)
  else
    let shapesToToggle := omap (λ id, getShape ed (ShapeId id)) ids in
    let allLocked := forallb TLShape.isLocked shapesToToggle in
    let allUnlocked := forallb (λ shape, negb (TLShape.isLocked shape)) shapesToToggle in
    if allUnlocked then
      ed' ← updateShapes fuel ed (lockPartial true <$> shapesToToggle);
      Ret (ed', [])
    else if allLocked then
      ed' ← updateShapes fuel ed (lockPartial false <$> shapesToToggle);
      Ret (ed', selectedShapeIds)
    else
      ed' ← updateShapes fuel ed (lockPartial true <$> shapesToToggle);
      Ret (ed', selectedShapeIds).

End Locking.


(* ================================================================== *)
(** ** Page state *)

(** The fields of [TLInstancePageState] that the editor code at hand
    reads or writes. *)
Module TLInstancePageState.
Record t : Type := mk {
  pageId : TLPageId;
  selectedShapeIds : list TLShapeId;
  erasingShapeIds : list TLShapeId;
  hoveredShapeId : option TLShapeId;
  editingShapeId : option TLShapeId;
  hintingShapeIds : list TLShapeId;
  focusedGroupId : option TLShapeId;
}.
End TLInstancePageState.

#[export] Instance TLInstancePageState_eq_dec : EqDecision TLInstancePageState.t.
Proof. solve_decision. Defined.

Section PageState.
Import TLInstancePageState.

(** [ids.filter((id) => !shapesNoLongerInPage.has(id))] *)
Definition stillInPage (shapesNoLongerInPage : gset TLShapeId) (ids : list TLShapeId)
  : list TLShapeId :=
  filter (λ id, id ∉ shapesNoLongerInPage) ids.

(** [id && shapesNoLongerInPage.has(id)]; the empty string is falsy. *)
Definition noLongerInPage (shapesNoLongerInPage : gset TLShapeId) (id : option TLShapeId)
  : bool :=
  match id with
  | Some id => negb (bool_decide (id = EmptyString)) && bool_decide (id ∈ shapesNoLongerInPage)
  | None => false
  end.

(** [cleanupInstancePageState] (Editor.ts 380): the next page state, or
    [None] for [null] when nothing had to change. *)
Definition cleanupInstancePageState (prevPageState : t)
    (shapesNoLongerInPage : gset TLShapeId) : option t :=
  let nextPageState : option t := None in
  let selected := stillInPage shapesNoLongerInPage (selectedShapeIds prevPageState) in
  let nextPageState :=
    if bool_decide (length selected ≠ length (selectedShapeIds prevPageState)) then
      let next := default prevPageState nextPageState in
      Some (mk (pageId next) selected (erasingShapeIds next) (hoveredShapeId next)
               (editingShapeId next) (hintingShapeIds next) (focusedGroupId next))
    else nextPageState in
  let erasing := stillInPage shapesNoLongerInPage (erasingShapeIds prevPageState) in
  let nextPageState :=
    if bool_decide (length erasing ≠ length (erasingShapeIds prevPageState)) then
      let next := default prevPageState nextPageState in
      Some (mk (pageId next) (selectedShapeIds next) erasing (hoveredShapeId next)
               (editingShapeId next) (hintingShapeIds next) (focusedGroupId next))
    else nextPageState in
  let nextPageState :=
    if noLongerInPage shapesNoLongerInPage (hoveredShapeId prevPageState) then
      let next := default prevPageState nextPageState in
      Some (mk (pageId next) (selectedShapeIds next) (erasingShapeIds next) None
               (editingShapeId next) (hintingShapeIds next) (focusedGroupId next))
    else nextPageState in
  let nextPageState :=
    if noLongerInPage shapesNoLongerInPage (editingShapeId prevPageState) then
      let next := default prevPageState nextPageState in
      Some (mk (pageId next) (selectedShapeIds next) (erasingShapeIds next)
               (hoveredShapeId next) None (hintingShapeIds next) (focusedGroupId next))
    else nextPageState in
  let hinting := stillInPage shapesNoLongerInPage (hintingShapeIds prevPageState) in
  let nextPageState :=
    if bool_decide (length hinting ≠ length (hintingShapeIds prevPageState)) then
      let next := default prevPageState nextPageState in
      Some (mk (pageId next) (selectedShapeIds next) (erasingShapeIds next)
               (hoveredShapeId next) (editingShapeId next) hinting (focusedGroupId next))
    else nextPageState in
  let nextPageState :=
    if noLongerInPage shapesNoLongerInPage (focusedGroupId prevPageState) then
      let next := default prevPageState nextPageState in
      Some (mk (pageId next) (selectedShapeIds next) (erasingShapeIds next)
               (hoveredShapeId next) (editingShapeId next) (hintingShapeIds next) None)
    else nextPageState in
  nextPageState.

(** A page state mentions the shape [id]. *)
Definition mentions (pageState : t) (id : TLShapeId) : Prop :=
  id ∈ selectedShapeIds pageState ∨ id ∈ erasingShapeIds pageState ∨
  hoveredShapeId pageState = Some id ∨ editingShapeId pageState = Some id ∨
  id ∈ hintingShapeIds pageState ∨ focusedGroupId pageState = Some id.

End PageState.


(* ================================================================== *)
(** ** Walks down the tree *)

(** A loop over a list whose body can throw or run out of fuel. *)
Fixpoint foldlM {A B} (f : A → B → outcome A) (a : A) (l : list B) : outcome A :=
  match l with
  | [] => Ret a
  | x :: l => a' ← f a x; foldlM f a' l
  end.

Section Descendants.
Context `{Scalar}.

(** [visitDescendants] (Editor.ts 4718).  The state the visitor works on
    is threaded through; its second answer is [false] where the source
    visitor returns [false], to pass over the descendants of a shape. *)
Fixpoint visitDescendants {St} (fuel : nat) (ed : Editor) (parent : TLParentId)
    (visitor : TLShapeId → St → St * bool) (st : St) : outcome St :=
  match fuel with
  | 0 => Diverge
  | S fuel =>
    foldlM (λ st id,
              let '(st, descend) := visitor id st in
              if descend : bool then visitDescendants fuel ed (ShapeId id) visitor st
              else Ret st)
           st (getSortedChildIdsForParent ed parent)
  end.

(** [pushShapeWithDescendants] (Editor.ts 8553) *)
Fixpoint pushShapeWithDescendants (fuel : nat) (ed : Editor) (id : TLShapeId)
    (result : list TLShape.t) : outcome (list TLShape.t) :=
  match fuel with
  | 0 => Diverge
  | S fuel =>
    match getShape ed (ShapeId id) with
    | None => Ret result
    | Some shape =>
      foldlM (λ result childId, pushShapeWithDescendants fuel ed childId result)
             (result ++ [shape]) (getSortedChildIdsForParent ed (ShapeId id))
    end
  end.

(** [Set.add]: a JavaScript set keeps its elements in insertion order. *)
Definition Set_add (set : list TLShapeId) (id : TLShapeId) : list TLShapeId :=
  if decide (id ∈ set) then set else set ++ [id].

(** The [while] loop of [getShapeAndDescendantIds]; the stack
    [idsToCheck] has its top at the head. *)
Fixpoint getShapeAndDescendantIds_loop (fuel : nat) (ed : Editor)
    (idsToCheck : list TLShapeId) (idsToInclude : list TLShapeId)
  : outcome (list TLShapeId) :=
  match fuel with
  | 0 => Diverge
  | S fuel =>
    match idsToCheck with
    | [] => Ret idsToInclude
    | id :: idsToCheck =>
      if decide (id = EmptyString) then Ret idsToInclude
      else if decide (id ∈ idsToInclude) then
        getShapeAndDescendantIds_loop fuel ed idsToCheck idsToInclude
      else
        getShapeAndDescendantIds_loop fuel ed
          (reverse (getSortedChildIdsForParent ed (ShapeId id)) ++ idsToCheck)
          (idsToInclude ++ [id])
    end
  end.

(** [getShapeAndDescendantIds] (Editor.ts 4740) *)
Definition getShapeAndDescendantIds (fuel : nat) (ed : Editor) (ids : list TLShapeId)
  : outcome (list TLShapeId) :=
  getShapeAndDescendantIds_loop fuel ed (reverse ids) [].

(** [_getUnlockedShapeIds] (Editor.ts 6775) *)
Definition _getUnlockedShapeIds (ed : Editor) (ids : list TLShapeId) : list TLShapeId :=
  filter (λ id, from_option TLShape.isLocked false (getShape ed (ShapeId id)) = false) ids.

(** [deleteShapes] (Editor.ts 6793), called with shape ids: the ids it
    hands to [store.remove], or [None] when it returns before. *)
Definition deleteShapes (fuel : nat) (ed : Editor) (_ids : list TLShapeId)
  : outcome (option (list TLShapeId)) :=
  let ids := _getUnlockedShapeIds ed _ids in
  if isReadonly ed then Ret None
  else if bool_decide (length ids = 0) then Ret None
  else
    allIds ← foldlM (λ allIds id,
                       visitDescendants fuel ed (ShapeId id)
                         (λ childId allIds, (Set_add allIds childId, true)) allIds)
                    (foldl Set_add [] ids) ids;
    Ret (Some allIds).

End Descendants.

(** The page shapes in z-order, from the records of the store. *)
Module Page.
Section Sorted.
Context `{Scalar}.

(** [getCurrentPageShapesSorted] (Editor.ts 4371), for the current page
    [currentPageId]. *)
Definition getCurrentPageShapesSorted (fuel : nat) (ed : Editor) (currentPageId : TLPageId)
  : outcome (list TLShape.t) :=
  foldlM (λ result id, pushShapeWithDescendants fuel ed id result) []
         (getSortedChildIdsForParent ed (PageId currentPageId)).

End Sorted.
End Page.


(* ================================================================== *)
(** ** The shape a click selects *)

Section Selection.
Context `{Scalar}.

(** The [while (node)] loop of [getOutermostSelectableShape]. *)
Fixpoint getOutermostSelectableShape_loop (fuel : nat) (ed : Editor)
    (focusedGroup : option TLShape.t) (filter : option (TLShape.t → bool))
    (match_ : TLShape.t) (node : option TLShape.t) : outcome TLShape.t :=
  match fuel with
  | 0 => Diverge
  | S fuel =>
    match node with
    | None => Ret match_
    | Some node =>
      let isFocused :=
        bool_decide (TLShape.id <$> focusedGroup = Some (TLShape.id node)) in
      selectable ←
        (if bool_decide (TLShape.type node = GroupType) && negb isFocused then
           above ← hasAncestor fuel ed (TLShape.id <$> focusedGroup) (TLShape.id node);
           Ret (negb above && from_option (λ f, f node) true filter)
         else Ret false);
      if selectable : bool then
        getOutermostSelectableShape_loop fuel ed focusedGroup filter node
          (getShapeParent ed (Some (TLShape.id node)))
      else if isFocused then Ret match_
      else
        getOutermostSelectableShape_loop fuel ed focusedGroup filter match_
          (getShapeParent ed (Some (TLShape.id node)))
    end
  end.

(** [getOutermostSelectableShape] (Editor.ts 4811), called with a shape
    id; [focusedGroup] is what [getFocusedGroup()] answers.  For an id
    without a record the loop is not entered and [undefined] comes
    back. *)
Definition getOutermostSelectableShape (fuel : nat) (ed : Editor)
    (focusedGroup : option TLShape.t) (shape : TLShapeId)
    (filter : option (TLShape.t → bool)) : outcome (option TLShape.t) :=
  match getShape ed (ShapeId shape) with
  | None => Ret None
  | Some freshShape =>
    r ← getOutermostSelectableShape_loop fuel ed focusedGroup filter freshShape
          (Some freshShape);
    Ret (Some r)
  end.

End Selection.


(* ================================================================== *)
(** ** The shape to drop on *)

Section Dropping.
Context `{EditorReads}.

(** [this.getShapeUtil(shape).canDropShapes(shape, shapes)], and
    [box.containsPoint(point)] of [primitives/Box]. *)
Variable canDropShapes : TLShape.t → list TLShape.t → bool.
Variable Box_containsPoint : Box → Vec.t → bool.

(** [droppingShapes.find((s) => s.id === shape.id ||
    this.hasAncestor(shape, s.id))], as a truth value. *)
Fixpoint isDroppedOrBelow (fuel : nat) (ed : Editor) (shape : TLShape.t)
    (droppingShapes : list TLShape.t) : outcome bool :=
  match droppingShapes with
  | [] => Ret false
  | s :: rest =>
    if decide (TLShape.id s = TLShape.id shape) then Ret true
    else
      b ← hasAncestor fuel ed (Some (TLShape.id shape)) (TLShape.id s);
      if b : bool then Ret true else isDroppedOrBelow fuel ed shape rest
  end.

(** The [for] loop of [getDroppingOverShape], over the shapes from the
    top. *)
Fixpoint getDroppingOverShape_loop (fuel : nat) (ed : Editor)
    (selectedShapeIds : list TLShapeId) (point : Vec.t) (droppingShapes : list TLShape.t)
    (topDown : list TLShape.t) : outcome (option TLShape.t) :=
  match topDown with
  | [] => Ret None
  | shape :: rest =>
    let continue :=
      getDroppingOverShape_loop fuel ed selectedShapeIds point droppingShapes rest in
    if bool_decide (TLShape.id shape ∈ selectedShapeIds) then continue
    else if negb (canDropShapes shape droppingShapes) then continue
    else
      skip ← isDroppedOrBelow fuel ed shape droppingShapes;
      if skip : bool then continue
      else
        maskedPageBounds ← getShapeMaskedPageBounds (TLShape.id shape);
        match maskedPageBounds with
        | Some bounds =>
          if Box_containsPoint bounds point
             && Geometry2d.hitTestPoint (geometryOf (getShapeGeometry (TLShape.id shape)))
                  (getPointInShapeSpace (TLShape.id shape) point) (Finite 0) true
          then Ret (Some shape)
          else continue
        | None => continue
        end
  end.

(** [getDroppingOverShape] (Editor.ts 4768); [selectedShapeIds] is what
    [getSelectedShapeIds()] answers. *)
Definition getDroppingOverShape (fuel : nat) (ed : Editor)
    (selectedShapeIds : list TLShapeId) (point : Vec.t) (droppingShapes : list TLShape.t)
  : outcome (option TLShape.t) :=
  getDroppingOverShape_loop fuel ed selectedShapeIds point droppingShapes
    (reverse getCurrentPageShapesSorted).

End Dropping.


(* ================================================================== *)
(** ** The selection *)

(** [setSelectedShapes] (Editor.ts 1451), on the selected shape ids of
    the current page state: the ids the page state holds after the
    call.  Nothing is written when [ids] has as many entries as the set
    of the ids selected before has elements and each entry is in that
    set. *)
Definition setSelectedShapes (prevSelectedShapeIds ids : list TLShapeId) : list TLShapeId :=
  let prevSet : gset TLShapeId := list_to_set prevSelectedShapeIds in
  if bool_decide (length ids = size prevSet)
     && forallb (λ id, bool_decide (id ∈ prevSet)) ids
  then prevSelectedShapeIds
  else ids.


(* ================================================================== *)
(** ** A concrete universe for the examples *)

(** Whole-number scalars, the affine maps of the integer lattice (angles
    counted in quarter turns, so that sines and cosines stay whole),
    shape utils without hooks, and axis-parallel rectangles measured in
    the maximum norm.  The examples at the end of the file run the
    editor on these. *)
Module Examples.

#[local] Open Scope Z_scope.

Definition ZScalar : Scalar := {| num := Z; num_sub := Z.sub |}.
#[local] Existing Instance ZScalar.

Record ZMat : Type := mkZMat { ma : Z; mb : Z; mc : Z; md : Z; me : Z; mf : Z }.

Definition ZMat_Identity : ZMat := mkZMat 1 0 0 1 0 0.

(** [m.multiply(n)] *)
Definition ZMat_multiply (m n : ZMat) : ZMat :=
  mkZMat (ma m * ma n + mc m * mb n) (mb m * ma n + md m * mb n)
         (ma m * mc n + mc m * md n) (mb m * mc n + md m * md n)
         (ma m * me n + mc m * mf n + me m) (mb m * me n + md m * mf n + mf m).

(** The rotation by [r] quarter turns: (cos, sin, -sin, cos, 0, 0). *)
Definition ZMat_Rotate (r : Z) : ZMat :=
  match (r mod 4)%Z with
  | 0%Z => ZMat_Identity
  | 1%Z => mkZMat 0 1 (-1) 0 0 0
  | 2%Z => mkZMat (-1) 0 0 (-1) 0 0
  | _ => mkZMat 0 (-1) 1 0 0 0
  end.

Definition ZMat_rotation (m : ZMat) : Z :=
  if (ma m =? 1)%Z then 0%Z
  else if (mb m =? 1)%Z then 1%Z
  else if (ma m =? -1)%Z then 2%Z
  else 3%Z.

Definition ZMat_invert (m : ZMat) : ZMat :=
  let denom := (ma m * md m - mb m * mc m)%Z in
  mkZMat (md m / denom) (mb m / - denom) (mc m / - denom) (ma m / denom)
         ((md m * me m - mc m * mf m) / - denom)
         ((mb m * me m - ma m * mf m) / denom).

Definition ZMatOps : MatOps := {|
  Mat := ZMat;
  Mat_Identity := ZMat_Identity;
  Mat_Compose := λ a b, ZMat_multiply (ZMat_multiply ZMat_Identity a) b;
  Mat_translate := λ m x y, ZMat_multiply m (mkZMat 1 0 0 1 x y);
  Mat_rotate := λ m r, if (r =? 0)%Z then m else ZMat_multiply m (ZMat_Rotate r);
  Mat_invert := ZMat_invert;
  Mat_point := λ m, Vec.mk (me m) (mf m);
  Mat_rotation := ZMat_rotation;
  Mat_applyToPoint := λ m p,
    Vec.mk (ma m * Vec.x p + mc m * Vec.y p + me m)
           (mb m * Vec.x p + md m * Vec.y p + mf m);
|}.
#[local] Existing Instance ZMatOps.

(** [n] copies of a character. *)
Fixpoint copies (n : nat) (c : ascii) : string :=
  match n with
  | O => EmptyString
  | S n => String c (copies n c)
  end.

(** A stand-in for the order-key generators: keys grow by appending. *)
Definition plainIndexOps : IndexOps := {|
  getIndices := λ n, (λ i, String.append "a" (copies (S i) "1"%char)) <$> seq 0%nat n;
  getIndicesAbove := λ below n,
    (λ i, String.append below (copies (S i) "V"%char)) <$> seq 0%nat n;
  getIndicesBetween := λ below _ n,
    (λ i, String.append below (copies (S i) "V"%char)) <$> seq 0%nat n;
  getIndexAbove := λ below, String.append below "V";
  getIndexBetween := λ below _, String.append below "V";
|}.
#[local] Existing Instance plainIndexOps.

(** Shape utils without [onBeforeUpdate]. *)
Definition noHooks : ShapeUtils := {| onBeforeUpdate := λ _ _, None |}.
#[local] Existing Instance noHooks.

(** Terminals of unrotated arrows on the page: a point resolves to
    itself, a binding to the origin of the bound shape. *)
Definition plainArrowOps : ArrowOps := {|
  getArrowTerminalsInArrowSpace := λ ed shape handle,
    match terminalOf shape handle with
    | Some (TerminalPoint x y) => Vec.mk x y
    | Some (TerminalBinding boundShapeId _ _ _) =>
      match store ed !! boundShapeId with
      | Some bound =>
        Vec.mk (TLShape.x bound - TLShape.x shape)%Z (TLShape.y bound - TLShape.y shape)%Z
      | None => Vec.mk 0%Z 0%Z
      end
    | None => Vec.mk 0%Z 0%Z
    end;
|}.
#[local] Existing Instance plainArrowOps.

(** An unrotated, unlocked shape. *)
Definition shapeAt (id : TLShapeId) (parentId : TLParentId) (x y : Z)
    (props : TLShapeProps) : TLShape.t :=
  TLShape.mk id parentId "a1" x y 0%Z false props.

Definition editorOf (shapes : list TLShape.t) (readonly : bool) : Editor :=
  mkEditor (list_to_map ((λ s, (TLShape.id s, s)) <$> shapes)) readonly.

(** Every walk up from [k] ends within [n] steps. *)
Fixpoint walkEnds (n : nat) (ed : Editor) (k : TLShapeId) : bool :=
  match n with
  | O => false
  | S n =>
    match store ed !! k with
    | None => true
    | Some s =>
      match TLShape.parentId s with
      | PageId _ => true
      | ShapeId p => walkEnds n ed p
      end
    end
  end.

(** ** Rectangles *)

Record ZBox : Type := mkZBox { minX : Z; minY : Z; maxX : Z; maxY : Z }.

Definition ZBox_contains (a b : ZBox) : bool :=
  (minX a <=? minX b)%Z && (minY a <=? minY b)%Z
  && (maxX b <=? maxX a)%Z && (maxY b <=? maxY a)%Z.

Definition ZBox_corners (b : ZBox) : list Vec.t :=
  [Vec.mk (minX b) (minY b); Vec.mk (maxX b) (minY b);
   Vec.mk (maxX b) (maxY b); Vec.mk (minX b) (maxY b)].

Definition ZBox_FromPoints (points : list Vec.t) : ZBox :=
  match points with
  | [] => mkZBox 0 0 0 0
  | p :: rest =>
    foldl (λ b q, mkZBox (Z.min (minX b) (Vec.x q)) (Z.min (minY b) (Vec.y q))
                         (Z.max (maxX b) (Vec.x q)) (Z.max (maxY b) (Vec.y q)))
          (mkZBox (Vec.x p) (Vec.y p) (Vec.x p) (Vec.y p)) rest
  end.

(** The crossing-number test on the edges of a polygon. *)
Definition crosses (p a b : Vec.t) : bool :=
  let '(px, py) := (Vec.x p, Vec.y p) in
  let '(ax, ay) := (Vec.x a, Vec.y a) in
  let '(bx, by_) := (Vec.x b, Vec.y b) in
  negb (Bool.eqb (py <? ay)%Z (py <? by_)%Z)
  && (if (ay <? by_)%Z
      then ((px - ax) * (by_ - ay) <? (bx - ax) * (py - ay))%Z
      else ((bx - ax) * (py - ay) <? (px - ax) * (by_ - ay))%Z).

Definition ZpointInPolygon (p : Vec.t) (points : list Vec.t) : bool :=
  match points with
  | [] => false
  | first :: _ =>
    let edges := zip points (drop 1 points ++ [first]) in
    Nat.odd (length (filter (λ '(a, b), Is_true (crosses p a b)) edges))
  end.

(** Polygons are intersected through their bounding boxes. *)
Definition ZintersectPolygonPolygon (a b : list Vec.t) : option (list Vec.t) :=
  let '(ba, bb) := (ZBox_FromPoints a, ZBox_FromPoints b) in
  let r := mkZBox (Z.max (minX ba) (minX bb)) (Z.max (minY ba) (minY bb))
                  (Z.min (maxX ba) (maxX bb)) (Z.min (maxY ba) (maxY bb)) in
  if ((minX r <? maxX r) && (minY r <? maxY r))%Z then Some (ZBox_corners r) else None.

Definition ZGeometryOps : GeometryOps := {|
  Box := ZBox;
  Box_contains := ZBox_contains;
  Box_corners := ZBox_corners;
  Box_FromPoints := ZBox_FromPoints;
  Vec_Equals := λ a b, bool_decide (a = b);
  pointInPolygon := ZpointInPolygon;
  intersectPolygonPolygon := ZintersectPolygonPolygon;
  HIT_TEST_MARGIN := Finite 8;
|}.
#[local] Existing Instance ZGeometryOps.

Definition ofZ (z : Z) : number := Finite (inject_Z z).

(** The rectangle with corner (ox, oy) and size w by h, in shape space. *)
Definition rectangle (ox oy w h : Z) (filled label : bool) : Geometry2d.t :=
  let outside (p : Vec.t) : Z :=
    Z.max (Z.max (ox - Vec.x p) (Vec.x p - (ox + w)))
          (Z.max (oy - Vec.y p) (Vec.y p - (oy + h))) in
  let distance (p : Vec.t) (hitInside : bool) : Z :=
    if (0 <? outside p)%Z then outside p
    else if filled || hitInside then outside p else (- outside p)%Z in
  {| Geometry2d.isClosed := true;
     Geometry2d.isFilled := filled;
     Geometry2d.isLabel := label;
     Geometry2d.area := ofZ (w * h);
     Geometry2d.vertices :=
       [Vec.mk ox oy; Vec.mk (ox + w)%Z oy; Vec.mk (ox + w)%Z (oy + h)%Z; Vec.mk ox (oy + h)%Z];
     Geometry2d.bounds_w := ofZ w;
     Geometry2d.bounds_h := ofZ h;
     Geometry2d.bounds_containsPoint := λ p margin, number_leb (ofZ (outside p)) margin;
     Geometry2d.isPointInBounds := λ p, (outside p <=? 0)%Z;
     Geometry2d.distanceToPoint := λ p hitInside, ofZ (distance p hitInside);
     Geometry2d.hitTestPoint := λ p margin hitInside,
       number_leb (ofZ (distance p hitInside)) margin |}.

(** A shape of the page with its geometry and clip mask. *)
Record Placed : Type := mkPlaced {
  placedShape : TLShape.t;
  placedGeometry : ShapeGeometry;
  placedMask : option (list Vec.t);
}.

Definition placedAt (placed : list Placed) (id : TLShapeId) : option Placed :=
  snd <$> list_find (λ p, TLShape.id (placedShape p) = id) placed.

Definition pageBoundsOf (p : Placed) : ZBox :=
  let s := placedShape p in
  ZBox_FromPoints
    ((λ v, Vec.mk (Vec.x v + TLShape.x s)%Z (Vec.y v + TLShape.y s)%Z)
       <$> Geometry2d.vertices (geometryOf (placedGeometry p))).

(** The reads of an editor whose page holds the unrotated shapes
    [placed], bottom to top, seen through [viewport] at zoom 1. *)
Definition readsOf (viewport : ZBox) (placed : list Placed) : EditorReads := {|
  getZoomLevel := Finite 1;
  getViewportPageBounds := viewport;
  getCurrentPageShapesSorted := placedShape <$> placed;
  getCurrentPageRenderingShapesSorted := placedShape <$> placed;
  getShapeMask := λ id, placedAt placed id ≫= placedMask;
  getShapeGeometry := λ id,
    from_option placedGeometry (Single (rectangle 0 0 0 0 false false)) (placedAt placed id);
  getShapePageBounds := λ id, pageBoundsOf <$> placedAt placed id;
  getPointInShapeSpace := λ id p,
    match placedAt placed id with
    | Some q =>
      Vec.mk (Vec.x p - TLShape.x (placedShape q))%Z (Vec.y p - TLShape.y (placedShape q))%Z
    | None => p
    end;
|}.

(** A hollow or filled box of the page. *)
Definition boxShape (id : TLShapeId) (x y w h : Z) (filled : bool) : Placed :=
  mkPlaced (shapeAt id (PageId "page:1") x y OtherProps)
           (Single (rectangle 0 0 w h filled false)) None.

(** ** Editors *)

(** A shape on the page, a rotated child of it, and a shape whose
    parent record is gone. *)
Definition rotatedChild : TLShape.t :=
  TLShape.mk "shape:b" (ShapeId "shape:a") "a1" 5 5 1 false OtherProps.

Definition orphanShape : TLShape.t := shapeAt "shape:c" (ShapeId "shape:gone") 1 2 OtherProps.

Definition familyEditor : Editor :=
  editorOf [ shapeAt "shape:a" (PageId "page:1") 10 20 OtherProps;
             rotatedChild;
             orphanShape ] false.

(** A frame and a locked shape next to it on the page. *)
Definition lockedShape : TLShape.t :=
  TLShape.mk "shape:locked" (PageId "page:1") "a2" 10 20 0 true OtherProps.

Definition lockedEditor : Editor :=
  editorOf [ shapeAt "shape:frame" (PageId "page:1") 100 100 FrameProps; lockedShape ] false.

(** An arrow of the page bound at both ends to shapes of one frame. *)
Definition boundTo (id : TLShapeId) : TLArrowTerminal :=
  TerminalBinding id (Vec.mk 0 0) false false.

Definition arrowShape : TLShape.t :=
  TLShape.mk "shape:arrow" (PageId "page:1") "a2" 0 0 0 false
    (ArrowProps (boundTo "shape:x") (boundTo "shape:y") "to").

Definition boundX : TLShape.t := shapeAt "shape:x" (ShapeId "shape:frame") 10 10 OtherProps.

Definition boundY : TLShape.t :=
  TLShape.mk "shape:y" (ShapeId "shape:frame") "a2" 50 10 0 false OtherProps.

Definition arrowEditor (readonly : bool) : Editor :=
  editorOf [ shapeAt "shape:frame" (PageId "page:1") 100 100 FrameProps;
             boundX; boundY; arrowShape ] readonly.

(** ** Scenes *)

(** The default options of [getShapeAtPoint], with a margin. *)
Definition optionsWith (margin : Z) (hitInside : bool) : HitOptions.t :=
  HitOptions.mk false (ofZ margin) false hitInside false None.

(** A frame of 100 by 100 with a filled child in its middle. *)
Definition frameShape : TLShape.t := shapeAt "shape:frame" (PageId "page:1") 0 0 FrameProps.

Definition frameChild : TLShape.t := shapeAt "shape:child" (ShapeId "shape:frame") 40 40 OtherProps.

Definition frameScene : EditorReads :=
  readsOf (mkZBox 0 0 200 200)
    [ mkPlaced frameShape (Single (rectangle 0 0 100 100 false false)) None;
      mkPlaced frameChild (Single (rectangle 0 0 20 20 true false)) None ].

(** Two hollow boxes seen through the viewport from (0, 0) to (5, 5):
    one of area 400 that reaches into the viewport from the right, and
    on top of it one of area 100 that covers the whole viewport. *)
Definition wideBox : Placed := boxShape "shape:wide" 3 (-10) 20 20 false.

Definition coverBox : Placed := boxShape "shape:cover" (-1) (-1) 10 10 false.

Definition coverScene : EditorReads := readsOf (mkZBox 0 0 5 5) [wideBox; coverBox].

(** A point of the viewport inside both boxes. *)
Definition insideBoth : Vec.t := Vec.mk 4 4.

(** A hollow geo shape with a text label, covering the viewport. *)
Definition labelledGeo : TLShape.t :=
  shapeAt "shape:geo" (PageId "page:1") (-1) (-1) (GeoProps "none" "hello").

Definition labelledScene : EditorReads :=
  readsOf (mkZBox 0 0 5 5)
    [ mkPlaced labelledGeo
        (Group2d (rectangle 0 0 10 10 false false)
           [rectangle 0 0 10 10 false false; rectangle 3 3 4 4 false true])
        None ].

(** A box clipped away entirely: its mask has no vertices. *)
Definition maskedScene : EditorReads :=
  readsOf (mkZBox 0 0 200 200)
    [ mkPlaced (shapeAt "shape:masked" (ShapeId "shape:frame") 0 0 OtherProps)
        (Single (rectangle 0 0 10 10 true false)) (Some []) ].

(** ** Further examples *)

(** A partial that moves the locked shape of [lockedEditor]. *)
Definition nudgeLocked : TLShapePartial.t :=
  TLShapePartial.mk "shape:locked" OtherType None None (Some 0) None None None.

(** A page state that selects two shapes and hovers over one of them. *)
Definition selectionState : TLInstancePageState.t :=
  TLInstancePageState.mk "page:1" ["shape:a"; "shape:b"] [] (Some "shape:b") None [] None.

Definition removedShapes : gset TLShapeId := {[ "shape:b" ]}.

(** The open line from (0, 0) to (w, 0), in shape space. *)
Definition polyline (w : Z) : Geometry2d.t :=
  let outside (p : Vec.t) : Z :=
    Z.max (Z.max (0 - Vec.x p) (Vec.x p - w)) (Z.abs (Vec.y p)) in
  {| Geometry2d.isClosed := false;
     Geometry2d.isFilled := false;
     Geometry2d.isLabel := false;
     Geometry2d.area := ofZ 0;
     Geometry2d.vertices := [Vec.mk 0 0; Vec.mk w 0];
     Geometry2d.bounds_w := ofZ w;
     Geometry2d.bounds_h := ofZ 0;
     Geometry2d.bounds_containsPoint := λ p margin, number_leb (ofZ (outside p)) margin;
     Geometry2d.isPointInBounds := λ p, (outside p <=? 0)%Z;
     Geometry2d.distanceToPoint := λ p _, ofZ (outside p);
     Geometry2d.hitTestPoint := λ p margin _, number_leb (ofZ (outside p)) margin |}.

Definition lineShape : TLShape.t := shapeAt "shape:line" (PageId "page:1") 0 0 OtherProps.

Definition lineScene : EditorReads :=
  readsOf (mkZBox 0 0 200 200) [ mkPlaced lineShape (Single (polyline 10)) None ].

Definition nearLine : Vec.t := Vec.mk 5 1.

Definition nearCorner : Vec.t := Vec.mk 1 1.

(** A shape inside a group inside a group. *)
Definition outerGroup : TLShape.t := shapeAt "shape:outer" (PageId "page:1") 0 0 GroupProps.

Definition innerGroup : TLShape.t := shapeAt "shape:inner" (ShapeId "shape:outer") 0 0 GroupProps.

Definition groupLeaf : TLShape.t := shapeAt "shape:leaf" (ShapeId "shape:inner") 0 0 OtherProps.

Definition groupEditor : Editor := editorOf [outerGroup; innerGroup; groupLeaf] false.

(** The frame of [frameScene] with its child, and a loose shape next to
    them that is being dragged over the frame. *)
Definition looseShape : TLShape.t := shapeAt "shape:loose" (PageId "page:1") 200 200 OtherProps.

Definition dropEditor : Editor := editorOf [frameShape; frameChild; looseShape] false.

Definition dropScene : EditorReads :=
  readsOf (mkZBox 0 0 400 400)
    [ mkPlaced frameShape (Single (rectangle 0 0 100 100 false false)) None;
      mkPlaced frameChild (Single (rectangle 0 0 20 20 true false)) None;
      mkPlaced looseShape (Single (rectangle 0 0 20 20 true false)) None ].

(** Only frames take dropped shapes. *)
Definition framesOnly (shape : TLShape.t) (_ : list TLShape.t) : bool :=
  bool_decide (TLShape.type shape = FrameType).

Definition ZBox_containsPoint (b : ZBox) (p : Vec.t) : bool :=
  (minX b <=? Vec.x p) && (Vec.x p <=? maxX b) && (minY b <=? Vec.y p) && (Vec.y p <=? maxY b).

Definition insideChild : Vec.t := Vec.mk 50 50.

(** Two partials for the shape [shape:a] of [familyEditor]: one moves it
    along x, the next along y. *)
Definition pageShape : TLShape.t := shapeAt "shape:a" (PageId "page:1") 10 20 OtherProps.

Definition moveAlongX : TLShapePartial.t :=
  TLShapePartial.mk "shape:a" OtherType None None (Some 1) None None None.

Definition moveAlongY : TLShapePartial.t :=
  TLShapePartial.mk "shape:a" OtherType None None None (Some 2) None None.

End Examples.


(* ================================================================== *)
(** * Properties *)

Ltac unfold_outcome :=
  unfold mbind, mret, fmap, outcome_bind, outcome_ret, outcome_fmap in *.

Lemma returns_unique {A} (f : nat → outcome A) (a b : A) :
  returns f a → returns f b → a = b.
Proof.
  intros [n Hn] [m Hm].
  specialize (Hn (n `max` m) ltac:(lia)).
  specialize (Hm (n `max` m) ltac:(lia)).
  congruence.
Qed.

Section TransformFacts.
Context `{MatOps}.

Lemma getShapeLocalTransform_wf (ed : Editor) k s :
  store_wf ed → store ed !! k = Some s →
  getShapeLocalTransform ed (TLShape.id s) = Ret (localTransformOf s).
Proof.
  intros Hwf Hs. unfold getShapeLocalTransform, getShape.
  rewrite (Hwf _ _ Hs), Hs. reflexivity.
Qed.

Lemma pageTransformCache_mono (ed : Editor) n :
  ∀ k r, _getShapePageTransformCache n ed k = Ret r →
  ∀ m, n ≤ m → _getShapePageTransformCache m ed k = Ret r.
Proof.
  induction n as [|n IH]; intros k r Hr m Hm; [discriminate|].
  destruct m as [|m]; [lia|]. simpl in *.
  destruct (store ed !! k) as [s|]; [|exact Hr].
  destruct (TLShape.parentId s) as [pg|p]; [exact Hr|].
  destruct (_getShapePageTransformCache n ed p) as [pt| |] eqn:Hp;
    try (unfold_outcome; discriminate).
  rewrite (IH _ _ Hp m ltac:(lia)). exact Hr.
Qed.

Lemma pageTransformCache_terminates (ed : Editor) :
  store_wf ed → ∀ k, Acc (λ p c, parent_of ed c p) k →
  ∃ n r, _getShapePageTransformCache n ed k = Ret r.
Proof.
  intros Hwf k Hacc. induction Hacc as [k _ IH].
  destruct (store ed !! k) as [s|] eqn:Hs.
  - destruct (TLShape.parentId s) as [pg|p] eqn:Hp.
    + exists 1, (Some (localTransformOf s)). simpl. rewrite Hs, Hp.
      rewrite (getShapeLocalTransform_wf _ _ _ Hwf Hs). reflexivity.
    + destruct (IH p) as (n & r & Hr); [by exists s|].
      exists (S n), (Some (Mat_Compose (default Mat_Identity r) (localTransformOf s))).
      simpl. rewrite Hs, Hp, Hr.
      unfold_outcome. rewrite (getShapeLocalTransform_wf _ _ _ Hwf Hs). reflexivity.
  - exists 1, None. simpl. by rewrite Hs.
Qed.

Lemma getShapePageTransform_returns (ed : Editor) k n r :
  _getShapePageTransformCache n ed k = Ret r →
  returns (λ fuel, getShapePageTransform fuel ed k) (default Mat_Identity r).
Proof.
  intros Hr. exists n. intros m Hm. unfold getShapePageTransform.
  by rewrite (pageTransformCache_mono _ _ _ _ Hr m Hm).
Qed.

Section Laws.
(** [Mat.Compose] starts from the identity matrix and multiplies its
    arguments in; composing with the identity changes nothing. *)
Hypothesis Mat_Compose_Identity_l : ∀ m : Mat, Mat_Compose Mat_Identity m = m.

(** C1. In a store that keeps records under their ids and whose parent
    graph is a forest, [getShapePageTransform] returns, for a shape whose
    parent is a page, its local transform built from (x, y, rotation);
    for a shape whose parent shape exists, the composition of the
    parent's page transform with its local transform; and for a shape
    whose parent record is missing, the parent's transform is the
    identity and the result is the local transform. *)
Theorem getShapePageTransform_spec (ed : Editor) (k : TLShapeId) (s : TLShape.t) :
  store_wf ed → Acyclic ed → store ed !! k = Some s →
  ∃ m, returns (λ fuel, getShapePageTransform fuel ed k) m ∧
    match TLShape.parentId s with
    | PageId _ => m = localTransformOf s
    | ShapeId p =>
      match store ed !! p with
      | Some _ =>
        ∃ mp, returns (λ fuel, getShapePageTransform fuel ed p) mp ∧
              m = Mat_Compose mp (localTransformOf s)
      | None =>
        returns (λ fuel, getShapePageTransform fuel ed p) Mat_Identity ∧
        m = localTransformOf s
      end
    end.
Proof.
  intros Hwf Hac Hs.
  destruct (TLShape.parentId s) as [pg|p] eqn:Hp.
  - exists (localTransformOf s). split; [|done].
    apply (getShapePageTransform_returns ed k 1 (Some (localTransformOf s))).
    simpl. rewrite Hs, Hp, (getShapeLocalTransform_wf _ _ _ Hwf Hs). done.
  - destruct (pageTransformCache_terminates ed Hwf p (Hac p)) as (n & r & Hr).
    assert (Hk : _getShapePageTransformCache (S n) ed k
                 = Ret (Some (Mat_Compose (default Mat_Identity r) (localTransformOf s)))).
    { simpl. rewrite Hs, Hp, Hr. unfold_outcome.
      by rewrite (getShapeLocalTransform_wf _ _ _ Hwf Hs). }
    exists (Mat_Compose (default Mat_Identity r) (localTransformOf s)).
    split; [exact (getShapePageTransform_returns _ _ _ _ Hk)|].
    destruct (store ed !! p) as [ps|] eqn:Hps.
    + exists (default Mat_Identity r). split; [|done].
      exact (getShapePageTransform_returns _ _ _ _ Hr).
    + assert (r = None) as ->.
      { destruct n; [discriminate|]. simpl in Hr. rewrite Hps in Hr. congruence. }
      split; [exact (getShapePageTransform_returns _ _ _ _ Hr)|].
      simpl. apply Mat_Compose_Identity_l.
Qed.

End Laws.
End TransformFacts.

(* ------------------------------------------------------------------ *)
(** ** Fuel *)

Lemma returns_ret {A} (a : A) : returns (λ _, Ret a) a.
Proof. by exists 0. Qed.

Lemma returns_bind {A B} (f : nat → outcome A) (g : nat → A → outcome B) a b :
  returns f a → returns (λ n, g n a) b → returns (λ n, x ← f n; g n x) b.
Proof.
  intros [n Hn] [m Hm]. exists (n `max` m). intros k Hk.
  rewrite Hn by lia. unfold_outcome. apply Hm. lia.
Qed.

Lemma returns_ext {A} (f g : nat → outcome A) a :
  (∀ n, f n = g n) → returns f a → returns g a.
Proof. intros E [n Hn]. exists n. intros k Hk. rewrite <- E. by apply Hn. Qed.

(** A walk that spends one unit of fuel and then continues as [f]. *)
Lemma returns_step {A} (f g : nat → outcome A) a :
  (∀ n, g (S n) = f n) → returns f a → returns g a.
Proof.
  intros E [n Hn]. exists (S n). intros [|k] Hk; [lia|]. rewrite E. apply Hn. lia.
Qed.

(* ------------------------------------------------------------------ *)
(** ** Writes to the store *)

Section WriteFacts.
Context `{MatOps} `{!IndexOps} `{!ShapeUtils}.

Lemma store_put_nil (ed : Editor) : store_put ed [] = ed.
Proof. by destruct ed. Qed.

Lemma store_put_snoc (ed : Editor) l r :
  store (store_put ed (l ++ [r])) = <[TLShape.id r := r]> (store (store_put ed l)).
Proof. unfold store_put. simpl. by rewrite foldl_app. Qed.

Lemma store_put_readonly (ed : Editor) l :
  isReadonly (store_put ed l) = isReadonly ed.
Proof. done. Qed.

(** A record read after [put] is one of the records written, or the
    record that was there when none of them has its id. *)
Lemma store_put_lookup (ed : Editor) l k r :
  store (store_put ed l) !! k = Some r →
  (r ∈ l ∧ TLShape.id r = k) ∨
  ((∀ r', r' ∈ l → TLShape.id r' ≠ k) ∧ store ed !! k = Some r).
Proof.
  revert r. induction l as [|x l IH] using rev_ind; intros r Hr.
  - right. split; [by intros ? ?%elem_of_nil|]. by rewrite store_put_nil in Hr.
  - rewrite store_put_snoc in Hr.
    destruct (decide (TLShape.id x = k)) as [<-|Hne].
    + rewrite lookup_insert_eq in Hr. injection Hr as <-. left. split; [|done].
      apply elem_of_app. right. by apply list_elem_of_singleton.
    + rewrite lookup_insert_ne in Hr by done.
      destruct (IH _ Hr) as [[Hin Hid]|[Hno Hk]].
      * left. split; [|done]. apply elem_of_app. by left.
      * right. split; [|done]. intros r' [?| ->%list_elem_of_singleton]%elem_of_app; auto.
Qed.

Lemma store_put_lookup_other (ed : Editor) l k :
  (∀ r', r' ∈ l → TLShape.id r' ≠ k) →
  store (store_put ed l) !! k = store ed !! k.
Proof.
  induction l as [|x l IH] using rev_ind; intros Hno.
  - by rewrite store_put_nil.
  - rewrite store_put_snoc, lookup_insert_ne.
    + apply IH. intros r' Hr'. apply Hno, elem_of_app. by left.
    + apply Hno, elem_of_app. right. by apply list_elem_of_singleton.
Qed.

Lemma store_put_is_Some (ed : Editor) l k :
  is_Some (store ed !! k) → is_Some (store (store_put ed l) !! k).
Proof.
  induction l as [|x l IH] using rev_ind; intros Hk.
  - by rewrite store_put_nil.
  - rewrite store_put_snoc. destruct (decide (TLShape.id x = k)) as [<-|Hne].
    + rewrite lookup_insert_eq. eauto.
    + rewrite lookup_insert_ne by done. auto.
Qed.

Lemma store_put_wf (ed : Editor) l : store_wf ed → store_wf (store_put ed l).
Proof.
  intros Hwf k r Hr. destruct (store_put_lookup _ _ _ _ Hr) as [[_ ?]|[_ Hk]]; [done|].
  exact (Hwf _ _ Hk).
Qed.

End WriteFacts.

Section UpdateFacts.
Context `{MatOps} `{!IndexOps} `{!ShapeUtils}.
Hypothesis Hhooks : hooks_keep_structure.

Lemma updatedShape_Some (ed : Editor) partial r :
  store_wf ed → updatedShape ed partial = Some r →
  ∃ s, store ed !! TLShapePartial.id partial = Some s ∧
       TLShape.id r = TLShapePartial.id partial ∧
       TLShape.parentId r = TLShape.parentId (applyPartialToShape s partial) ∧
       TLShape.isLocked r = TLShape.isLocked (applyPartialToShape s partial) ∧
       TLShape.props r = TLShape.props s.
Proof.
  intros Hwf. unfold updatedShape, getShape.
  destruct (store ed !! TLShapePartial.id partial) as [s|] eqn:Hs; [|done].
  case_decide; [done|]. intros [= <-]. exists s. split; [done|].
  pose proof (Hwf _ _ Hs) as Hid.
  destruct (onBeforeUpdate s (applyPartialToShape s partial)) as [r|] eqn:Hh; simpl.
  - destruct (Hhooks _ _ _ Hh) as (-> & -> & -> & ->). done.
  - done.
Qed.

Lemma updatedShape_None (ed : Editor) partial s :
  store ed !! TLShapePartial.id partial = Some s →
  updatedShape ed partial = None → applyPartialToShape s partial = s.
Proof.
  intros Hs. unfold updatedShape, getShape. rewrite Hs.
  case_decide; [done|]. discriminate.
Qed.

(** What a record read after [_updateShapes] can be. *)
Lemma _updateShapes_lookup (ed : Editor) partials k r :
  store_wf ed → store (_updateShapes ed partials) !! k = Some r →
  ∃ s, store ed !! k = Some s ∧ TLShape.id r = k ∧ TLShape.props r = TLShape.props s ∧
    (r = s ∨ ∃ partial, partial ∈ partials ∧ TLShapePartial.id partial = k ∧
        TLShape.parentId r = TLShape.parentId (applyPartialToShape s partial) ∧
        TLShape.isLocked r = TLShape.isLocked (applyPartialToShape s partial)).
Proof.
  intros Hwf. unfold _updateShapes. destruct (isReadonly ed).
  { intros Hr. exists r. pose proof (Hwf _ _ Hr). auto. }
  intros Hr. destruct (store_put_lookup _ _ _ _ Hr) as [[Hin Hid]|[_ Hk]].
  - apply list_elem_of_omap in Hin as (partial & Hp & Hu).
    destruct (updatedShape_Some _ _ _ Hwf Hu) as (s & Hs & Hid' & Hpar & Hlock & Hprops).
    assert (TLShapePartial.id partial = k) as <- by congruence.
    exists s. split_and!; [done..|]. right. by exists partial.
  - exists r. pose proof (Hwf _ _ Hk). auto.
Qed.

Lemma _updateShapes_lookup_other (ed : Editor) partials k :
  store_wf ed → (∀ partial, partial ∈ partials → TLShapePartial.id partial ≠ k) →
  store (_updateShapes ed partials) !! k = store ed !! k.
Proof.
  intros Hwf Hno. unfold _updateShapes. destruct (isReadonly ed); [done|].
  apply store_put_lookup_other. intros r (partial & Hp & Hu)%list_elem_of_omap.
  destruct (updatedShape_Some _ _ _ Hwf Hu) as (s & Hs & Hid & _).
  rewrite Hid. by apply Hno.
Qed.

(** A shape named by one of the partials ends up as one of them asks. *)
Lemma _updateShapes_lookup_written (ed : Editor) partials k s partial :
  store_wf ed → isReadonly ed = false →
  store ed !! k = Some s → partial ∈ partials → TLShapePartial.id partial = k →
  ∃ r partial', store (_updateShapes ed partials) !! k = Some r ∧
    partial' ∈ partials ∧ TLShapePartial.id partial' = k ∧
    TLShape.parentId r = TLShape.parentId (applyPartialToShape s partial') ∧
    TLShape.isLocked r = TLShape.isLocked (applyPartialToShape s partial').
Proof.
  intros Hwf Hro Hs Hp Hid.
  assert (is_Some (store (_updateShapes ed partials) !! k)) as [r Hr].
  { unfold _updateShapes. rewrite Hro. apply store_put_is_Some. eauto. }
  exists r. unfold _updateShapes in *. rewrite Hro in *.
  destruct (store_put_lookup _ _ _ _ Hr) as [[Hin Hid']|[Hno Hk]].
  - apply list_elem_of_omap in Hin as (partial' & Hp' & Hu).
    destruct (updatedShape_Some _ _ _ Hwf Hu) as (s' & Hs' & Hid'' & Hpar & Hlock & _).
    assert (TLShapePartial.id partial' = k) as Hk' by congruence.
    rewrite Hk', Hs in Hs'. injection Hs' as <-.
    exists partial'. done.
  - assert (r = s) as -> by congruence.
    exists partial. split_and!; [done..| |].
    + destruct (updatedShape ed partial) as [r0|] eqn:Hu.
      * exfalso. apply (Hno r0).
        -- apply list_elem_of_omap. eauto.
        -- destruct (updatedShape_Some _ _ _ Hwf Hu) as (? & ? & ? & _). congruence.
      * rewrite <- Hid in Hs. by rewrite (updatedShape_None _ _ _ Hs Hu).
    + destruct (updatedShape ed partial) as [r0|] eqn:Hu.
      * exfalso. apply (Hno r0).
        -- apply list_elem_of_omap. eauto.
        -- destruct (updatedShape_Some _ _ _ Hwf Hu) as (? & ? & ? & _). congruence.
      * rewrite <- Hid in Hs. by rewrite (updatedShape_None _ _ _ Hs Hu).
Qed.

Lemma _updateShapes_is_Some (ed : Editor) partials k :
  store_wf ed →
  is_Some (store (_updateShapes ed partials) !! k) ↔ is_Some (store ed !! k).
Proof.
  intros Hwf. split.
  - intros [r Hr]. destruct (_updateShapes_lookup _ _ _ _ Hwf Hr) as (s & Hs & _). eauto.
  - unfold _updateShapes. destruct (isReadonly ed); [done|]. apply store_put_is_Some.
Qed.

Lemma _updateShapes_wf (ed : Editor) partials :
  store_wf ed → store_wf (_updateShapes ed partials).
Proof.
  intros Hwf k r Hr. by destruct (_updateShapes_lookup _ _ _ _ Hwf Hr) as (s & _ & ? & _).
Qed.

Lemma _updateShapes_isReadonly (ed : Editor) partials :
  isReadonly (_updateShapes ed partials) = isReadonly ed.
Proof. unfold _updateShapes. destruct (isReadonly ed) eqn:E; [done|]. by rewrite store_put_readonly. Qed.

End UpdateFacts.

(* ------------------------------------------------------------------ *)
(** ** The walks end in a forest *)

Section WalkFacts.
Context `{MatOps} `{!IndexOps} `{!ShapeUtils}.

Lemma getShapePageTransform_total (ed : Editor) k :
  store_wf ed → Acyclic ed → ∃ m, returns (λ fuel, getShapePageTransform fuel ed k) m.
Proof.
  intros Hwf Hac. destruct (pageTransformCache_terminates ed Hwf k (Hac k)) as (n & r & Hr).
  eexists. exact (getShapePageTransform_returns _ _ _ _ Hr).
Qed.

Lemma getShapeParent_Some (ed : Editor) k s p ps :
  store ed !! k = Some s → TLShape.parentId s = ShapeId p → store ed !! p = Some ps →
  getShapeParent ed (Some k) = Some ps.
Proof. intros Hs Hp Hps. unfold getShapeParent, getShape. by rewrite Hs, Hp. Qed.

Lemma getShapeParent_inv (ed : Editor) k ps :
  getShapeParent ed (Some k) = Some ps →
  ∃ s p, store ed !! k = Some s ∧ TLShape.parentId s = ShapeId p ∧ store ed !! p = Some ps.
Proof.
  unfold getShapeParent, getShape. destruct (store ed !! k) as [s|]; [|done].
  destruct (TLShape.parentId s) as [|p] eqn:Hp; [done|]. intros Hps. by exists s, p.
Qed.

Lemma isShapeOrAncestorLocked_total (ed : Editor) :
  store_wf ed → ∀ k, Acc (λ p c, parent_of ed c p) k →
  ∀ s, store ed !! k = Some s →
  ∃ b, returns (λ fuel, isShapeOrAncestorLocked fuel ed (Some s)) b.
Proof.
  intros Hwf k Hacc. induction Hacc as [k _ IH]. intros s Hs.
  pose proof (Hwf _ _ Hs) as Hid.
  destruct (TLShape.isLocked s) eqn:Hl.
  { exists true, 1. intros [|n] ?; [lia|]. simpl. by rewrite Hl. }
  destruct (getShapeParent ed (Some k)) as [ps|] eqn:Hgp.
  - destruct (getShapeParent_inv _ _ _ Hgp) as (s' & p & Hs' & Hp & Hps).
    assert (s' = s) as -> by congruence.
    destruct (IH p ltac:(by exists s) ps Hps) as [b Hb].
    exists b. eapply returns_step; [|exact Hb].
    intros n. cbn [isShapeOrAncestorLocked]. by rewrite Hl, Hid, Hgp.
  - exists false, 2. intros [|[|n]] ?; try lia.
    cbn [isShapeOrAncestorLocked]. by rewrite Hl, Hid, Hgp.
Qed.

Lemma compactedPartials_total (ed : Editor) partials :
  store_wf ed → Acyclic ed →
  ∃ kept, returns (λ fuel, compactedPartials fuel ed partials) kept ∧
    (∀ p, p ∈ kept → p ∈ partials) ∧
    ((∀ p, p ∈ partials → is_Some (TLShapePartial.isLocked p)) →
     omap (updatedShape ed) kept = omap (updatedShape ed) partials).
Proof.
  intros Hwf Hac. induction partials as [|partial rest IH].
  { exists []. split; [apply returns_ret|]. done. }
  destruct IH as (kept & Hret & Hsub & Hown).
  destruct (store ed !! TLShapePartial.id partial) as [shape|] eqn:Hs.
  - destruct (isShapeOrAncestorLocked_total ed Hwf _ (Hac _) shape Hs) as [b Hb].
    destruct (b && negb (bool_decide (is_Some (TLShapePartial.isLocked partial)))) eqn:Hskip.
    + exists kept. split; [|split].
      * apply (returns_ext (λ fuel,
          locked ← isShapeOrAncestorLocked fuel ed (Some shape);
          if (locked : bool) && negb (bool_decide (is_Some (TLShapePartial.isLocked partial)))
          then compactedPartials fuel ed rest
          else kept ← compactedPartials fuel ed rest; Ret (partial :: kept))).
        { intros n. simpl. by rewrite Hs. }
        eapply (returns_bind _ (λ fuel (locked : bool),
          if locked && negb (bool_decide (is_Some (TLShapePartial.isLocked partial)))
          then compactedPartials fuel ed rest
          else kept ← compactedPartials fuel ed rest; Ret (partial :: kept))); [exact Hb|].
        simpl. by rewrite Hskip.
      * intros p Hp. apply elem_of_cons. auto.
      * intros Hall. exfalso.
        destruct (Hall partial ltac:(apply elem_of_cons; auto)) as [? Hx].
        rewrite Hx in Hskip. rewrite bool_decide_eq_true_2 in Hskip by eauto.
        by rewrite andb_false_r in Hskip.
    + exists (partial :: kept). split; [|split].
      * apply (returns_ext (λ fuel,
          locked ← isShapeOrAncestorLocked fuel ed (Some shape);
          if (locked : bool) && negb (bool_decide (is_Some (TLShapePartial.isLocked partial)))
          then compactedPartials fuel ed rest
          else kept ← compactedPartials fuel ed rest; Ret (partial :: kept))).
        { intros n. simpl. by rewrite Hs. }
        eapply (returns_bind _ (λ fuel (locked : bool),
          if locked && negb (bool_decide (is_Some (TLShapePartial.isLocked partial)))
          then compactedPartials fuel ed rest
          else kept ← compactedPartials fuel ed rest; Ret (partial :: kept))); [exact Hb|].
        simpl. rewrite Hskip.
        eapply (returns_bind _ (λ _ kept, Ret (partial :: kept))); [exact Hret|].
        apply returns_ret.
      * intros p [->|Hp]%elem_of_cons; apply elem_of_cons; auto.
      * intros Hall.
        assert (Hk : omap (updatedShape ed) kept = omap (updatedShape ed) rest).
        { apply Hown. intros p Hp. apply Hall, elem_of_cons. auto. }
        simpl. destruct (updatedShape ed partial); [f_equal|]; exact Hk.
  - exists kept. split; [|split].
    + apply (returns_ext (λ fuel, compactedPartials fuel ed rest)); [|exact Hret].
      intros n. simpl. by rewrite Hs.
    + intros p Hp. apply elem_of_cons. auto.
    + intros Hall.
      assert (Hk : omap (updatedShape ed) kept = omap (updatedShape ed) rest).
      { apply Hown. intros p Hp. apply Hall, elem_of_cons. auto. }
      assert (Hn : updatedShape ed partial = None).
      { unfold updatedShape, getShape. by rewrite Hs. }
      simpl. rewrite Hn. exact Hk.
Qed.

Lemma updateShapes_total (ed : Editor) partials :
  store_wf ed → Acyclic ed →
  ∃ kept, returns (λ fuel, updateShapes fuel ed partials) (_updateShapes ed kept) ∧
    (∀ p, p ∈ kept → p ∈ partials) ∧
    ((∀ p, p ∈ partials → is_Some (TLShapePartial.isLocked p)) →
     _updateShapes ed kept = _updateShapes ed partials).
Proof.
  intros Hwf Hac.
  destruct (compactedPartials_total ed partials Hwf Hac) as (kept & Hret & Hsub & Hown).
  exists kept. split; [|split; [done|]].
  - unfold updateShapes.
    eapply (returns_bind _ (λ _ kept, Ret (_updateShapes ed kept))); [exact Hret|].
    apply returns_ret.
  - intros Hall. unfold _updateShapes. by rewrite (Hown Hall).
Qed.

(** Removing parent links keeps a forest a forest. *)
Lemma Acyclic_incl (ed ed' : Editor) :
  (∀ c p, parent_of ed' c p → parent_of ed c p) → Acyclic ed → Acyclic ed'.
Proof.
  intros Hincl Hac k. induction (Hac k) as [k _ IH].
  constructor. intros p Hp. apply IH. by apply Hincl.
Qed.

End WalkFacts.

(* ------------------------------------------------------------------ *)
(** ** What [reparentShapes] writes *)

Section ReparentFacts.
Context `{MatOps} `{!IndexOps} `{!ShapeUtils}.
Hypothesis Hhooks : hooks_keep_structure.

(** The partial of [shape] in the changes of [reparentShapes]. *)
Definition movesTo (parentId : TLParentId) (shape : TLShape.t)
    (partial : TLShapePartial.t) : Prop :=
  TLShapePartial.id partial = TLShape.id shape ∧
  TLShapePartial.parentId partial = Some parentId ∧
  TLShapePartial.isLocked partial = Some (TLShape.isLocked shape).

Lemma reparentChanges_total (ed : Editor) parentId inv rot indices shapes :
  store_wf ed → Acyclic ed → ∀ i,
  ∃ changes,
    returns (λ fuel, reparentChanges fuel ed parentId inv rot indices i shapes) changes ∧
    Forall2 (movesTo parentId) shapes changes.
Proof.
  intros Hwf Hac. induction shapes as [|shape rest IH]; intros i.
  { exists []. split; [apply returns_ret|constructor]. }
  destruct (getShapePageTransform_total ed (TLShape.id shape) Hwf Hac) as [m Hm].
  destruct (IH (S i)) as (changes & Hret & Hall).
  eexists. split.
  - cbn [reparentChanges].
    eapply (returns_bind _ (λ fuel pageTransform,
      changes ← reparentChanges fuel ed parentId inv rot indices (S i) rest;
      Ret (_ :: changes))); [exact Hm|].
    eapply (returns_bind _ (λ fuel changes, Ret (_ :: changes))); [exact Hret|].
    apply returns_ret.
  - constructor; [|exact Hall]. by split_and!.
Qed.

Lemma unlock_keeps_parents (ed : Editor) (locked : list TLShape.t) c p :
  store_wf ed →
  parent_of (_updateShapes ed (unlockPartial <$> locked)) c p → parent_of ed c p.
Proof.
  intros Hwf (r & Hr & Hp).
  destruct (_updateShapes_lookup Hhooks _ _ _ _ Hwf Hr) as (s & Hs & _ & _ & [->|Hw]).
  - by exists s.
  - destruct Hw as (partial & (sh & -> & _)%list_elem_of_fmap & _ & Hpar & _).
    exists s. split; [done|]. by rewrite <- Hp, Hpar.
Qed.

(** The editor after the unlocking step of [reparentShapes]. *)
Definition afterUnlock (ed : Editor) (ids : list TLShapeId) : Editor :=
  match filter (λ shape, Is_true (TLShape.isLocked shape))
               (omap (λ id, getShape ed (ShapeId id)) ids) with
  | [] => ed
  | lockedShapes => _updateShapes ed (unlockPartial <$> lockedShapes)
  end.

Lemma afterUnlock_wf (ed : Editor) ids : store_wf ed → store_wf (afterUnlock ed ids).
Proof.
  intros Hwf. unfold afterUnlock. destruct (filter _ _); [done|].
  by apply _updateShapes_wf.
Qed.

Lemma afterUnlock_Acyclic (ed : Editor) ids :
  store_wf ed → Acyclic ed → Acyclic (afterUnlock ed ids).
Proof.
  intros Hwf Hac. unfold afterUnlock. destruct (filter _ _) eqn:E; [done|].
  eapply Acyclic_incl; [|exact Hac]. intros c p. by apply unlock_keeps_parents.
Qed.

(** The run of [reparentShapes]: the transform of the new parent, the
    changes of the loop, computed after the unlocking step, and the
    editor after the final [updateShapes]. *)
Lemma reparentShapes_run (ed : Editor) ids parentId insertIndex :
  store_wf ed → Acyclic ed → ids ≠ [] →
  ∃ pt indices changes,
    returns (λ fuel,
      match parentId with
      | PageId _ => Ret Mat_Identity
      | ShapeId parent => getShapePageTransform fuel ed parent
      end) pt ∧
    returns (λ fuel, reparentChanges fuel (afterUnlock ed ids) parentId (Mat_invert pt)
                       (Mat_rotation pt) indices 0
                       (omap (λ id, getShape ed (ShapeId id)) ids)) changes ∧
    returns (λ fuel, reparentShapes fuel ed ids parentId insertIndex)
            (_updateShapes (afterUnlock ed ids) changes) ∧
    Forall2 (movesTo parentId) (omap (λ id, getShape ed (ShapeId id)) ids) changes.
Proof.
  intros Hwf Hac Hne.
  assert (∃ pt, returns (λ fuel,
      match parentId with
      | PageId _ => Ret Mat_Identity
      | ShapeId parent => getShapePageTransform fuel ed parent
      end) pt) as [pt Hpt].
  { destruct parentId as [pg|parent].
    - eexists. apply returns_ret.
    - by apply getShapePageTransform_total. }
  set (shapes := omap (λ id, getShape ed (ShapeId id)) ids).
  set (sibs := omap (λ id, getShape ed (ShapeId id)) (getSortedChildIdsForParent ed parentId)).
  destruct (reparentChanges_total (afterUnlock ed ids) parentId (Mat_invert pt)
              (Mat_rotation pt) (reparentIndices sibs insertIndex (length ids)) shapes
              (afterUnlock_wf _ _ Hwf) (afterUnlock_Acyclic _ _ Hwf Hac) 0)
    as (changes & Hch & Hall).
  exists pt, (reparentIndices sibs insertIndex (length ids)), changes.
  split; [exact Hpt|]. split; [exact Hch|]. split; [|exact Hall].
  destruct ids as [|id0 ids']; [done|].
  unfold reparentShapes.
  eapply (returns_bind _ (λ fuel parentTransform, _)); [exact Hpt|].
  cbv beta. fold shapes. fold sibs.
  assert (Hun : returns (λ fuel,
      match filter (λ shape, Is_true (TLShape.isLocked shape)) shapes with
      | [] => Ret ed
      | _ :: _ => updateShapes fuel ed
                    (unlockPartial <$> filter (λ shape, Is_true (TLShape.isLocked shape)) shapes)
      end) (afterUnlock ed (id0 :: ids'))).
  { unfold afterUnlock. fold shapes.
    destruct (filter (λ shape, Is_true (TLShape.isLocked shape)) shapes) as [|l0 ls] eqn:E.
    - apply returns_ret.
    - destruct (updateShapes_total ed (unlockPartial <$> (l0 :: ls)) Hwf Hac)
        as (kept & Hret & _ & Hown).
      rewrite <- Hown; [exact Hret|].
      intros p (sh & -> & _)%list_elem_of_fmap. simpl. eauto. }
  eapply (returns_bind _ (λ fuel ed1,
    changes ← reparentChanges fuel ed1 parentId (Mat_invert pt) (Mat_rotation pt)
                (reparentIndices sibs insertIndex (length (id0 :: ids'))) 0 shapes;
    updateShapes fuel ed1 changes)); [exact Hun|].
  eapply (returns_bind _ (λ fuel changes,
    updateShapes fuel (afterUnlock ed (id0 :: ids')) changes)); [exact Hch|].
  destruct (updateShapes_total (afterUnlock ed (id0 :: ids')) changes
              (afterUnlock_wf _ _ Hwf) (afterUnlock_Acyclic _ _ Hwf Hac))
    as (kept & Hret & _ & Hown).
  rewrite <- Hown; [exact Hret|].
  intros p Hp. apply list_elem_of_lookup in Hp as [j Hj].
  destruct (Forall2_lookup_r _ _ _ _ _ Hall Hj) as (sh & _ & _ & _ & Hl). eauto.
Qed.

Lemma reparentShapes_total (ed : Editor) ids parentId insertIndex :
  store_wf ed → Acyclic ed → ids ≠ [] →
  ∃ changes,
    returns (λ fuel, reparentShapes fuel ed ids parentId insertIndex)
            (_updateShapes (afterUnlock ed ids) changes) ∧
    Forall2 (movesTo parentId) (omap (λ id, getShape ed (ShapeId id)) ids) changes.
Proof.
  intros Hwf Hac Hne.
  destruct (reparentShapes_run ed ids parentId insertIndex Hwf Hac Hne)
    as (pt & indices & changes & _ & _ & Hret & Hall).
  by exists changes.
Qed.

End ReparentFacts.

Section ReparentEffect.
Context `{MatOps} `{!IndexOps} `{!ShapeUtils}.
Hypothesis Hhooks : hooks_keep_structure.

Lemma fresh_shapes_elem (ed : Editor) (ids : list TLShapeId) shape :
  store_wf ed →
  shape ∈ omap (λ id, getShape ed (ShapeId id)) ids ↔
  TLShape.id shape ∈ ids ∧ store ed !! TLShape.id shape = Some shape.
Proof.
  intros Hwf. rewrite list_elem_of_omap. simpl. split.
  - intros (id & Hin & Hs). by rewrite (Hwf _ _ Hs).
  - intros [Hin Hs]. eauto.
Qed.

Lemma afterUnlock_isReadonly (ed : Editor) (ids : list TLShapeId) :
  isReadonly (afterUnlock ed ids) = isReadonly ed.
Proof.
  unfold afterUnlock. destruct (filter _ _); [done|]. apply _updateShapes_isReadonly.
Qed.

Lemma afterUnlock_lookup (ed : Editor) (ids : list TLShapeId) k :
  store_wf ed →
  match store ed !! k with
  | None => store (afterUnlock ed ids) !! k = None
  | Some s =>
    ∃ s1, store (afterUnlock ed ids) !! k = Some s1 ∧
      TLShape.props s1 = TLShape.props s ∧
      (k ∉ ids ∨ isReadonly ed = true → s1 = s)
  end.
Proof.
  intros Hwf. unfold afterUnlock.
  destruct (filter _ _) as [|l0 ls] eqn:E.
  { destruct (store ed !! k); eauto. }
  rewrite <- E. clear E l0 ls.
  set (partials := unlockPartial <$> _).
  destruct (store ed !! k) as [s|] eqn:Hs.
  - destruct (proj2 (_updateShapes_is_Some Hhooks ed partials k Hwf)) as [s1 Hs1]; [eauto|].
    exists s1. split; [done|].
    destruct (_updateShapes_lookup Hhooks _ _ _ _ Hwf Hs1) as (s' & Hs' & _ & Hprops & _).
    assert (s' = s) as -> by congruence. split; [done|].
    intros [Hnot|Hro].
    + rewrite _updateShapes_lookup_other in Hs1; [congruence|done..|].
      intros partial (sh & -> & [_ Hsh]%list_elem_of_filter)%list_elem_of_fmap. simpl.
      apply (fresh_shapes_elem _ _ _ Hwf) in Hsh as [Hin _]. congruence.
    + unfold _updateShapes in Hs1. rewrite Hro in Hs1. congruence.
  - destruct (store (_updateShapes ed partials) !! k) eqn:Hs1; [|done].
    destruct (proj1 (_updateShapes_is_Some Hhooks ed partials k Hwf)) as [? ?]; [eauto|].
    congruence.
Qed.

(** The record of every shape after the two writes of [reparentShapes]. *)
Lemma reparentShapes_lookup (ed : Editor) (ids : list TLShapeId) parentId changes k :
  store_wf ed →
  Forall2 (movesTo parentId) (omap (λ id, getShape ed (ShapeId id)) ids) changes →
  match store ed !! k with
  | None => store (_updateShapes (afterUnlock ed ids) changes) !! k = None
  | Some s =>
    ∃ r, store (_updateShapes (afterUnlock ed ids) changes) !! k = Some r ∧
      TLShape.id r = k ∧
      TLShape.isLocked r = TLShape.isLocked s ∧
      TLShape.props r = TLShape.props s ∧
      if decide (k ∈ ids ∧ isReadonly ed = false)
      then TLShape.parentId r = parentId
      else r = s
  end.
Proof.
  intros Hwf Hall.
  pose proof (afterUnlock_wf Hhooks ed ids Hwf) as Hwf1.
  pose proof (afterUnlock_lookup ed ids k Hwf) as Hun.
  set (ed1 := afterUnlock ed ids) in *.
  assert (Hch : ∀ partial, partial ∈ changes →
    ∃ shape, TLShape.id shape ∈ ids ∧ store ed !! TLShape.id shape = Some shape ∧
             movesTo parentId shape partial).
  { intros partial [j Hj]%list_elem_of_lookup.
    destruct (Forall2_lookup_r _ _ _ _ _ Hall Hj) as (shape & Hsh & Hm).
    exists shape. apply list_elem_of_lookup_2 in Hsh.
    apply (fresh_shapes_elem _ _ _ Hwf) in Hsh as [? ?]. done. }
  destruct (store ed !! k) as [s|] eqn:Hs.
  - destruct Hun as (s1 & Hs1 & Hprops1 & Hsame).
    destruct (proj2 (_updateShapes_is_Some Hhooks ed1 changes k Hwf1)) as [r Hr]; [eauto|].
    exists r. split; [done|].
    destruct (_updateShapes_lookup Hhooks _ _ _ _ Hwf1 Hr) as (s' & Hs' & Hid & Hprops & _).
    assert (s' = s1) as -> by congruence.
    case_decide as Hmoved.
    + destruct Hmoved as [Hin Hro].
      assert (s ∈ omap (λ id, getShape ed (ShapeId id)) ids) as [j Hj]%list_elem_of_lookup.
      { apply (fresh_shapes_elem _ _ _ Hwf). rewrite (Hwf _ _ Hs). done. }
      destruct (Forall2_lookup_l _ _ _ _ _ Hall Hj) as (partial & Hp & Hpid & _).
      apply list_elem_of_lookup_2 in Hp.
      destruct (_updateShapes_lookup_written Hhooks ed1 changes k s1 partial Hwf1)
        as (r' & partial' & Hr' & Hp' & Hpid' & Hpar & Hlock); [| done..| |].
      { unfold ed1. by rewrite afterUnlock_isReadonly. }
      { rewrite Hpid. exact (Hwf _ _ Hs). }
      assert (r' = r) as -> by congruence.
      destruct (Hch _ Hp') as (shape & _ & Hshape & Hpid'' & Hppar & Hplock).
      assert (shape = s) as -> by congruence.
      split_and!; [done| |congruence|].
      * rewrite Hlock. simpl. by rewrite Hplock.
      * rewrite Hpar. simpl. by rewrite Hppar.
    + assert (Hkeep : store (_updateShapes ed1 changes) !! k = store ed1 !! k).
      { destruct (decide (k ∈ ids)) as [Hin|Hnin].
        - assert (isReadonly ed1 = true) as Hro.
          { unfold ed1. rewrite afterUnlock_isReadonly.
            destruct (isReadonly ed); [done|]. exfalso. by apply Hmoved. }
          unfold _updateShapes. by rewrite Hro.
        - apply (_updateShapes_lookup_other Hhooks); [done|].
          intros partial Hp. destruct (Hch _ Hp) as (shape & Hin & _ & Hpid & _). congruence. }
      assert (r = s1) as -> by congruence.
      assert (s1 = s) as ->.
      { apply Hsame. destruct (decide (k ∈ ids)); [|by left].
        right. destruct (isReadonly ed); [done|]. exfalso. by apply Hmoved. }
      done.
  - destruct (store (_updateShapes ed1 changes) !! k) eqn:Hr; [|done].
    destruct (proj1 (_updateShapes_is_Some Hhooks ed1 changes k Hwf1)) as [? ?]; [eauto|].
    congruence.
Qed.


End ReparentEffect.

(* ------------------------------------------------------------------ *)
(** ** Ancestors *)

Section AncestorFacts.
Context `{Scalar}.

Lemma parent_of_fun (ed : Editor) a p q : parent_of ed a p → parent_of ed a q → p = q.
Proof. intros (s & Hs & Hp) (s' & Hs' & Hq). congruence. Qed.

Lemma tc_parent_inv (ed : Editor) a c :
  tc (parent_of ed) a c →
  ∃ s p, store ed !! a = Some s ∧ TLShape.parentId s = ShapeId p ∧
         (p = c ∨ tc (parent_of ed) p c).
Proof.
  inversion 1 as [? ? (s & Hs & Hp)|? y ? (s & Hs & Hp) Hyc]; subst; exists s; eauto.
Qed.

Lemma tc_parent_has_record (ed : Editor) a c :
  tc (parent_of ed) a c → is_Some (store ed !! a).
Proof. intros (s & p & Hs & _)%tc_parent_inv. eauto. Qed.

(** [hasAncestor] decides the transitive closure of the parent links. *)
Lemma hasAncestor_sound (ed : Editor) :
  store_wf ed → ∀ n a c b, hasAncestor n ed (Some a) c = Ret b →
  if b then tc (parent_of ed) a c else ¬ tc (parent_of ed) a c.
Proof.
  intros Hwf. induction n as [|n IH]; intros a c b Hb; [done|].
  cbn [hasAncestor] in Hb. simpl in Hb.
  destruct (store ed !! a) as [s|] eqn:Hs.
  - pose proof (Hwf _ _ Hs) as Hid. simpl in Hid. case_decide as Hp.
    + injection Hb as <-. apply tc_once. by exists s.
    + rewrite Hid, Hs in Hb.
      destruct (TLShape.parentId s) as [pg|q] eqn:Hq.
      * destruct n; [done|]. injection Hb as <-.
        intros (s' & p & Hs' & Hp' & _)%tc_parent_inv. congruence.
      * destruct (store ed !! q) as [ps|] eqn:Hps; simpl in Hb.
        -- rewrite (Hwf _ _ Hps) in Hb. specialize (IH _ _ _ Hb). destruct b.
           ++ eapply tc_l; [|exact IH]. by exists s.
           ++ intros (s' & p & Hs' & Hp' & [->|Htc])%tc_parent_inv.
              ** apply Hp. congruence.
              ** apply IH. congruence.
        -- destruct n; [done|]. injection Hb as <-.
           intros (s' & p & Hs' & Hp' & [->|Htc])%tc_parent_inv.
           ++ apply Hp. congruence.
           ++ apply tc_parent_has_record in Htc as [? ?]. congruence.
  - injection Hb as <-. intros [? ?]%tc_parent_has_record. congruence.
Qed.

Lemma hasAncestor_total (ed : Editor) c :
  store_wf ed → ∀ a, Acc (λ p c, parent_of ed c p) a →
  ∃ b, returns (λ fuel, hasAncestor fuel ed (Some a) c) b.
Proof.
  intros Hwf a Hacc. induction Hacc as [a _ IH].
  destruct (store ed !! a) as [s|] eqn:Hs.
  - pose proof (Hwf _ _ Hs) as Hid.
    destruct (decide (TLShape.parentId s = ShapeId c)) as [Hp|Hp].
    { exists true, 1. intros [|n] ?; [lia|]. cbn [hasAncestor]. simpl.
      rewrite Hs. by rewrite decide_True. }
    destruct (TLShape.parentId s) as [pg|q] eqn:Hq.
    + exists false, 2. intros [|[|n]] ?; try lia. cbn [hasAncestor]. simpl.
      rewrite Hs, Hq, Hid, Hs, Hq. by rewrite decide_False.
    + destruct (store ed !! q) as [ps|] eqn:Hps.
      * destruct (IH q ltac:(by exists s)) as [b Hb]. exists b.
        eapply returns_step; [|exact Hb]. intros n. cbn [hasAncestor]. simpl.
        rewrite Hs, Hq, Hid, Hs, Hq, Hps. rewrite decide_False by done. simpl.
        by rewrite (Hwf _ _ Hps).
      * exists false, 2. intros [|[|n]] ?; try lia. cbn [hasAncestor]. simpl.
        rewrite Hs, Hq, Hid, Hs, Hq, Hps. by rewrite decide_False.
  - exists false, 1. intros [|n] ?; [lia|]. cbn [hasAncestor]. simpl. by rewrite Hs.
Qed.

(** Re-parenting shapes under [q] keeps the forest when [q] is none of
    them and has none of them above it. *)
Lemma Acyclic_reparent (ed ed' : Editor) (ids : list TLShapeId) q :
  Acyclic ed →
  (∀ c p, parent_of ed' c p → parent_of ed c p ∨ (c ∈ ids ∧ p = q)) →
  (∀ id, id ∈ ids → id ≠ q ∧ ¬ tc (parent_of ed) q id) →
  Acyclic ed'.
Proof.
  intros Hac Hstep Hout.
  assert (Hup : ∀ k, rtc (parent_of ed) q k → Acc (λ p c, parent_of ed' c p) k).
  { intros k. induction (Hac k) as [k _ IH]. intros Hqk.
    constructor. intros y Hy. destruct (Hstep _ _ Hy) as [Hold|[Hin ->]].
    - apply IH; [done|]. eapply rtc_r; eauto.
    - exfalso. destruct (Hout _ Hin) as [Hne Hntc].
      apply rtc_tc in Hqk as [->|Htc]; auto. }
  intros k. induction (Hac k) as [k _ IH].
  constructor. intros y Hy. destruct (Hstep _ _ Hy) as [Hold|[Hin ->]].
  - by apply IH.
  - apply Hup. apply rtc_refl.
Qed.

End AncestorFacts.

Section ReparentForest.
Context `{MatOps} `{!IndexOps} `{!ShapeUtils}.
Hypothesis Hhooks : hooks_keep_structure.

Lemma reparentShapes_parent_links (ed : Editor) (ids : list TLShapeId) parentId changes c p :
  store_wf ed →
  Forall2 (movesTo parentId) (omap (λ id, getShape ed (ShapeId id)) ids) changes →
  parent_of (_updateShapes (afterUnlock ed ids) changes) c p →
  parent_of ed c p ∨ (c ∈ ids ∧ parentId = ShapeId p).
Proof.
  intros Hwf Hall (r & Hr & Hp).
  pose proof (reparentShapes_lookup Hhooks ed ids parentId changes c Hwf Hall) as Hc.
  destruct (store ed !! c) as [s|] eqn:Hs; [|congruence].
  destruct Hc as (r' & Hr' & _ & _ & _ & Hpar). assert (r' = r) as -> by congruence.
  case_decide as Hd.
  - right. split; [by destruct Hd|congruence].
  - subst r. left. by exists s.
Qed.

(** Everything the later proofs need to know about a call of
    [reparentShapes] whose new parent lies outside the moved subtrees. *)
Lemma reparentShapes_effect (ed : Editor) (ids : list TLShapeId)
    (parentId : TLParentId) (insertIndex : option IndexKey) :
  store_wf ed → Acyclic ed →
  (∀ q, parentId = ShapeId q → ∀ id, id ∈ ids →
     id ≠ q ∧ ¬ tc (parent_of ed) q id) →
  ∃ ed', returns (λ fuel, reparentShapes fuel ed ids parentId insertIndex) ed' ∧
    store_wf ed' ∧ Acyclic ed' ∧ isReadonly ed' = isReadonly ed ∧
    ∀ k,
      match store ed !! k with
      | None => store ed' !! k = None
      | Some s =>
        ∃ r, store ed' !! k = Some r ∧
          TLShape.id r = k ∧
          TLShape.isLocked r = TLShape.isLocked s ∧
          TLShape.props r = TLShape.props s ∧
          if decide (k ∈ ids ∧ isReadonly ed = false)
          then TLShape.parentId r = parentId
          else r = s
      end.
Proof.
  intros Hwf Hac Hout. destruct ids as [|id0 ids'].
  { exists ed. split; [apply returns_ret|]. split_and!; [done..|].
    intros k. destruct (store ed !! k) as [s|] eqn:Hs; [|done].
    exists s. pose proof (Hwf _ _ Hs). split_and!; [done..|].
    case_decide as Hd; [|done]. by destruct Hd as [?%elem_of_nil _]. }
  destruct (reparentShapes_total Hhooks ed (id0 :: ids') parentId insertIndex Hwf Hac)
    as (changes & Hret & Hall); [done|].
  eexists. split; [exact Hret|]. split_and!.
  - apply (_updateShapes_wf Hhooks), (afterUnlock_wf Hhooks), Hwf.
  - pose proof (reparentShapes_parent_links ed (id0 :: ids') parentId changes) as Hlinks.
    destruct parentId as [pg|q].
    + eapply Acyclic_incl; [|exact Hac]. intros c p Hcp.
      destruct (Hlinks c p Hwf Hall Hcp) as [?|[_ ?]]; [done|discriminate].
    + eapply (Acyclic_reparent ed _ (id0 :: ids') q Hac).
      * intros c p Hcp. destruct (Hlinks c p Hwf Hall Hcp) as [?|[? [= ->]]]; auto.
      * intros id Hin. exact (Hout q eq_refl id Hin).
  - by rewrite _updateShapes_isReadonly, afterUnlock_isReadonly.
  - intros k. apply (reparentShapes_lookup Hhooks); done.
Qed.


End ReparentForest.

(* ------------------------------------------------------------------ *)
(** ** Where [reparentShapes] puts the moved shapes *)

Section PlacementFacts.
Context `{MatOps} `{!IndexOps} `{!ShapeUtils}.
Hypothesis Hhooks : hooks_keep_structure.
Hypothesis Hplace : hooks_keep_placement.

(** Two records with the same parent and the same place in its space. *)
Definition samePlacement (a b : TLShape.t) : Prop :=
  TLShape.parentId a = TLShape.parentId b ∧ TLShape.x a = TLShape.x b ∧
  TLShape.y a = TLShape.y b ∧ TLShape.rotation a = TLShape.rotation b.

Lemma samePlacement_refl (a : TLShape.t) : samePlacement a a.
Proof. by split_and!. Qed.

Lemma localTransformOf_samePlacement (a b : TLShape.t) :
  samePlacement a b → localTransformOf a = localTransformOf b.
Proof. unfold localTransformOf. by intros (_ & -> & -> & ->). Qed.

(** The page transforms of two editors agree on a set of shapes that is
    closed under parents and on which the records have the same
    placement. *)
Lemma pageTransform_agree (ed_a ed_b : Editor) (S : TLShapeId → Prop) :
  store_wf ed_a → store_wf ed_b →
  (∀ k, S k →
     match store ed_a !! k, store ed_b !! k with
     | Some a, Some b => samePlacement a b ∧ ∀ p, TLShape.parentId a = ShapeId p → S p
     | None, None => True
     | _, _ => False
     end) →
  ∀ fuel k, S k →
    _getShapePageTransformCache fuel ed_a k = _getShapePageTransformCache fuel ed_b k.
Proof.
  intros Hwa Hwb Hag. induction fuel as [|fuel IH]; intros k Hk; [done|].
  cbn [_getShapePageTransformCache]. specialize (Hag k Hk).
  destruct (store ed_a !! k) as [a|] eqn:Ha, (store ed_b !! k) as [b|] eqn:Hb; try done.
  destruct Hag as [Hsame Hclosed].
  rewrite (getShapeLocalTransform_wf _ _ _ Hwa Ha), (getShapeLocalTransform_wf _ _ _ Hwb Hb).
  rewrite <- (localTransformOf_samePlacement a b Hsame).
  destruct Hsame as (Hp & _). rewrite <- Hp.
  destruct (TLShape.parentId a) as [pg|p]; [done|]. rewrite (IH p); [done|]. by apply Hclosed.
Qed.

Lemma updatedShape_placement (ed : Editor) partial r :
  updatedShape ed partial = Some r →
  ∃ s, store ed !! TLShapePartial.id partial = Some s ∧
       samePlacement r (applyPartialToShape s partial).
Proof.
  unfold updatedShape, getShape.
  destruct (store ed !! TLShapePartial.id partial) as [s|] eqn:Hs; [|done].
  case_decide; [done|]. intros [= <-]. exists s. split; [done|].
  destruct (onBeforeUpdate s (applyPartialToShape s partial)) as [r|] eqn:Hh.
  - destruct (Hhooks _ _ _ Hh) as (_ & Hp & _). destruct (Hplace _ _ _ Hh) as (Hx & Hy & Hr).
    cbn [default]. by split_and!.
  - apply samePlacement_refl.
Qed.

(** The placement of a record read after [_updateShapes]. *)
Lemma _updateShapes_placement (ed : Editor) partials k r :
  store_wf ed → store (_updateShapes ed partials) !! k = Some r →
  ∃ s, store ed !! k = Some s ∧
    (r = s ∨ ∃ partial, partial ∈ partials ∧ TLShapePartial.id partial = k ∧
                samePlacement r (applyPartialToShape s partial)).
Proof.
  intros Hwf. unfold _updateShapes. destruct (isReadonly ed).
  { intros Hr. exists r. auto. }
  intros Hr. destruct (store_put_lookup _ _ _ _ Hr) as [[Hin Hid]|[_ Hk]].
  - apply list_elem_of_omap in Hin as (partial & Hp & Hu).
    destruct (updatedShape_Some Hhooks _ _ _ Hwf Hu) as (s & Hs & Hid' & _).
    destruct (updatedShape_placement _ _ _ Hu) as (s' & Hs' & Hsame).
    assert (s' = s) as -> by congruence.
    assert (TLShapePartial.id partial = k) as <- by congruence.
    exists s. split; [done|]. right. by exists partial.
  - exists r. auto.
Qed.

(** A shape named by one of the partials is placed as one of them asks. *)
Lemma _updateShapes_written (ed : Editor) partials k s partial :
  store_wf ed → isReadonly ed = false →
  store ed !! k = Some s → partial ∈ partials → TLShapePartial.id partial = k →
  ∃ r partial', store (_updateShapes ed partials) !! k = Some r ∧
    partial' ∈ partials ∧ TLShapePartial.id partial' = k ∧
    samePlacement r (applyPartialToShape s partial').
Proof.
  intros Hwf Hro Hs Hp Hid.
  assert (is_Some (store (_updateShapes ed partials) !! k)) as [r Hr].
  { unfold _updateShapes. rewrite Hro. apply store_put_is_Some. eauto. }
  exists r. unfold _updateShapes in *. rewrite Hro in *.
  destruct (store_put_lookup _ _ _ _ Hr) as [[Hin Hid']|[Hno Hk]].
  - apply list_elem_of_omap in Hin as (partial' & Hp' & Hu).
    destruct (updatedShape_placement _ _ _ Hu) as (s' & Hs' & Hsame).
    destruct (updatedShape_Some Hhooks _ _ _ Hwf Hu) as (s'' & _ & Hid'' & _).
    assert (TLShapePartial.id partial' = k) as Hk' by congruence.
    rewrite Hk', Hs in Hs'. injection Hs' as <-.
    by exists partial'.
  - assert (r = s) as -> by congruence.
    exists partial. split_and!; [done..|].
    destruct (updatedShape ed partial) as [r0|] eqn:Hu.
    + exfalso. apply (Hno r0).
      * apply list_elem_of_omap. eauto.
      * destruct (updatedShape_Some Hhooks _ _ _ Hwf Hu) as (? & ? & ? & _). congruence.
    + rewrite <- Hid in Hs. rewrite (updatedShape_None _ _ _ Hs Hu). apply samePlacement_refl.
Qed.

(** The placement the loop of [reparentShapes] computes for [shape],
    with [pt] the page transform of the new parent. *)
Definition placedBy (ed : Editor) (pt : Mat) (shape : TLShape.t)
    (partial : TLShapePartial.t) : Prop :=
  ∃ T, returns (λ fuel, getShapePageTransform fuel ed (TLShape.id shape)) T ∧
    TLShapePartial.x partial = Some (Vec.x (Mat_applyToPoint (Mat_invert pt) (Mat_point T))) ∧
    TLShapePartial.y partial = Some (Vec.y (Mat_applyToPoint (Mat_invert pt) (Mat_point T))) ∧
    TLShapePartial.rotation partial = Some (num_sub (Mat_rotation T) (Mat_rotation pt)).

Lemma reparentChanges_placed (ed : Editor) parentId pt indices shapes :
  store_wf ed → Acyclic ed → ∀ i changes,
  returns (λ fuel, reparentChanges fuel ed parentId (Mat_invert pt) (Mat_rotation pt)
                     indices i shapes) changes →
  Forall2 (placedBy ed pt) shapes changes.
Proof.
  intros Hwf Hac. induction shapes as [|shape rest IH]; intros i changes Hret.
  { rewrite (returns_unique _ _ _ Hret (returns_ret [])). constructor. }
  destruct (getShapePageTransform_total ed (TLShape.id shape) Hwf Hac) as [m Hm].
  destruct (reparentChanges_total ed parentId (Mat_invert pt) (Mat_rotation pt) indices rest
              Hwf Hac (S i)) as (changes' & Hret' & _).
  assert (Hall : returns (λ fuel, reparentChanges fuel ed parentId (Mat_invert pt)
                                    (Mat_rotation pt) indices i (shape :: rest))
                   ({| TLShapePartial.id := TLShape.id shape;
                       TLShapePartial.type := TLShape.type shape;
                       TLShapePartial.parentId := Some parentId;
                       TLShapePartial.x :=
                         Some (Vec.x (Mat_applyToPoint (Mat_invert pt) (Mat_point m)));
                       TLShapePartial.y :=
                         Some (Vec.y (Mat_applyToPoint (Mat_invert pt) (Mat_point m)));
                       TLShapePartial.rotation :=
                         Some (num_sub (Mat_rotation m) (Mat_rotation pt));
                       TLShapePartial.index := indices !! i;
                       TLShapePartial.isLocked := Some (TLShape.isLocked shape) |}
                    :: changes')).
  { cbn [reparentChanges].
    eapply (returns_bind _ (λ fuel pageTransform,
      changes ← reparentChanges fuel ed parentId (Mat_invert pt) (Mat_rotation pt)
                  indices (S i) rest;
      Ret (_ :: changes))); [exact Hm|].
    eapply (returns_bind _ (λ fuel changes, Ret (_ :: changes))); [exact Hret'|].
    apply returns_ret. }
  rewrite (returns_unique _ _ _ Hret Hall). constructor.
  - exists m. by split_and!.
  - by apply (IH (S i)).
Qed.

(** The unlocking step moves nothing. *)
Lemma afterUnlock_placement (ed : Editor) (ids : list TLShapeId) k :
  store_wf ed →
  match store (afterUnlock ed ids) !! k, store ed !! k with
  | Some s1, Some s => samePlacement s1 s
  | None, None => True
  | _, _ => False
  end.
Proof.
  intros Hwf. pose proof (afterUnlock_lookup Hhooks ed ids k Hwf) as Hun.
  destruct (store ed !! k) as [s|] eqn:Hs.
  - destruct Hun as (s1 & Hs1 & _). rewrite Hs1.
    unfold afterUnlock in Hs1. destruct (filter _ _) as [|l0 ls].
    { assert (s1 = s) as -> by congruence. apply samePlacement_refl. }
    destruct (_updateShapes_placement _ _ _ _ Hwf Hs1) as (s' & Hs' & Hcase).
    assert (s' = s) as -> by congruence.
    destruct Hcase as [->|(partial & (sh & -> & _)%list_elem_of_fmap & _ & Hsame)];
      [apply samePlacement_refl|exact Hsame].
  - by rewrite Hun.
Qed.

Lemma afterUnlock_pageTransform (ed : Editor) (ids : list TLShapeId) fuel k :
  store_wf ed →
  getShapePageTransform fuel (afterUnlock ed ids) k = getShapePageTransform fuel ed k.
Proof.
  intros Hwf. unfold getShapePageTransform.
  rewrite (pageTransform_agree (afterUnlock ed ids) ed (λ _, True)); [done| | | |done].
  - by apply (afterUnlock_wf Hhooks).
  - done.
  - intros k' _. pose proof (afterUnlock_placement ed ids k' Hwf) as Hk'.
    destruct (store (afterUnlock ed ids) !! k'), (store ed !! k'); done.
Qed.

Lemma tc_parent_unlock (ed : Editor) (ids : list TLShapeId) a c :
  store_wf ed → tc (parent_of (afterUnlock ed ids)) a c → tc (parent_of ed) a c.
Proof.
  intros Hwf. assert (Hstep : ∀ x y, parent_of (afterUnlock ed ids) x y → parent_of ed x y).
  { intros x y. unfold afterUnlock. destruct (filter _ _); [done|].
    by apply (unlock_keeps_parents Hhooks). }
  induction 1 as [x y Hxy|x y z Hxy _ IH].
  - apply tc_once. by apply Hstep.
  - eapply tc_l; [apply Hstep, Hxy|exact IH].
Qed.


(** On a cycle of two shapes the page transform is never computed. *)
Lemma pageTransform_cycle_diverges (ed : Editor) a b sa sb :
  store ed !! a = Some sa → TLShape.parentId sa = ShapeId b →
  store ed !! b = Some sb → TLShape.parentId sb = ShapeId a →
  ∀ fuel, _getShapePageTransformCache fuel ed a = Diverge ∧
          _getShapePageTransformCache fuel ed b = Diverge.
Proof.
  intros Ha Hpa Hb Hpb. induction fuel as [|fuel [IHa IHb]]; [done|].
  cbn [_getShapePageTransformCache]. rewrite Ha, Hpa, Hb, Hpb, IHa, IHb. done.
Qed.

(** ... and a move of a shape whose page transform is never computed
    never completes. *)
Lemma reparentShapes_diverges (ed : Editor) k s parentId insertIndex fuel :
  store ed !! k = Some s → TLShape.id s = k → TLShape.isLocked s = false →
  (∀ n, _getShapePageTransformCache n ed k = Diverge) →
  (∃ pt, (match parentId with
          | PageId _ => Ret Mat_Identity
          | ShapeId parent => getShapePageTransform fuel ed parent
          end) = Ret pt) →
  reparentShapes fuel ed [k] parentId insertIndex = Diverge.
Proof.
  intros Hs Hid Hlock Hdiv [pt Hpt]. unfold reparentShapes. rewrite Hpt.
  cbn [mbind outcome_bind omap list_omap getShape]. rewrite Hs.
  cbn [omap list_omap]. rewrite filter_cons, filter_nil.
  destruct (decide (Is_true (TLShape.isLocked s))) as [Hl|_].
  { rewrite Hlock in Hl. done. }
  cbn [mbind outcome_bind reparentChanges]. unfold getShapePageTransform at 1.
  rewrite Hid, Hdiv. done.
Qed.

End PlacementFacts.

(* ------------------------------------------------------------------ *)
(** ** The common ancestor *)

Section CommonAncestorFacts.
Context `{Scalar}.

Lemma findShapeAncestor_total (ed : Editor) predicate :
  store_wf ed → ∀ k, Acc (λ p c, parent_of ed c p) k →
  ∃ r, returns (λ fuel, findShapeAncestor fuel ed k predicate) r.
Proof.
  intros Hwf k Hacc. induction Hacc as [k _ IH].
  destruct (store ed !! k) as [s|] eqn:Hs.
  - destruct (TLShape.parentId s) as [pg|q] eqn:Hq.
    + exists None, 1. intros [|n] ?; [lia|]. simpl. by rewrite Hs, Hq.
    + destruct (store ed !! q) as [ps|] eqn:Hps.
      * destruct (predicate ps) eqn:Hpred.
        -- exists (Some ps), 1. intros [|n] ?; [lia|]. simpl. by rewrite Hs, Hq, Hps, Hpred.
        -- destruct (IH q ltac:(by exists s)) as [r Hr]. exists r.
           eapply returns_step; [|exact Hr]. intros n. simpl.
           by rewrite Hs, Hq, Hps, Hpred, (Hwf _ _ Hps).
      * exists None, 1. intros [|n] ?; [lia|]. simpl. by rewrite Hs, Hq, Hps.
  - exists None, 1. intros [|n] ?; [lia|]. simpl. by rewrite Hs.
Qed.

(** The loop of [findCommonAncestor], started at an ancestor [x] of [a]
    below which no common ancestor of [a] and [b] lies. *)
Lemma findCommonAncestor_loop_spec (ed : Editor) a b sb :
  store_wf ed → Acyclic ed → store ed !! b = Some sb →
  ∀ x, Acc (λ p c, parent_of ed c p) x →
  ∀ sx, store ed !! x = Some sx → tc (parent_of ed) a x →
  (∀ c', commonAncestor ed a b c' → rtc (parent_of ed) x c') →
  ∃ r, returns (λ fuel, findCommonAncestor_loop fuel ed (Some sx) [sb] None) r ∧
    match r with
    | Some c => lowestCommonAncestor ed a b c
    | None => ∀ c', ¬ commonAncestor ed a b c'
    end.
Proof.
  intros Hwf Hac Hsb x Hacc. induction Hacc as [x _ IH]. intros sx Hsx Hax Hlow.
  pose proof (Hwf _ _ Hsx) as Hidx. pose proof (Hwf _ _ Hsb) as Hidb. simpl in Hidx, Hidb.
  destruct (hasAncestor_total ed x Hwf b (Hac b)) as [hb Hhb].
  assert (Hev : returns (λ fuel, every_hasAncestor fuel ed [sb] (TLShape.id sx)) hb).
  { cbn [every_hasAncestor]. rewrite Hidx, Hidb.
    eapply returns_bind; [exact Hhb|]. destruct hb; apply returns_ret. }
  pose proof Hhb as [n Hn].
  pose proof (hasAncestor_sound ed Hwf n b x hb (Hn n ltac:(lia))) as Hsound.
  destruct hb.
  - exists (Some x). split.
    + eapply returns_step.
      { intros fuel. cbn [findCommonAncestor_loop negb from_option]. reflexivity. }
      eapply returns_bind; [exact Hev|]. cbv beta iota. rewrite Hidx. apply returns_ret.
    + split; [split_and!; eauto|].
      intros c' Hc'. pose proof (Hlow _ Hc') as Hr'.
      apply rtc_tc in Hr' as [<-|?]; auto.
  - assert (Hup : ∀ c', commonAncestor ed a b c' → tc (parent_of ed) x c').
    { intros c' Hc'. pose proof (Hlow _ Hc') as Hr'.
      apply rtc_tc in Hr' as [<-|?]; [|done].
      destruct Hc' as (_ & _ & ?). done. }
    destruct (getShapeParent ed (Some x)) as [ps|] eqn:Hgp.
    + destruct (getShapeParent_inv _ _ _ Hgp) as (s' & p & Hs' & Hp & Hps).
      assert (s' = sx) as -> by congruence.
      assert (Hxp : parent_of ed x p) by (by exists sx).
      destruct (IH p Hxp ps Hps) as (r & Hr & Hspec).
      { eapply tc_r; eauto. }
      { intros c' Hc'. destruct (tc_parent_inv _ _ _ (Hup _ Hc')) as (s2 & p' & Hs2 & Hp' & Hor).
        assert (p' = p) as -> by congruence.
        destruct Hor as [->|?]; [apply rtc_refl|by apply tc_rtc]. }
      exists r. split; [|exact Hspec].
      eapply returns_step.
      { intros fuel. cbn [findCommonAncestor_loop negb from_option]. reflexivity. }
      eapply returns_bind; [exact Hev|]. cbv beta iota. rewrite Hidx, Hgp. exact Hr.
    + exists None. split.
      * eapply returns_step.
        { intros fuel. cbn [findCommonAncestor_loop negb from_option]. reflexivity. }
        eapply returns_bind; [exact Hev|]. cbv beta iota. rewrite Hidx, Hgp.
        exists 1. intros [|m] ?; [lia|]. done.
      * intros c' Hc'. destruct (tc_parent_inv _ _ _ (Hup _ Hc')) as (s' & p' & Hs' & Hp' & Hor).
        assert (is_Some (store ed !! p')) as [ps Hps].
        { destruct Hor as [->|?]; [by destruct Hc'|by eapply tc_parent_has_record]. }
        by rewrite (getShapeParent_Some _ _ _ _ _ Hs' Hp' Hps) in Hgp.
Qed.

(** [findCommonAncestor] of two shapes of the store returns their lowest
    common ancestor, or nothing when they have no common ancestor. *)
Lemma findCommonAncestor_spec (ed : Editor) a b sa sb :
  store_wf ed → Acyclic ed → store ed !! a = Some sa → store ed !! b = Some sb →
  ∃ r, returns (λ fuel, findCommonAncestor fuel ed [a; b] None) r ∧
    match r with
    | Some c => lowestCommonAncestor ed a b c
    | None => ∀ c', ¬ commonAncestor ed a b c'
    end.
Proof.
  intros Hwf Hac Hsa Hsb.
  pose proof (Hwf _ _ Hsa) as Hida. simpl in Hida.
  assert (Heq : ∀ fuel, findCommonAncestor fuel ed [a; b] None
                = findCommonAncestor_loop fuel ed (getShapeParent ed (Some a)) [sb] None).
  { intros fuel. unfold findCommonAncestor. simpl. rewrite Hsa, Hsb. simpl.
    by rewrite Hida, Hsa. }
  destruct (getShapeParent ed (Some a)) as [ps|] eqn:Hgp.
  - destruct (getShapeParent_inv _ _ _ Hgp) as (s' & p & Hs' & Hp & Hps).
    assert (s' = sa) as -> by congruence.
    assert (Hap : parent_of ed a p) by (by exists sa).
    destruct (findCommonAncestor_loop_spec ed a b sb Hwf Hac Hsb p (Hac p) ps Hps)
      as (r & Hr & Hspec).
    { by apply tc_once. }
    { intros c' (_ & Hc' & _).
      destruct (tc_parent_inv _ _ _ Hc') as (s2 & p' & Hs2 & Hp' & Hor).
      assert (p' = p) as -> by congruence.
      destruct Hor as [->|?]; [apply rtc_refl|by apply tc_rtc]. }
    exists r. split; [|exact Hspec].
    eapply returns_ext; [intros fuel; symmetry; apply Heq|]. exact Hr.
  - exists None. split.
    + eapply returns_ext; [intros fuel; symmetry; apply Heq|].
      exists 1. intros [|m] ?; [lia|]. done.
    + intros c' (Hc & Hc' & _).
      destruct (tc_parent_inv _ _ _ Hc') as (s' & p' & Hs' & Hp' & Hor).
      assert (is_Some (store ed !! p')) as [ps Hps].
      { destruct Hor as [->|?]; [done|by eapply tc_parent_has_record]. }
      by rewrite (getShapeParent_Some _ _ _ _ _ Hs' Hp' Hps) in Hgp.
Qed.

End CommonAncestorFacts.

(* ------------------------------------------------------------------ *)
(** ** Arrows *)

Section ArrowFacts.
Context `{MatOps} `{!IndexOps} `{!ShapeUtils} `{!ArrowOps}.
Hypothesis Hhooks : hooks_keep_structure.

Lemma tc_last {A} (R : relation A) x z : tc R x z → ∃ y, R y z.
Proof. induction 1; eauto. Qed.

Lemma getShapeNearestSibling_total (ed : Editor) sibling target :
  store_wf ed → Acyclic ed →
  ∃ r, returns (λ fuel, getShapeNearestSibling fuel ed sibling target) r.
Proof.
  intros Hwf Hac. unfold getShapeNearestSibling.
  destruct target as [t|]; [|eexists; apply returns_ret].
  case_decide; [eexists; apply returns_ret|].
  apply findShapeAncestor_total; auto.
Qed.

(** [reindexArrow] returns and only touches the order key of the arrow. *)
Lemma reindexArrow_effect (ed : Editor) arrowId startShape endShape a1 :
  store_wf ed → Acyclic ed → store ed !! arrowId = Some a1 →
  ∃ ed2, returns (λ fuel, reindexArrow fuel ed arrowId startShape endShape) ed2 ∧
    (∀ k, k ≠ arrowId → store ed2 !! k = store ed !! k) ∧
    ∃ a2, store ed2 !! arrowId = Some a2 ∧
      TLShape.parentId a2 = TLShape.parentId a1 ∧
      TLShape.props a2 = TLShape.props a1.
Proof.
  intros Hwf Hac Ha.
  destruct (getShapeNearestSibling_total ed a1 startShape Hwf Hac) as [ss Hss].
  destruct (getShapeNearestSibling_total ed a1 endShape Hwf Hac) as [es Hes].
  unfold reindexArrow. simpl. rewrite Ha.
  destruct (arrowFinalIndex ed a1 ss es) as [finalIndex|] eqn:Hfi.
  - destruct (updateShapes_total ed [indexPartial arrowId finalIndex] Hwf Hac)
      as (kept & Hret & Hsub & _).
    exists (_updateShapes ed kept). split; [|split].
    + eapply returns_bind; [exact Hss|]. eapply returns_bind; [exact Hes|].
      cbv beta. rewrite Hfi. exact Hret.
    + intros k Hk. apply (_updateShapes_lookup_other Hhooks); [done|].
      intros partial Hp. apply Hsub in Hp. apply list_elem_of_singleton in Hp as ->. done.
    + destruct (proj2 (_updateShapes_is_Some Hhooks ed kept arrowId Hwf)) as [a2 Ha2]; [eauto|].
      exists a2. split; [done|].
      destruct (_updateShapes_lookup Hhooks _ _ _ _ Hwf Ha2) as (s & Hs & _ & Hprops & Hor).
      assert (s = a1) as -> by congruence. split; [|done].
      destruct Hor as [->|(partial & Hp & _ & Hpar & _)]; [done|].
      apply Hsub in Hp. apply list_elem_of_singleton in Hp as ->. by rewrite Hpar.
  - exists ed. split; [|split; [done|by exists a1]].
    eapply returns_bind; [exact Hss|]. eapply returns_bind; [exact Hes|].
    cbv beta. rewrite Hfi. apply returns_ret.
Qed.

(** The two writes of [reparentArrow], once the next parent is chosen. *)
Lemma reparentArrow_tail (ed : Editor) arrowId a next startShape endShape :
  store_wf ed → Acyclic ed → isReadonly ed = false →
  store ed !! arrowId = Some a →
  (∀ c, ¬ parent_of ed c arrowId) →
  (∀ q, next = ShapeId q → q ≠ arrowId) →
  ∃ ed', returns (λ fuel,
      ed1 ← (if decide (next ≠ TLShape.parentId a)
             then reparentShapes fuel ed [arrowId] next None
             else Ret ed);
      reindexArrow fuel ed1 arrowId startShape endShape) ed' ∧
    (∀ k, k ≠ arrowId → store ed' !! k = store ed !! k) ∧
    ∃ a', store ed' !! arrowId = Some a' ∧
      TLShape.props a' = TLShape.props a ∧
      TLShape.parentId a' = next.
Proof.
  intros Hwf Hac Hro Ha Hleaf Hnext.
  assert (∃ ed1, returns (λ fuel,
      if decide (next ≠ TLShape.parentId a)
      then reparentShapes fuel ed [arrowId] next None
      else Ret ed) ed1 ∧ store_wf ed1 ∧ Acyclic ed1 ∧
    (∀ k, k ≠ arrowId → store ed1 !! k = store ed !! k) ∧
    ∃ a1, store ed1 !! arrowId = Some a1 ∧ TLShape.props a1 = TLShape.props a ∧
      TLShape.parentId a1 = next) as (ed1 & Hret1 & Hwf1 & Hac1 & Hother1 & a1 & Ha1 & Hprops1 & Hpar1).
  { case_decide as Hd.
    - destruct (reparentShapes_effect Hhooks ed [arrowId] next None Hwf Hac)
        as (ed1 & Hret & Hwf1 & Hac1 & _ & Hlook).
      { intros q -> id ->%list_elem_of_singleton. split; [by apply not_eq_sym, Hnext|].
        intros [y Hy]%tc_last. exact (Hleaf _ Hy). }
      exists ed1. split_and!; [done..| |].
      + intros k Hk. specialize (Hlook k). destruct (store ed !! k) as [s|]; [|done].
        destruct Hlook as (r & Hr & _ & _ & _ & Hif). rewrite decide_False in Hif.
        * by subst r.
        * intros [?%list_elem_of_singleton _]. done.
      + specialize (Hlook arrowId). rewrite Ha in Hlook.
        destruct Hlook as (r & Hr & _ & _ & Hprops & Hif). rewrite decide_True in Hif.
        * by exists r.
        * split; [by apply list_elem_of_singleton|done].
    - exists ed. split_and!; [apply returns_ret|done..|].
      exists a. split_and!; [done..|]. by destruct (decide (next = TLShape.parentId a)). }
  destruct (reindexArrow_effect ed1 arrowId startShape endShape a1 Hwf1 Hac1 Ha1)
    as (ed2 & Hret2 & Hother2 & a2 & Ha2 & Hpar2 & Hprops2).
  exists ed2. split; [|split].
  - eapply returns_bind; [exact Hret1|exact Hret2].
  - intros k Hk. by rewrite Hother2, Hother1.
  - exists a2. split_and!; [done|congruence..].
Qed.

End ArrowFacts.

Section ArrowParent.
Context `{MatOps} `{!IndexOps} `{!ShapeUtils} `{!ArrowOps}.
Hypothesis Hhooks : hooks_keep_structure.


End ArrowParent.

(* ------------------------------------------------------------------ *)
(** ** Deleting the target of an arrow *)

Section UnbindFacts.
Context `{MatOps} `{!IndexOps} `{!ShapeUtils} `{!ArrowOps}.

Lemma arrowBindingsOf_elem (ed : Editor) shapeId arrowId handle :
  (arrowId, handle) ∈ arrowBindingsOf ed shapeId ↔
  ∃ arrow, store ed !! arrowId = Some arrow ∧
           terminalOf arrow handle ≫= boundShapeIdOf = Some shapeId.
Proof.
  unfold arrowBindingsOf. rewrite list_elem_of_bind. split.
  - intros ([k s] & Hin & Hks%elem_of_map_to_list).
    apply list_elem_of_filter in Hin as [Hb Hin].
    assert (k = arrowId) as ->.
    { apply elem_of_cons in Hin as [[= -> _]|Hin]; [done|].
      apply list_elem_of_singleton in Hin as [= -> _]. done. }
    by exists s.
  - intros (arrow & Ha & Hb). exists (arrowId, arrow). split.
    + apply list_elem_of_filter. split; [done|].
      destruct handle; [left|right; left].
    + by apply elem_of_map_to_list.
Qed.

Lemma arrowBindingsOf_NoDup (ed : Editor) shapeId : NoDup (arrowBindingsOf ed shapeId).
Proof.
  unfold arrowBindingsOf. apply NoDup_bind.
  - intros [k1 s1] [k2 s2] [k h] Hin1%elem_of_map_to_list Hin2%elem_of_map_to_list
      [_ Hf1]%list_elem_of_filter [_ Hf2]%list_elem_of_filter.
    assert (k1 = k) as ->.
    { apply elem_of_cons in Hf1 as [[= -> _]|Hf1]; [done|].
      apply list_elem_of_singleton in Hf1 as [= -> _]. done. }
    assert (k2 = k) as ->.
    { apply elem_of_cons in Hf2 as [[= -> _]|Hf2]; [done|].
      apply list_elem_of_singleton in Hf2 as [= -> _]. done. }
    congruence.
  - intros [k s] _. apply NoDup_filter.
    apply NoDup_cons. split; [|apply NoDup_singleton].
    intros [=]%list_elem_of_singleton.
  - apply NoDup_map_to_list.
Qed.

Lemma unbindArrowTerminal_store (ed : Editor) arrow handle :
  store (unbindArrowTerminal ed arrow handle) =
  <[TLShape.id arrow :=
      let p := getArrowTerminalsInArrowSpace ed arrow handle in
      withTerminal arrow handle (TerminalPoint (Vec.x p) (Vec.y p))]> (store ed).
Proof. done. Qed.

Lemma withTerminal_terminalOf (arrow : TLShape.t) handle terminal h :
  is_Some (terminalOf arrow handle) →
  terminalOf (withTerminal arrow handle terminal) h =
  if decide (h = handle) then Some terminal else terminalOf arrow h.
Proof.
  unfold terminalOf, withTerminal. simpl.
  destruct (TLShape.props arrow); intros [? ?]; try done.
  by destruct handle, h.
Qed.

Lemma unbindAll_app (ed : Editor) l1 l2 :
  unbindAll ed (l1 ++ l2) = unbindAll (unbindAll ed l1) l2.
Proof.
  revert ed. induction l1 as [|[k h] l1 IH]; intros ed; [done|]. simpl.
  destruct (store ed !! k); apply IH.
Qed.

Lemma unbindAll_wf (ed : Editor) l : store_wf ed → store_wf (unbindAll ed l).
Proof.
  revert ed. induction l as [|[k h] l IH]; intros ed Hwf; [done|]. cbn [unbindAll getShape].
  destruct (store ed !! k) as [a|] eqn:Ha; [|by apply IH].
  apply IH. by apply store_put_wf.
Qed.

(** The handler removes no record, and keeps every record that is not
    an arrow among the bindings. *)
Lemma unbindAll_is_Some (ed : Editor) l k :
  store_wf ed → is_Some (store (unbindAll ed l) !! k) ↔ is_Some (store ed !! k).
Proof.
  revert ed. induction l as [|[k' h] l IH]; intros ed Hwf; [done|]. cbn [unbindAll getShape].
  destruct (store ed !! k') as [a|] eqn:Ha; [|by apply IH].
  rewrite IH by (by apply store_put_wf). rewrite unbindArrowTerminal_store.
  rewrite (Hwf _ _ Ha). destruct (decide (k' = k)) as [->|Hne].
  - rewrite lookup_insert_eq. split; eauto.
  - by rewrite lookup_insert_ne.
Qed.

Lemma unbindAll_lookup_other (ed : Editor) l k :
  store_wf ed → (∀ h, (k, h) ∉ l) → store (unbindAll ed l) !! k = store ed !! k.
Proof.
  revert ed. induction l as [|[k' h] l IH]; intros ed Hwf Hk; [done|]. cbn [unbindAll getShape].
  assert (k' ≠ k) as Hne.
  { intros ->. apply (Hk h). left. }
  assert (∀ h, (k, h) ∉ l) as Hk'.
  { intros h' Hin. apply (Hk h'). by right. }
  destruct (store ed !! k') as [a|] eqn:Ha; [|by apply IH].
  rewrite IH by (by apply store_put_wf || done). rewrite unbindArrowTerminal_store.
  rewrite (Hwf _ _ Ha). by rewrite lookup_insert_ne.
Qed.

(** Later turns of the loop leave a terminal they do not name alone. *)
Lemma unbindAll_keeps_terminal (ed : Editor) l k h a t :
  store_wf ed → (k, h) ∉ l → store ed !! k = Some a → terminalOf a h = Some t →
  ∃ a', store (unbindAll ed l) !! k = Some a' ∧ terminalOf a' h = Some t.
Proof.
  revert ed a. induction l as [|[k' h'] l IH]; intros ed a Hwf Hk Ha Ht; [by exists a|].
  cbn [unbindAll getShape]. assert ((k, h) ∉ l) as Hk' by (intros Hin; apply Hk; by right).
  destruct (store ed !! k') as [a0|] eqn:Ha0; [|by eapply IH].
  pose proof (Hwf _ _ Ha0) as Hid. simpl in Hid.
  destruct (decide (k' = k)) as [->|Hne].
  - assert (a0 = a) as -> by congruence.
    eapply (IH (unbindArrowTerminal ed a h') _ (store_put_wf _ _ Hwf) Hk').
    + rewrite unbindArrowTerminal_store, Hid. apply lookup_insert_eq.
    + rewrite withTerminal_terminalOf.
      * rewrite decide_False; [done|]. intros ->. apply Hk. left.
      * unfold terminalOf in *. destruct (TLShape.props a); done.
  - eapply (IH (unbindArrowTerminal ed a0 h') _ (store_put_wf _ _ Hwf) Hk'); [|exact Ht].
    rewrite unbindArrowTerminal_store, Hid. by rewrite lookup_insert_ne.
Qed.


End UnbindFacts.

(* ------------------------------------------------------------------ *)
(** ** Comparing numbers *)

Lemma number_ltb_leb a b : number_ltb a b = true → number_leb a b = true.
Proof.
  destruct a as [p|], b as [q|]; simpl; try done.
  rewrite negb_true_iff. intros Hn. apply Qle_bool_iff.
  destruct (Qlt_le_dec p q) as [Hlt|Hle]; [by apply Qlt_le_weak|].
  apply Qle_bool_iff in Hle. congruence.
Qed.

Lemma number_ltb_false_leb a b : number_ltb a b = false → number_leb b a = true.
Proof.
  destruct a as [p|], b as [q|]; simpl; try done.
  by rewrite negb_false_iff.
Qed.

Lemma number_leb_trans a b c :
  number_leb a b = true → number_leb b c = true → number_leb a c = true.
Proof.
  destruct a as [p|], b as [q|], c as [r|]; simpl; try done.
  rewrite !Qle_bool_iff. apply Qle_trans.
Qed.

Lemma number_leb_refl a : number_leb a a = true.
Proof. destruct a as [p|]; simpl; [|done]. apply Qle_bool_iff, Qle_refl. Qed.

Lemma number_ltb_irrefl a : number_ltb a a = false.
Proof.
  destruct a as [p|]; simpl; [|done]. apply negb_false_iff, Qle_bool_iff, Qle_refl.
Qed.

Lemma number_ltb_Infinity a b : number_ltb a b = true → number_ltb a Infinity = true.
Proof. by destruct a, b. Qed.

Lemma number_leb_Infinity a : number_leb a Infinity = true.
Proof. by destruct a. Qed.

(* ------------------------------------------------------------------ *)
(** ** One turn of the hit-test loop *)

Section HitStepFacts.
Context `{EditorReads}.

(** What the turn for a hollow shape in reach does to the state. *)
Definition recordCandidate (opts : HitOptions.t) (point : Vec.t) (state : HitState)
    (shape : TLShape.t) : HitState :=
  let distance := number_abs (distanceOf opts point shape) in
  if number_ltb distance (HitOptions.margin opts) then
    if number_ltb distance (inMarginClosestToEdgeDistance state)
    then mkHitState (inHollowSmallestArea state) (inHollowSmallestAreaHit state)
                    distance (Some shape)
    else state
  else if bool_decide (inMarginClosestToEdgeHit state = None) then
    if number_ltb (areaOf shape) (inHollowSmallestArea state)
    then mkHitState (areaOf shape) (Some shape)
                    (inMarginClosestToEdgeDistance state) (inMarginClosestToEdgeHit state)
    else state
  else state.

Lemma checkShape_in_reach opts point state shape :
  hollowInReach opts point shape = true →
  checkShape opts point state shape = Continue (recordCandidate opts point state shape).
Proof.
  unfold hollowInReach, isHollow, labelHitAt, coversViewport, distanceOf.
  rewrite !andb_true_iff, !negb_true_iff, !bool_decide_eq_true.
  intros ((((Hlabel & (Hframe & Hclosed) & Hfilled) & Hreach) & [b Hb]) & Hcover).
  apply bool_decide_eq_false in Hframe.
  unfold checkShape, recordCandidate, distanceOf, areaOf.
  rewrite Hlabel, Hclosed, Hreach, Hfilled, Hb in *.
  rewrite bool_decide_eq_false_2 by done. rewrite Hcover.
  repeat case_match; done.
Qed.

Lemma checkShape_out_of_reach opts point state shape state' :
  hollowInReach opts point shape = false →
  checkShape opts point state shape = Continue state' → state' = state.
Proof.
  unfold hollowInReach, isHollow, labelHitAt, coversViewport, distanceOf, checkShape.
  intros Hout.
  destruct (labelHit _ _ _) as [[|]|]; [done| |done].
  destruct (bool_decide (TLShape.type shape = FrameType)).
  { repeat case_match; congruence. }
  destruct (Geometry2d.isClosed _); [|repeat case_match; congruence].
  destruct (number_leb _ _); [|congruence].
  destruct (countsAsFilled _) as [[|]|]; [done| |done].
  destruct (getShapePageBounds _) as [b|]; [|done].
  destruct (Box_contains _ _); [congruence|].
  exfalso. simpl in Hout.
  first [done | rewrite bool_decide_eq_true_2 in Hout by eauto; done].
Qed.

(** A returned hit is the shape of the turn or a pending candidate. *)
Lemma checkShape_Return opts point state shape hit :
  checkShape opts point state shape = Return (Some hit) →
  hit = shape ∨ tracked state hit.
Proof.
  unfold checkShape, tracked, orElse.
  repeat case_match; intros [= <-]; auto; try (right; auto; fail).
Qed.

Lemma recordCandidate_tracked opts point state shape hit :
  tracked (recordCandidate opts point state shape) hit →
  tracked state hit ∨
  (hit = shape ∧ recordCandidate opts point state shape ≠ state).
Proof.
  unfold recordCandidate, tracked.
  repeat case_match; simpl; try tauto.
  - intros [[= <-]|?]; [|tauto]. right. split; [done|].
    intros Heq. apply (f_equal inMarginClosestToEdgeDistance) in Heq. simpl in Heq.
    match goal with
    | Hlt : number_ltb _ (inMarginClosestToEdgeDistance state) = true |- _ =>
      rewrite <- Heq in Hlt; by rewrite number_ltb_irrefl in Hlt
    end.
  - intros [?|[= <-]]; [tauto|]. right. split; [done|].
    intros Heq. apply (f_equal inHollowSmallestArea) in Heq. simpl in Heq.
    match goal with
    | Hlt : number_ltb _ (inHollowSmallestArea state) = true |- _ =>
      rewrite <- Heq in Hlt; by rewrite number_ltb_irrefl in Hlt
    end.
Qed.

(** Every hit of the loop is one of the shapes it was given, and the turn
    for that shape could return or record it. *)
Lemma hitLoop_hits opts point topDown : ∀ state,
  match hitLoop opts point state topDown with
  | Return (Some hit) => tracked state hit ∨ (hit ∈ topDown ∧ accepted opts point hit)
  | Continue state' =>
    ∀ hit, tracked state' hit →
      tracked state hit ∨ (hit ∈ topDown ∧ accepted opts point hit)
  | _ => True
  end.
Proof.
  induction topDown as [|shape rest IH]; intros state; simpl; [auto|].
  destruct (checkShape opts point state shape) as [[hit|]|state'|msg] eqn:Hstep; [| done | | done].
  - destruct (checkShape_Return _ _ _ _ _ Hstep) as [->|?]; [|by left].
    right. split; [left|]. exists state. congruence.
  - assert (Hstep' : ∀ hit, tracked state' hit →
      tracked state hit ∨ (hit = shape ∧ accepted opts point hit)).
    { intros hit Hhit.
      destruct (hollowInReach opts point shape) eqn:Hreach.
      - rewrite (checkShape_in_reach _ _ _ _ Hreach) in Hstep. injection Hstep as <-.
        destruct (recordCandidate_tracked _ _ _ _ _ Hhit) as [?|[-> Hne]]; [by left|].
        right. split; [done|]. exists state.
        rewrite (checkShape_in_reach _ _ _ _ Hreach). congruence.
      - rewrite (checkShape_out_of_reach _ _ _ _ _ Hreach Hstep) in Hhit. by left. }
    specialize (IH state').
    destruct (hitLoop opts point state' rest) as [[hit|]|state''|msg]; [| done | | done].
    + destruct IH as [Hs|[Hin Hacc]].
      * destruct (Hstep' _ Hs) as [?|[-> ?]]; [by left|]. right. split; [left|done].
      * right. split; [by right|done].
    + intros hit Hhit. destruct (IH _ Hhit) as [Hs|[Hin Hacc]].
      * destruct (Hstep' _ Hs) as [?|[-> ?]]; [by left|]. right. split; [left|done].
      * right. split; [by right|done].
Qed.

Lemma getShapeAtPoint_hit point opts hit :
  getShapeAtPoint point opts = Ret (Some hit) →
  hit ∈ shapesToCheck opts point ∧ accepted opts point hit.
Proof.
  unfold getShapeAtPoint.
  pose proof (hitLoop_hits opts point (reverse (shapesToCheck opts point)) initialHitState) as Hh.
  assert (Hnone : ∀ h, ¬ tracked initialHitState h) by (intros h [?|?]; done).
  destruct (hitLoop _ _ _ _) as [[h|]|state|msg]; intros [= Heq]; subst.
  - destruct Hh as [Hx|[Hin ?]]; [by apply Hnone in Hx|]. by apply (proj1 (elem_of_reverse _ _)) in Hin.
  - assert (tracked state hit) as Ht.
    { unfold tracked, orElse in *. destruct (inMarginClosestToEdgeHit state); auto. }
    destruct (Hh _ Ht) as [Hx|[Hin ?]]; [by apply Hnone in Hx|]. by apply (proj1 (elem_of_reverse _ _)) in Hin.
Qed.

End HitStepFacts.

(* ------------------------------------------------------------------ *)
(** ** Frames, masks and the viewport *)

Section HitTheorems.
Context `{EditorReads}.

Lemma hitLoop_app opts point l1 l2 : ∀ state,
  hitLoop opts point state (l1 ++ l2) =
  match hitLoop opts point state l1 with
  | Continue state' => hitLoop opts point state' l2
  | stop => stop
  end.
Proof.
  induction l1 as [|shape l1 IH]; intros state; simpl; [done|].
  destruct (checkShape opts point state shape); auto.
Qed.

Lemma labelHit_frame (shape : TLShape.t) geometry p :
  TLShape.type shape = FrameType → labelHit shape geometry p = Some false.
Proof. unfold TLShape.type, labelHit. by destruct (TLShape.props shape). Qed.


(** C10 (as amended). A closed, hollow shape that is not a frame and
    whose page bounds contain the viewport is passed over by the loop as
    long as the point is not on its label: its turn neither returns nor
    records a candidate, whatever the distance, and [getShapeAtPoint]
    does not return it. *)
Theorem getShapeAtPoint_skips_viewport_cover (opts : HitOptions.t) (point : Vec.t)
    (shape : TLShape.t) :
  isHollow shape = true → coversViewport shape = true →
  labelHitAt point shape = Some false →
  (∀ state, checkShape opts point state shape = Continue state) ∧
  getShapeAtPoint point opts ≠ Ret (Some shape).
Proof.
  unfold isHollow, coversViewport, labelHitAt.
  rewrite !andb_true_iff, !negb_true_iff, bool_decide_eq_true.
  intros [[Hframe Hclosed] Hfilled] Hcover Hlabel.
  assert (Hskip : ∀ state, checkShape opts point state shape = Continue state).
  { intros state. unfold checkShape. rewrite Hlabel, Hframe, Hclosed, Hfilled.
    destruct (getShapePageBounds (TLShape.id shape)) as [b|]; [|done].
    rewrite Hcover. by destruct (number_leb _ _). }
  split; [done|]. intros [_ [state Hacc]]%getShapeAtPoint_hit. by apply Hacc.
Qed.

Section EmptyMask.
(** No point lies in a polygon without vertices. *)
Hypothesis pointInPolygon_nil : ∀ p, pointInPolygon p [] = false.

(** C5. A shape whose clip mask has no vertices has no masked page
    bounds, [isPointInShape] is false for it at every point, and
    [getShapeAtPoint] never returns it. *)
Theorem empty_mask_hides_shape (shape : TLShapeId) :
  getShapeMask shape = Some [] →
  getShapeMaskedPageBounds shape = Ret None ∧
  (∀ point margin hitInside, isPointInShape shape point margin hitInside = false) ∧
  (∀ point opts hit, getShapeAtPoint point opts = Ret (Some hit) → TLShape.id hit ≠ shape).
Proof.
  intros Hmask. split_and!.
  - unfold getShapeMaskedPageBounds. rewrite Hmask.
    by destruct (getShapePageBounds shape).
  - intros point margin hitInside. unfold isPointInShape.
    by rewrite Hmask, pointInPolygon_nil.
  - intros point opts hit [Hin _]%getShapeAtPoint_hit Hid.
    unfold shapesToCheck in Hin. apply list_elem_of_filter in Hin as [Hcheck _].
    unfold toCheck in Hcheck. rewrite Hid, Hmask, pointInPolygon_nil in Hcheck.
    by destruct (bool_decide _).
Qed.

End EmptyMask.
End HitTheorems.

(* ------------------------------------------------------------------ *)
(** ** The pending candidates *)

Section PendingCandidates.
Context `{EditorReads}.
Variables (opts : HitOptions.t) (point : Vec.t).

Abbreviation absDistance s := (number_abs (distanceOf opts point s)).

(** What the two pending candidates are, after the loop has seen the
    shapes [seen]. *)
Definition pendingInvariant (seen : list TLShape.t) (state : HitState) : Prop :=
  match inMarginClosestToEdgeHit state with
  | None =>
    inMarginClosestToEdgeDistance state = Infinity ∧
    (∀ s, s ∈ seen → marginCandidate opts point s = false) ∧
    match inHollowSmallestAreaHit state with
    | None =>
      inHollowSmallestArea state = Infinity ∧
      ∀ s, s ∈ seen → hollowCandidate opts point s = true → areaOf s = Infinity
    | Some h =>
      h ∈ seen ∧ hollowCandidate opts point h = true ∧
      inHollowSmallestArea state = areaOf h ∧
      ∀ s, s ∈ seen → hollowCandidate opts point s = true →
           number_leb (areaOf h) (areaOf s) = true
    end
  | Some h =>
    h ∈ seen ∧ marginCandidate opts point h = true ∧
    inMarginClosestToEdgeDistance state = absDistance h ∧
    ∀ s, s ∈ seen → marginCandidate opts point s = true →
         number_leb (absDistance h) (absDistance s) = true
  end.

Lemma pendingInvariant_initial : pendingInvariant [] initialHitState.
Proof. simpl. repeat split; intros s Hs; by apply elem_of_nil in Hs. Qed.

Lemma number_ltb_Infinity_false a : number_ltb a Infinity = false → a = Infinity.
Proof. by destruct a. Qed.

Ltac snoc_cases :=
  let s := fresh "s" in
  let Hs := fresh "Hs" in
  intros s [Hs| ->%list_elem_of_singleton]%elem_of_app; [revert s Hs|].

Lemma pendingInvariant_step seen state shape state' :
  pendingInvariant seen state →
  checkShape opts point state shape = Continue state' →
  pendingInvariant (seen ++ [shape]) state'.
Proof.
  intros Hinv Hstep.
  assert (Hleft : ∀ h, h ∈ seen → h ∈ seen ++ [shape]).
  { intros h ?. apply elem_of_app. by left. }
  assert (Hlast : shape ∈ seen ++ [shape]).
  { apply elem_of_app. right. by apply list_elem_of_singleton. }
  destruct (hollowInReach opts point shape) eqn:Hreach.
  2:{ rewrite (checkShape_out_of_reach _ _ _ _ _ Hreach Hstep).
      assert (Hm : marginCandidate opts point shape = false)
        by (unfold marginCandidate; by rewrite Hreach).
      assert (Hh : hollowCandidate opts point shape = false)
        by (unfold hollowCandidate; by rewrite Hreach).
      unfold pendingInvariant in *.
      destruct (inMarginClosestToEdgeHit state) as [mh|].
      - destruct Hinv as (? & ? & ? & Hmin). split_and!; auto.
        snoc_cases; [done|]. congruence.
      - destruct Hinv as (? & Hnone & Hhollow). split_and!; [done|(snoc_cases; done)|].
        destruct (inHollowSmallestAreaHit state) as [hh|].
        + destruct Hhollow as (? & ? & ? & Hmin). split_and!; auto.
          snoc_cases; [done|]. congruence.
        + destruct Hhollow as (? & Hinf). split; [done|].
          snoc_cases; [done|]. congruence. }
  rewrite (checkShape_in_reach _ _ _ _ Hreach) in Hstep. injection Hstep as <-.
  unfold recordCandidate, pendingInvariant in *.
  destruct (number_ltb (absDistance shape) (HitOptions.margin opts)) eqn:Hin.
  - (* within the margin *)
    assert (Hm : marginCandidate opts point shape = true)
      by (unfold marginCandidate; by rewrite Hreach, Hin).
    destruct (number_ltb (absDistance shape) (inMarginClosestToEdgeDistance state)) eqn:Hlt.
    + simpl. split_and!; [done..|].
      snoc_cases; [|intros _; apply number_leb_refl].
      intros s Hs Hcand. destruct (inMarginClosestToEdgeHit state) as [mh|].
      * destruct Hinv as (_ & _ & Hd & Hmin). rewrite Hd in Hlt.
        eapply number_leb_trans; [by apply number_ltb_leb|]. by apply Hmin.
      * destruct Hinv as (_ & Hnone & _). rewrite (Hnone _ Hs) in Hcand. done.
    + destruct (inMarginClosestToEdgeHit state) as [mh|].
      * destruct Hinv as (? & ? & Hd & Hmin). split_and!; auto.
        snoc_cases; [done|]. intros _. rewrite Hd in Hlt.
        by apply number_ltb_false_leb.
      * destruct Hinv as (Hd & _). rewrite Hd in Hlt.
        by rewrite (number_ltb_Infinity _ _ Hin) in Hlt.
  - (* inside, deeper than the margin *)
    assert (Hm : marginCandidate opts point shape = false)
      by (unfold marginCandidate; by rewrite Hreach, Hin).
    assert (Hh : hollowCandidate opts point shape = true)
      by (unfold hollowCandidate; by rewrite Hreach, Hin).
    destruct (inMarginClosestToEdgeHit state) as [mh|] eqn:Hmh.
    + rewrite bool_decide_eq_false_2 by done. rewrite ?Hmh.
      destruct Hinv as (? & ? & ? & Hmin). split_and!; auto.
      snoc_cases; [done|]. congruence.
    + rewrite bool_decide_eq_true_2 by done.
      destruct Hinv as (Hd & Hnone & Hhollow).
      destruct (number_ltb (areaOf shape) (inHollowSmallestArea state)) eqn:Hlt.
      * simpl. rewrite ?Hmh. split_and!; [done|(snoc_cases; done)|done..|].
        snoc_cases; [|intros _; apply number_leb_refl].
        intros s Hs Hcand. destruct (inHollowSmallestAreaHit state) as [hh|].
        -- destruct Hhollow as (_ & _ & Ha & Hmin). rewrite Ha in Hlt.
           eapply number_leb_trans; [by apply number_ltb_leb|]. by apply Hmin.
        -- destruct Hhollow as (_ & Hinf). rewrite (Hinf _ Hs Hcand).
           apply number_leb_Infinity.
      * rewrite ?Hmh. split_and!; [done|(snoc_cases; done)|].
        destruct (inHollowSmallestAreaHit state) as [hh|].
        -- destruct Hhollow as (? & ? & Ha & Hmin). split_and!; auto.
           snoc_cases; [done|]. intros _. rewrite Ha in Hlt.
           by apply number_ltb_false_leb.
        -- destruct Hhollow as (Ha & Hinf). split; [done|].
           snoc_cases; [done|]. intros _. rewrite Ha in Hlt.
           by apply number_ltb_Infinity_false.
Qed.

Lemma pendingInvariant_loop topDown : ∀ seen state state',
  pendingInvariant seen state →
  hitLoop opts point state topDown = Continue state' →
  pendingInvariant (seen ++ topDown) state'.
Proof.
  induction topDown as [|shape rest IH]; intros seen state state' Hinv Hloop.
  - simpl in Hloop. injection Hloop as <-. by rewrite app_nil_r.
  - simpl in Hloop.
    destruct (checkShape opts point state shape) as [|state1|] eqn:Hstep; try done.
    rewrite (assoc_L (++) seen [shape] rest : seen ++ shape :: rest = (seen ++ [shape]) ++ rest).
    eapply IH; [|exact Hloop]. by eapply pendingInvariant_step.
Qed.

End PendingCandidates.

Section PendingResult.
Context `{EditorReads}.

Lemma number_ltb_leb_contra a b :
  number_ltb a b = true → number_leb b a = true → False.
Proof.
  destruct a as [p|], b as [q|]; simpl; try done.
  rewrite negb_true_iff. congruence.
Qed.

(** C3 (as amended). When no turn of the loop returns at once,
    [getShapeAtPoint] answers from its two pending candidates, which are
    taken among the closed hollow shapes in reach whose page bounds do
    not contain the viewport: the one whose edge is nearest among those
    with the point within the margin of the edge, if there is one;
    otherwise the one of smallest area among the others; otherwise
    nothing.  In particular a hollow candidate whose area is finite and
    strictly smaller than that of every other hollow candidate is
    returned when no shape has the point within the margin of its edge. *)
Theorem getShapeAtPoint_pending (opts : HitOptions.t) (point : Vec.t) (state : HitState) :
  hitLoop opts point initialHitState (reverse (shapesToCheck opts point)) = Continue state →
  ∃ result, getShapeAtPoint point opts = Ret result ∧
    match result with
    | Some hit =>
      hit ∈ shapesToCheck opts point ∧
      ((marginCandidate opts point hit = true ∧
        ∀ s, s ∈ shapesToCheck opts point → marginCandidate opts point s = true →
             number_leb (number_abs (distanceOf opts point hit))
                        (number_abs (distanceOf opts point s)) = true) ∨
       ((∀ s, s ∈ shapesToCheck opts point → marginCandidate opts point s = false) ∧
        hollowCandidate opts point hit = true ∧
        ∀ s, s ∈ shapesToCheck opts point → hollowCandidate opts point s = true →
             number_leb (areaOf hit) (areaOf s) = true))
    | None =>
      ∀ s, s ∈ shapesToCheck opts point →
        marginCandidate opts point s = false ∧
        (hollowCandidate opts point s = true → areaOf s = Infinity)
    end ∧
    ∀ smallest,
      smallest ∈ shapesToCheck opts point →
      hollowCandidate opts point smallest = true →
      number_ltb (areaOf smallest) Infinity = true →
      (∀ s, s ∈ shapesToCheck opts point → marginCandidate opts point s = false) →
      (∀ s, s ∈ shapesToCheck opts point → hollowCandidate opts point s = true →
            s ≠ smallest → number_ltb (areaOf smallest) (areaOf s) = true) →
      result = Some smallest.
Proof.
  intros Hloop.
  pose proof (pendingInvariant_loop opts point _ [] _ _
                (pendingInvariant_initial opts point) Hloop) as Hinv.
  simpl in Hinv. unfold pendingInvariant in Hinv.
  assert (Hrev : ∀ s, s ∈ reverse (shapesToCheck opts point) ↔ s ∈ shapesToCheck opts point).
  { intros s. apply elem_of_reverse. }
  exists (orElse (inMarginClosestToEdgeHit state) (inHollowSmallestAreaHit state)).
  split; [unfold getShapeAtPoint; by rewrite Hloop|].
  assert (Hmain :
    match orElse (inMarginClosestToEdgeHit state) (inHollowSmallestAreaHit state) with
    | Some hit =>
      hit ∈ shapesToCheck opts point ∧
      ((marginCandidate opts point hit = true ∧
        ∀ s, s ∈ shapesToCheck opts point → marginCandidate opts point s = true →
             number_leb (number_abs (distanceOf opts point hit))
                        (number_abs (distanceOf opts point s)) = true) ∨
       ((∀ s, s ∈ shapesToCheck opts point → marginCandidate opts point s = false) ∧
        hollowCandidate opts point hit = true ∧
        ∀ s, s ∈ shapesToCheck opts point → hollowCandidate opts point s = true →
             number_leb (areaOf hit) (areaOf s) = true))
    | None =>
      ∀ s, s ∈ shapesToCheck opts point →
        marginCandidate opts point s = false ∧
        (hollowCandidate opts point s = true → areaOf s = Infinity)
    end).
  { unfold orElse. destruct (inMarginClosestToEdgeHit state) as [mh|].
    - destruct Hinv as (? & ? & _ & Hmin). split; [by apply Hrev|]. left.
      split; [done|]. intros s Hs. apply Hmin. by apply Hrev.
    - destruct Hinv as (_ & Hnone & Hhollow).
      assert (Hnone' : ∀ s, s ∈ shapesToCheck opts point →
                marginCandidate opts point s = false).
      { intros s Hs. apply Hnone. by apply Hrev. }
      destruct (inHollowSmallestAreaHit state) as [hh|].
      + destruct Hhollow as (? & ? & _ & Hmin). split; [by apply Hrev|]. right.
        split_and!; [done..|]. intros s Hs. apply Hmin. by apply Hrev.
      + destruct Hhollow as (_ & Hinf). intros s Hs. split; [auto|].
        apply Hinf. by apply Hrev. }
  split; [exact Hmain|].
  intros smallest Hin Hcand Hfinite Hnomargin Hless.
  destruct (orElse _ _) as [hit|].
  - destruct Hmain as (Hhit & [[Hm _]|(_ & Hh & Hmin)]).
    + rewrite (Hnomargin _ Hhit) in Hm. done.
    + destruct (decide (hit = smallest)) as [->|Hne]; [done|].
      exfalso. eapply number_ltb_leb_contra; [exact (Hless _ Hhit Hh Hne)|].
      by apply Hmin.
  - destruct (Hmain _ Hin) as [_ Hinf]. rewrite (Hinf Hcand) in Hfinite. done.
Qed.

End PendingResult.

(* ================================================================== *)
(** * Further properties of the editor *)

(* ------------------------------------------------------------------ *)
(** ** The walks up the tree *)

Section AncestorProperties.
Context `{MatOps}.

(** The records on the way up from [k], [k] included. *)
Definition onPathUp (ed : Editor) (k a : TLShapeId) : Prop :=
  rtc (parent_of ed) k a.

Lemma onPathUp_inv (ed : Editor) k a s :
  store ed !! k = Some s → onPathUp ed k a →
  a = k ∨ ∃ p, TLShape.parentId s = ShapeId p ∧ onPathUp ed p a.
Proof.
  intros Hs Hpath. destruct Hpath as [|k y a (s' & Hs' & Hp) Hrest]; [by left|].
  right. exists y. split; [congruence|done].
Qed.

Lemma onPathUp_missing (ed : Editor) k a :
  store ed !! k = None → onPathUp ed k a → a = k.
Proof.
  intros Hs Hpath. destruct Hpath as [|k y a (s' & Hs' & Hp) Hrest]; [done|]. congruence.
Qed.

(** [hasAncestor] answers [true] exactly for the shapes above the given
    one: the parent named by its record, whether or not that record is in
    the store, and the parents named by the records above it. *)
Theorem hasAncestor_iff (ed : Editor) (a c : TLShapeId) :
  store_wf ed → Acyclic ed →
  ∃ b, returns (λ fuel, hasAncestor fuel ed (Some a) c) b ∧
       (b = true ↔ tc (parent_of ed) a c).
Proof.
  intros Hwf Hac. destruct (hasAncestor_total ed c Hwf a (Hac a)) as [b [n Hn]].
  exists b. split; [by exists n|].
  pose proof (hasAncestor_sound ed Hwf n a c b (Hn n (le_n _))) as Hs.
  destruct b; [done|]. split; [done|]. intros Htc. by destruct Hs.
Qed.

Lemma isShapeOrAncestorLocked_path (ed : Editor) :
  store_wf ed → ∀ k, Acc (λ p c, parent_of ed c p) k →
  ∀ s, store ed !! k = Some s →
  ∃ b, returns (λ fuel, isShapeOrAncestorLocked fuel ed (Some s)) b ∧
    (b = true ↔ ∃ a sa, onPathUp ed k a ∧ store ed !! a = Some sa ∧
                        TLShape.isLocked sa = true).
Proof.
  intros Hwf k Hacc. induction Hacc as [k _ IH]. intros s Hs.
  pose proof (Hwf _ _ Hs) as Hid.
  destruct (TLShape.isLocked s) eqn:Hl.
  { exists true. split.
    - exists 1. intros [|n] ?; [lia|]. simpl. by rewrite Hl.
    - split; [|done]. intros _. exists k, s. split; [apply rtc_refl|done]. }
  destruct (getShapeParent ed (Some k)) as [ps|] eqn:Hgp.
  - destruct (getShapeParent_inv _ _ _ Hgp) as (s' & p & Hs' & Hp & Hps).
    assert (s' = s) as -> by congruence.
    destruct (IH p ltac:(by exists s) ps Hps) as (b & Hb & Hiff).
    exists b. split.
    + eapply returns_step; [|exact Hb].
      intros n. cbn [isShapeOrAncestorLocked]. by rewrite Hl, Hid, Hgp.
    + rewrite Hiff. split.
      * intros (a & sa & Hpath & Hsa & Hla). exists a, sa. split; [|done].
        eapply rtc_l; [|exact Hpath]. by exists s.
      * intros (a & sa & Hpath & Hsa & Hla).
        destruct (onPathUp_inv _ _ _ _ Hs Hpath) as [->|(p' & Hp' & Hpath')]; [congruence|].
        exists a, sa. split; [|done]. congruence.
  - exists false. split.
    + exists 2. intros [|[|n]] ?; try lia.
      cbn [isShapeOrAncestorLocked]. by rewrite Hl, Hid, Hgp.
    + split; [done|]. intros (a & sa & Hpath & Hsa & Hla). exfalso.
      destruct (onPathUp_inv _ _ _ _ Hs Hpath) as [->|(p & Hp & Hpath')]; [congruence|].
      unfold getShapeParent, getShape in Hgp. rewrite Hs, Hp in Hgp.
      apply (onPathUp_missing _ _ _ Hgp) in Hpath' as ->. congruence.
Qed.

(** [isShapeOrAncestorLocked] answers [true] exactly when the shape, or a
    shape on the way up from it through the records of the store, is
    locked; the walk ends at a page or at a parent that has no record. *)
Theorem isShapeOrAncestorLocked_iff (ed : Editor) (k : TLShapeId) (s : TLShape.t) :
  store_wf ed → Acyclic ed → store ed !! k = Some s →
  ∃ b, returns (λ fuel, isShapeOrAncestorLocked fuel ed (Some s)) b ∧
    (b = true ↔ ∃ a sa, onPathUp ed k a ∧ store ed !! a = Some sa ∧
                        TLShape.isLocked sa = true).
Proof. intros Hwf Hac Hs. exact (isShapeOrAncestorLocked_path ed Hwf k (Hac k) s Hs). Qed.

(** The page a walk up from [k] ends on, if it ends on one. *)
Definition rootPage (ed : Editor) (k : TLShapeId) (pg : TLPageId) : Prop :=
  ∃ a sa, onPathUp ed k a ∧ store ed !! a = Some sa ∧ TLShape.parentId sa = PageId pg.

Lemma rootPage_step (ed : Editor) k s p pg :
  store ed !! k = Some s → TLShape.parentId s = ShapeId p →
  rootPage ed k pg ↔ rootPage ed p pg.
Proof.
  intros Hs Hp. split.
  - intros (a & sa & Hpath & Hsa & Hpa).
    destruct (onPathUp_inv _ _ _ _ Hs Hpath) as [->|(p' & Hp' & Hpath')]; [congruence|].
    exists a, sa. split; [|done]. congruence.
  - intros (a & sa & Hpath & Hsa & Hpa). exists a, sa. split; [|done].
    eapply rtc_l; [|exact Hpath]. by exists s.
Qed.

Lemma rootPage_here (ed : Editor) k s pg pg' :
  store ed !! k = Some s → TLShape.parentId s = PageId pg →
  rootPage ed k pg' ↔ pg' = pg.
Proof.
  intros Hs Hp. split.
  - intros (a & sa & Hpath & Hsa & Hpa).
    destruct (onPathUp_inv _ _ _ _ Hs Hpath) as [->|(p' & Hp' & _)]; congruence.
  - intros ->. exists k, s. split; [apply rtc_refl|done].
Qed.

Lemma rootPage_missing (ed : Editor) k pg : store ed !! k = None → ¬ rootPage ed k pg.
Proof.
  intros Hs (a & sa & Hpath & Hsa & _).
  apply (onPathUp_missing _ _ _ Hs) in Hpath as ->. congruence.
Qed.

Lemma getAncestorPageId_path (ed : Editor) :
  store_wf ed → ∀ k, Acc (λ p c, parent_of ed c p) k →
  ∃ r, returns (λ fuel, getAncestorPageId fuel ed (Some k)) r ∧
       ∀ pg, r = Some pg ↔ rootPage ed k pg.
Proof.
  intros Hwf k Hacc. induction Hacc as [k _ IH].
  destruct (store ed !! k) as [s|] eqn:Hs.
  - destruct (TLShape.parentId s) as [pg|p] eqn:Hp.
    + exists (Some pg). split.
      * exists 1. intros [|n] ?; [lia|]. simpl. by rewrite Hs, Hp.
      * intros pg'. rewrite (rootPage_here _ _ _ _ _ Hs Hp). split; congruence.
    + destruct (store ed !! p) as [ps|] eqn:Hps.
      * destruct (IH p ltac:(by exists s)) as (r & Hr & Hiff). exists r. split.
        -- eapply returns_step; [|exact Hr]. intros n. simpl.
           rewrite Hs, Hp, Hps. simpl. by rewrite (Hwf _ _ Hps).
        -- intros pg. by rewrite Hiff, (rootPage_step _ _ _ _ _ Hs Hp).
      * exists None. split.
        -- exists 2. intros [|[|n]] ?; try lia. simpl. by rewrite Hs, Hp, Hps.
        -- intros pg. split; [done|]. rewrite (rootPage_step _ _ _ _ _ Hs Hp).
           intros Hr. by apply rootPage_missing in Hr.
  - exists None. split.
    + exists 1. intros [|n] ?; [lia|]. simpl. by rewrite Hs.
    + intros pg. split; [done|]. intros Hr. by apply rootPage_missing in Hr.
Qed.

(** [getAncestorPageId] answers the page that the walk up from the shape
    ends on, and [undefined] exactly when the shape has no record or the
    walk ends at a parent that has none. *)
Theorem getAncestorPageId_root (ed : Editor) (k : TLShapeId) :
  store_wf ed → Acyclic ed →
  ∃ r, returns (λ fuel, getAncestorPageId fuel ed (Some k)) r ∧
       ∀ pg, r = Some pg ↔ rootPage ed k pg.
Proof. intros Hwf Hac. exact (getAncestorPageId_path ed Hwf k (Hac k)). Qed.

Lemma isInPageSearch_path (ed : Editor) pageId :
  store_wf ed → ∀ p, Acc (λ p c, parent_of ed c p) p →
  ∀ ps, getShape ed (ShapeId p) = ps →
  ∃ b, returns (λ fuel, isInPageSearch fuel ed ps pageId) b ∧
       (b = true ↔ rootPage ed p pageId).
Proof.
  intros Hwf p Hacc. induction Hacc as [p _ IH]. intros ps0 Hps0. simpl in Hps0. subst ps0.
  destruct (store ed !! p) as [ps|] eqn:Hps.
  - destruct (TLShape.parentId ps) as [pg|q] eqn:Hq.
    + exists (bool_decide (pg = pageId)). split.
      * exists 2. intros [|[|n]] ?; try lia. cbn [isInPageSearch]. rewrite Hq.
        destruct (decide (pg = pageId)) as [->|Hne].
        -- by rewrite decide_True, bool_decide_eq_true_2.
        -- rewrite decide_False by congruence. by rewrite bool_decide_eq_false_2.
      * rewrite bool_decide_eq_true, (rootPage_here _ _ _ _ _ Hps Hq). split; congruence.
    + destruct (IH q ltac:(by exists ps) _ eq_refl) as (b & Hb & Hiff).
      exists b. split.
      * eapply returns_step; [|exact Hb]. intros n. cbn [isInPageSearch].
        rewrite Hq. by rewrite decide_False.
      * by rewrite Hiff, (rootPage_step _ _ _ _ _ Hps Hq).
  - exists false. split.
    + exists 1. by intros [|n] ?; [lia|].
    + split; [done|]. intros Hr. by apply rootPage_missing in Hr.
Qed.

(** [isShapeInPage] and [getAncestorPageId] agree: a shape is in a page
    exactly when that page is its ancestor page; a shape without a record
    is in no page. *)
Theorem isShapeInPage_iff (ed : Editor) (k : TLShapeId) (pageId : TLPageId) :
  store_wf ed → Acyclic ed →
  ∃ b r, returns (λ fuel, isShapeInPage fuel ed k pageId) b ∧
         returns (λ fuel, getAncestorPageId fuel ed (Some k)) r ∧
         (b = true ↔ r = Some pageId).
Proof.
  intros Hwf Hac.
  destruct (getAncestorPageId_path ed Hwf k (Hac k)) as (r & Hr & Hroot).
  destruct (isInPageSearch_path ed pageId Hwf k (Hac k) _ eq_refl) as (b & Hb & Hiff).
  exists b, r. split; [|split; [exact Hr|by rewrite Hroot]].
  unfold isShapeInPage. simpl. simpl in Hb.
  destruct (store ed !! k) as [s|] eqn:Hs.
  - destruct Hb as [n Hn]. exists (S n). intros m Hm.
    specialize (Hn (S m) ltac:(lia)). cbn [isInPageSearch] in Hn. exact Hn.
  - destruct Hb as [n Hn]. specialize (Hn (S n) ltac:(lia)). simpl in Hn.
    injection Hn as <-. apply returns_ret.
Qed.

Lemma tc_parent_irrefl (ed : Editor) k :
  Acc (λ p c, parent_of ed c p) k → ¬ tc (parent_of ed) k k.
Proof.
  induction 1 as [k _ IH]. intros Hkk.
  destruct (tc_parent_inv _ _ _ Hkk) as (s & p & Hs & Hp & [->|Hpk]).
  - apply (IH k); [by exists s|done].
  - apply (IH p); [by exists s|]. eapply tc_r; [exact Hpk|]. by exists s.
Qed.

Lemma tc_parent_step (ed : Editor) k s p a :
  store ed !! k = Some s → TLShape.parentId s = ShapeId p →
  tc (parent_of ed) k a → a = p ∨ tc (parent_of ed) p a.
Proof.
  intros Hs Hp (s' & p' & Hs' & Hp' & Hcase)%tc_parent_inv.
  assert (p' = p) as -> by congruence. destruct Hcase; auto.
Qed.

Lemma findShapeAncestor_nearest (ed : Editor) predicate :
  store_wf ed → Acyclic ed → ∀ k, Acc (λ p c, parent_of ed c p) k →
  ∃ r, returns (λ fuel, findShapeAncestor fuel ed k predicate) r ∧
    match r with
    | Some anc =>
      store ed !! TLShape.id anc = Some anc ∧
      tc (parent_of ed) k (TLShape.id anc) ∧ predicate anc = true ∧
      ∀ m sm, tc (parent_of ed) k m → tc (parent_of ed) m (TLShape.id anc) →
              store ed !! m = Some sm → predicate sm = false
    | None =>
      ∀ a sa, tc (parent_of ed) k a → store ed !! a = Some sa → predicate sa = false
    end.
Proof.
  intros Hwf Hac k Hacc. induction Hacc as [k _ IH].
  destruct (store ed !! k) as [s|] eqn:Hs.
  - destruct (TLShape.parentId s) as [pg|q] eqn:Hq.
    + exists None. split.
      * exists 1. intros [|n] ?; [lia|]. simpl. by rewrite Hs, Hq.
      * intros a sa (s' & p & Hs' & Hp & _)%tc_parent_inv. congruence.
    + destruct (store ed !! q) as [ps|] eqn:Hps.
      * pose proof (Hwf _ _ Hps) as Hidq. simpl in Hidq.
        destruct (predicate ps) eqn:Hpred.
        -- exists (Some ps). split.
           ++ exists 1. intros [|n] ?; [lia|]. simpl. by rewrite Hs, Hq, Hps, Hpred.
           ++ rewrite Hidq. split_and!; [done| |done|].
              ** apply tc_once. by exists s.
              ** intros m sm Hkm Hmq _. exfalso.
                 apply (tc_parent_irrefl ed q (Hac q)).
                 destruct (tc_parent_step _ _ _ _ _ Hs Hq Hkm) as [->|Hqm]; [done|].
                 by etrans.
        -- destruct (IH q ltac:(by exists s)) as (r & Hr & Hspec). exists r. split.
           ++ eapply returns_step; [|exact Hr]. intros n. simpl.
              by rewrite Hs, Hq, Hps, Hpred, Hidq.
           ++ destruct r as [anc|].
              ** destruct Hspec as (Hanc & Htc & Hp & Hbetween). split_and!; [done| |done|].
                 --- eapply tc_l; [|exact Htc]. by exists s.
                 --- intros m sm Hkm Hma Hsm.
                     destruct (tc_parent_step _ _ _ _ _ Hs Hq Hkm) as [->|Hqm].
                     +++ congruence.
                     +++ by apply (Hbetween m sm).
              ** intros a sa Hka Hsa.
                 destruct (tc_parent_step _ _ _ _ _ Hs Hq Hka) as [->|Hqa].
                 --- congruence.
                 --- by apply (Hspec a sa).
      * exists None. split.
        -- exists 1. intros [|n] ?; [lia|]. simpl. by rewrite Hs, Hq, Hps.
        -- intros a sa Hka Hsa.
           destruct (tc_parent_step _ _ _ _ _ Hs Hq Hka) as [->|Hqa]; [congruence|].
           apply tc_parent_has_record in Hqa as [? ?]. congruence.
  - exists None. split.
    + exists 1. intros [|n] ?; [lia|]. simpl. by rewrite Hs.
    + intros a sa [? ?]%tc_parent_has_record. congruence.
Qed.

(** [findShapeAncestor] answers the nearest shape above the given one
    whose record satisfies the predicate: no record between the two
    satisfies it; and it answers [undefined] exactly when no record above
    the shape does. *)
Theorem findShapeAncestor_spec (ed : Editor) (k : TLShapeId)
    (predicate : TLShape.t → bool) :
  store_wf ed → Acyclic ed →
  ∃ r, returns (λ fuel, findShapeAncestor fuel ed k predicate) r ∧
    match r with
    | Some anc =>
      store ed !! TLShape.id anc = Some anc ∧
      tc (parent_of ed) k (TLShape.id anc) ∧ predicate anc = true ∧
      ∀ m sm, tc (parent_of ed) k m → tc (parent_of ed) m (TLShape.id anc) →
              store ed !! m = Some sm → predicate sm = false
    | None =>
      ∀ a sa, tc (parent_of ed) k a → store ed !! a = Some sa → predicate sa = false
    end.
Proof. intros Hwf Hac. exact (findShapeAncestor_nearest ed predicate Hwf Hac k (Hac k)). Qed.

(** [isAncestorSelected] answers [true] exactly when the record of a
    shape above the given one is among the selected shapes; the shape
    itself being selected does not count. *)
Theorem isAncestorSelected_iff (ed : Editor) (selectedShapeIds : list TLShapeId)
    (k : TLShapeId) :
  store_wf ed → Acyclic ed →
  ∃ b, returns (λ fuel, isAncestorSelected fuel ed selectedShapeIds k) b ∧
    (b = true ↔ ∃ a, tc (parent_of ed) k a ∧ is_Some (store ed !! a) ∧
                     a ∈ selectedShapeIds).
Proof.
  intros Hwf Hac. unfold isAncestorSelected, getShape.
  destruct (store ed !! k) as [s|] eqn:Hs.
  - rewrite (Hwf _ _ Hs).
    destruct (findShapeAncestor_nearest ed
                (λ parent, bool_decide (TLShape.id parent ∈ selectedShapeIds))
                Hwf Hac k (Hac k)) as (r & Hr & Hspec).
    exists (bool_decide (is_Some r)). split.
    + eapply (returns_bind _ (λ _ r, Ret (bool_decide (is_Some r)))); [exact Hr|].
      apply returns_ret.
    + rewrite bool_decide_eq_true. destruct r as [anc|].
      * destruct Hspec as (Hanc & Htc & Hsel & _). apply bool_decide_eq_true in Hsel.
        split; [|by eauto]. intros _. exists (TLShape.id anc). by rewrite Hanc.
      * split; [by intros [? ?]|]. intros (a & Htc & [sa Hsa] & Hsel). exfalso.
        specialize (Hspec a sa Htc Hsa). apply bool_decide_eq_false in Hspec.
        apply Hspec. by rewrite (Hwf _ _ Hsa).
  - exists false. split; [apply returns_ret|]. split; [done|].
    intros (a & [? ?]%tc_parent_has_record & _). congruence.
Qed.

(** [getShapeParentTransform] answers the page transform of the parent
    shape, the identity for a shape on a page; and the page transform of
    a shape whose parent is a shape is its parent transform composed with
    its local transform, whether or not the parent has a record. *)
Theorem getShapeParentTransform_spec (ed : Editor) (k : TLShapeId) (s : TLShape.t) :
  store_wf ed → Acyclic ed → store ed !! k = Some s →
  ∃ pt m, returns (λ fuel, getShapeParentTransform fuel ed k) pt ∧
          returns (λ fuel, getShapePageTransform fuel ed k) m ∧
    match TLShape.parentId s with
    | PageId _ => pt = Mat_Identity ∧ m = localTransformOf s
    | ShapeId p =>
      returns (λ fuel, getShapePageTransform fuel ed p) pt ∧
      m = Mat_Compose pt (localTransformOf s)
    end.
Proof.
  intros Hwf Hac Hs. unfold getShapeParentTransform, getShape. rewrite Hs.
  destruct (TLShape.parentId s) as [pg|p] eqn:Hp.
  - exists Mat_Identity, (localTransformOf s). split; [apply returns_ret|]. split; [|done].
    apply (getShapePageTransform_returns ed k 1 (Some (localTransformOf s))).
    simpl. rewrite Hs, Hp, (getShapeLocalTransform_wf _ _ _ Hwf Hs). done.
  - destruct (pageTransformCache_terminates ed Hwf p (Hac p)) as (n & r & Hr).
    exists (default Mat_Identity r), (Mat_Compose (default Mat_Identity r) (localTransformOf s)).
    split; [exact (getShapePageTransform_returns _ _ _ _ Hr)|].
    split; [|split; [exact (getShapePageTransform_returns _ _ _ _ Hr)|done]].
    apply (getShapePageTransform_returns ed k (S n)
             (Some (Mat_Compose (default Mat_Identity r) (localTransformOf s)))).
    simpl. rewrite Hs, Hp, Hr. unfold_outcome.
    by rewrite (getShapeLocalTransform_wf _ _ _ Hwf Hs).
Qed.

(** The records above [k], nearest first, and whether the walk ends on a
    page. *)
Inductive chainAbove (ed : Editor) : TLShapeId → list TLShape.t → bool → Prop :=
| chainAbove_page k s pg :
    store ed !! k = Some s → TLShape.parentId s = PageId pg → chainAbove ed k [] true
| chainAbove_missing k :
    store ed !! k = None → chainAbove ed k [] false
| chainAbove_orphan k s p :
    store ed !! k = Some s → TLShape.parentId s = ShapeId p → store ed !! p = None →
    chainAbove ed k [] false
| chainAbove_step k s p ps up onPage :
    store ed !! k = Some s → TLShape.parentId s = ShapeId p → store ed !! p = Some ps →
    chainAbove ed p up onPage → chainAbove ed k (ps :: up) onPage.

Lemma chainAbove_elem (ed : Editor) k up onPage :
  store_wf ed → chainAbove ed k up onPage →
  ∀ sa, sa ∈ up ↔ tc (parent_of ed) k (TLShape.id sa) ∧ store ed !! TLShape.id sa = Some sa.
Proof.
  intros Hwf. induction 1 as [k s pg Hs Hp|k Hs|k s p Hs Hp Hps|k s p ps up onPage Hs Hp Hps _ IH];
    intros sa.
  - split; [by intros ?%elem_of_nil|]. intros [(s' & p & Hs' & Hp' & _)%tc_parent_inv _]. congruence.
  - split; [by intros ?%elem_of_nil|]. intros [[? ?]%tc_parent_has_record _]. congruence.
  - split; [by intros ?%elem_of_nil|]. intros [Htc Hsa]. exfalso.
    destruct (tc_parent_step _ _ _ _ _ Hs Hp Htc) as [Heq|Hpa]; [congruence|].
    apply tc_parent_has_record in Hpa as [? ?]. congruence.
  - pose proof (Hwf _ _ Hps) as Hid. simpl in Hid.
    rewrite elem_of_cons, IH. split.
    + intros [->|[Htc Hsa]].
      * rewrite Hid. split; [|done]. apply tc_once. by exists s.
      * split; [|done]. eapply tc_l; [|exact Htc]. by exists s.
    + intros [Htc Hsa]. destruct (tc_parent_step _ _ _ _ _ Hs Hp Htc) as [Heq|Hpa].
      * left. congruence.
      * by right.
Qed.

Lemma chainAbove_order (ed : Editor) k up onPage :
  store_wf ed → chainAbove ed k up onPage →
  ∀ i j si sj, up !! i = Some si → up !! j = Some sj → i < j →
    tc (parent_of ed) (TLShape.id si) (TLShape.id sj).
Proof.
  intros Hwf. induction 1 as [| | |k s p ps up onPage Hs Hp Hps Hch IH]; intros i j si sj Hi Hj Hlt;
    try done.
  destruct j as [|j]; [lia|]. simpl in Hj. destruct i as [|i]; simpl in Hi.
  - injection Hi as <-. rewrite (Hwf _ _ Hps).
    apply (chainAbove_elem ed p up onPage Hwf Hch). by eapply list_elem_of_lookup_2.
  - apply (IH i j); [done..|lia].
Qed.

Lemma chainAbove_onPage (ed : Editor) k up onPage :
  chainAbove ed k up onPage → onPage = true ↔ ∃ pg, rootPage ed k pg.
Proof.
  induction 1 as [k s pg Hs Hp|k Hs|k s p Hs Hp Hps|k s p ps up onPage Hs Hp Hps _ IH].
  - split; [|done]. intros _. exists pg. by apply (rootPage_here _ _ _ _ _ Hs Hp).
  - split; [done|]. intros [pg Hr]. by apply rootPage_missing in Hr.
  - split; [done|]. intros [pg Hr]. apply (rootPage_step _ _ _ _ _ Hs Hp) in Hr.
    by apply rootPage_missing in Hr.
  - rewrite IH. by setoid_rewrite (rootPage_step _ _ _ _ _ Hs Hp).
Qed.

Lemma getShapeAncestors_chain (ed : Editor) :
  store_wf ed → ∀ k, Acc (λ p c, parent_of ed c p) k → ∀ acc,
  ∃ up onPage, chainAbove ed k up onPage ∧
    returns (λ fuel, getShapeAncestors fuel ed k acc)
            (if onPage : bool then reverse (acc ++ up) else acc ++ up).
Proof.
  intros Hwf k Hacc. induction Hacc as [k _ IH]. intros acc.
  destruct (store ed !! k) as [s|] eqn:Hs.
  - destruct (TLShape.parentId s) as [pg|p] eqn:Hp.
    + exists [], true. split; [by eapply chainAbove_page|].
      exists 1. intros [|n] ?; [lia|]. simpl. by rewrite Hs, Hp, app_nil_r.
    + destruct (store ed !! p) as [ps|] eqn:Hps.
      * destruct (IH p ltac:(by exists s) (acc ++ [ps])) as (up & onPage & Hch & Hret).
        exists (ps :: up), onPage. split; [by eapply chainAbove_step|].
        rewrite (cons_middle ps acc up), (assoc_L (++)).
        eapply returns_step; [|exact Hret]. intros n. simpl.
        by rewrite Hs, Hp, Hps, (Hwf _ _ Hps).
      * exists [], false. split; [by eapply chainAbove_orphan|].
        exists 1. intros [|n] ?; [lia|]. simpl. by rewrite Hs, Hp, Hps, app_nil_r.
  - exists [], false. split; [by apply chainAbove_missing|].
    exists 1. intros [|n] ?; [lia|]. simpl. by rewrite Hs, app_nil_r.
Qed.

(** [getShapeAncestors] answers the records above the shape, each once.
    They come outermost first when the walk up ends on a page; when it
    ends at a parent that has no record the list is left as it was
    collected, nearest first. *)
Theorem getShapeAncestors_spec (ed : Editor) (k : TLShapeId) :
  store_wf ed → Acyclic ed →
  ∃ l r, returns (λ fuel, getShapeAncestors fuel ed k []) l ∧
         returns (λ fuel, getAncestorPageId fuel ed (Some k)) r ∧
    (∀ sa, sa ∈ l ↔
       tc (parent_of ed) k (TLShape.id sa) ∧ store ed !! TLShape.id sa = Some sa) ∧
    NoDup l ∧
    ∀ i j si sj, l !! i = Some si → l !! j = Some sj → i < j →
      match r with
      | Some _ => tc (parent_of ed) (TLShape.id sj) (TLShape.id si)
      | None => tc (parent_of ed) (TLShape.id si) (TLShape.id sj)
      end.
Proof.
  intros Hwf Hac.
  destruct (getShapeAncestors_chain ed Hwf k (Hac k) []) as (up & onPage & Hch & Hret).
  destruct (getAncestorPageId_path ed Hwf k (Hac k)) as (r & Hr & Hroot).
  pose proof (chainAbove_onPage _ _ _ _ Hch) as Hpage.
  pose proof (chainAbove_elem _ _ _ _ Hwf Hch) as Helem.
  pose proof (chainAbove_order _ _ _ _ Hwf Hch) as Horder.
  assert (Hnodup : NoDup up).
  { apply NoDup_alt. intros i j x Hi Hj.
    destruct (Nat.lt_trichotomy i j) as [Hlt|[Heq|Hlt]]; [|done|]; exfalso;
      apply (tc_parent_irrefl ed (TLShape.id x) (Hac _)).
    - exact (Horder _ _ _ _ Hi Hj Hlt).
    - exact (Horder _ _ _ _ Hj Hi Hlt). }
  simpl in Hret. destruct onPage.
  - destruct (proj1 Hpage eq_refl) as [pg Hpg]. apply Hroot in Hpg as ->.
    exists (reverse up), (Some pg). split_and!; [done..| | |].
    + intros sa. by rewrite elem_of_reverse.
    + by rewrite reverse_Permutation.
    + intros i j si sj Hi Hj Hlt.
      pose proof (lookup_lt_Some _ _ _ Hi) as Hli.
      pose proof (lookup_lt_Some _ _ _ Hj) as Hlj.
      rewrite length_reverse in Hli, Hlj.
      rewrite reverse_lookup in Hi by done. rewrite reverse_lookup in Hj by done.
      apply (Horder _ _ _ _ Hj Hi). lia.
  - assert (r = None) as ->.
    { destruct r as [pg|]; [|done]. assert (false = true); [|done].
      apply Hpage. exists pg. by apply Hroot. }
    exists up, None. split_and!; done.
Qed.

End AncestorProperties.


(* ------------------------------------------------------------------ *)
(** ** Writes and locks *)

Section LockProperties.
Context `{MatOps} `{!IndexOps} `{!ShapeUtils}.
Hypothesis Hhooks : hooks_keep_structure.

(** The shape, or a shape on the way up from it, is locked. *)
Definition lockedAbove (ed : Editor) (k : TLShapeId) : Prop :=
  ∃ a sa, onPathUp ed k a ∧ store ed !! a = Some sa ∧ TLShape.isLocked sa = true.

(** The partials that pass the lock check of [updateShapes]. *)
Definition passesLockCheck (ed : Editor) (partial : TLShapePartial.t) : Prop :=
  is_Some (store ed !! TLShapePartial.id partial) ∧
  (is_Some (TLShapePartial.isLocked partial) ∨ ¬ lockedAbove ed (TLShapePartial.id partial)).

Lemma compactedPartials_kept (ed : Editor) partials :
  store_wf ed → Acyclic ed →
  ∃ kept, returns (λ fuel, compactedPartials fuel ed partials) kept ∧
    ∀ p, p ∈ kept ↔ p ∈ partials ∧ passesLockCheck ed p.
Proof.
  intros Hwf Hac. induction partials as [|partial rest IH].
  { exists []. split; [apply returns_ret|]. intros p. split; [by intros ?%elem_of_nil|].
    by intros [?%elem_of_nil _]. }
  destruct IH as (kept & Hret & Hkept).
  destruct (store ed !! TLShapePartial.id partial) as [shape|] eqn:Hs.
  - destruct (isShapeOrAncestorLocked_path ed Hwf _ (Hac _) shape Hs) as (b & Hb & Hiff).
    fold (lockedAbove ed (TLShapePartial.id partial)) in Hiff.
    assert (Hrun : ∀ r,
      returns (λ fuel,
        if b && negb (bool_decide (is_Some (TLShapePartial.isLocked partial)))
        then compactedPartials fuel ed rest
        else kept ← compactedPartials fuel ed rest; Ret (partial :: kept)) r →
      returns (λ fuel, compactedPartials fuel ed (partial :: rest)) r).
    { intros r Hr.
      apply (returns_ext (λ fuel,
        locked ← isShapeOrAncestorLocked fuel ed (Some shape);
        if (locked : bool) && negb (bool_decide (is_Some (TLShapePartial.isLocked partial)))
        then compactedPartials fuel ed rest
        else kept ← compactedPartials fuel ed rest; Ret (partial :: kept))).
      { intros n. simpl. by rewrite Hs. }
      by eapply (returns_bind _ (λ fuel (locked : bool),
        if locked && negb (bool_decide (is_Some (TLShapePartial.isLocked partial)))
        then compactedPartials fuel ed rest
        else kept ← compactedPartials fuel ed rest; Ret (partial :: kept))); [exact Hb|]. }
    destruct (b && negb (bool_decide (is_Some (TLShapePartial.isLocked partial)))) eqn:Hskip.
    + apply andb_true_iff in Hskip as [-> Hkey]. apply negb_true_iff in Hkey.
      apply bool_decide_eq_false in Hkey.
      exists kept. split; [by apply Hrun|]. intros p. rewrite Hkept, elem_of_cons.
      split; [tauto|]. intros [[->|Hin] Hpass]; [|done]. exfalso.
      destruct Hpass as [_ [Hk|Hnot]]; [done|]. apply Hnot. by apply Hiff.
    + exists (partial :: kept). split.
      * apply Hrun. eapply (returns_bind _ (λ _ kept, Ret (partial :: kept))); [exact Hret|].
        apply returns_ret.
      * intros p. rewrite !elem_of_cons, Hkept. split; [|tauto].
        intros [->|[Hin Hpass]]; [|tauto]. split; [by left|]. split; [eauto|].
        apply andb_false_iff in Hskip as [->|Hkey].
        -- right. intros Hl. by apply Hiff in Hl.
        -- left. apply negb_false_iff in Hkey. by apply bool_decide_eq_true in Hkey.
  - exists kept. split.
    + apply (returns_ext (λ fuel, compactedPartials fuel ed rest)); [|exact Hret].
      intros n. simpl. by rewrite Hs.
    + intros p. rewrite Hkept, elem_of_cons. split; [tauto|].
      intros [[->|Hin] Hpass]; [|done]. destruct Hpass as [[? Hx] _]. congruence.
Qed.

Lemma updateShapes_run (ed : Editor) partials :
  store_wf ed → Acyclic ed →
  ∃ kept, returns (λ fuel, updateShapes fuel ed partials) (_updateShapes ed kept) ∧
    ∀ p, p ∈ kept ↔ p ∈ partials ∧ passesLockCheck ed p.
Proof.
  intros Hwf Hac.
  destruct (compactedPartials_kept ed partials Hwf Hac) as (kept & Hret & Hkept).
  exists kept. split; [|done]. unfold updateShapes.
  eapply (returns_bind _ (λ _ kept, Ret (_updateShapes ed kept))); [exact Hret|].
  apply returns_ret.
Qed.


Lemma lockPartials_written (ed : Editor) (b : bool) (shapes : list TLShape.t) k s :
  store_wf ed → Acyclic ed → isReadonly ed = false →
  (∀ shape, shape ∈ shapes → store ed !! TLShape.id shape = Some shape) →
  store ed !! k = Some s →
  ∃ ed', returns (λ fuel, updateShapes fuel ed (lockPartial b <$> shapes)) ed' ∧
    ∃ r, store ed' !! k = Some r ∧ TLShape.props r = TLShape.props s ∧
         TLShape.parentId r = TLShape.parentId s ∧
         (s ∈ shapes → TLShape.isLocked r = b) ∧ (s ∉ shapes → r = s).
Proof.
  intros Hwf Hac Hro Hshapes Hs.
  destruct (updateShapes_run ed (lockPartial b <$> shapes) Hwf Hac) as (kept & Hret & Hkept).
  exists (_updateShapes ed kept). split; [exact Hret|].
  destruct (proj2 (_updateShapes_is_Some Hhooks ed kept k Hwf)) as [r Hr]; [eauto|].
  exists r. split; [done|].
  destruct (_updateShapes_lookup Hhooks _ _ _ _ Hwf Hr) as (s' & Hs' & Hid & Hprops & Hcase).
  assert (s' = s) as -> by congruence. split; [done|].
  assert (Hmine : ∀ p, p ∈ kept → TLShapePartial.id p = k →
            p = lockPartial b s ∧ s ∈ shapes).
  { intros p [(shape & -> & Hin)%list_elem_of_fmap _]%Hkept Hpid. simpl in Hpid.
    pose proof (Hshapes _ Hin) as Hsh. rewrite Hpid, Hs in Hsh. injection Hsh as <-. done. }
  split_and!.
  - destruct Hcase as [->|(p & Hp & Hpid & Hpar & _)]; [done|].
    destruct (Hmine p Hp Hpid) as [-> _]. by rewrite Hpar.
  - intros Hin.
    assert (Hp : lockPartial b s ∈ kept).
    { apply Hkept. split; [apply list_elem_of_fmap; eauto|].
      split; simpl; [rewrite (Hwf _ _ Hs); eauto|left; eauto]. }
    destruct (_updateShapes_lookup_written Hhooks ed kept k s (lockPartial b s) Hwf Hro Hs Hp)
      as (r' & p' & Hr' & Hp' & Hpid' & _ & Hlock); [exact (Hwf _ _ Hs)|].
    assert (r' = r) as -> by congruence.
    destruct (Hmine p' Hp' Hpid') as [-> _]. by rewrite Hlock.
  - intros Hnot. destruct Hcase as [->|(p & Hp & Hpid & _)]; [done|].
    by destruct (Hmine p Hp Hpid) as [_ ?].
Qed.


End LockProperties.


(* ------------------------------------------------------------------ *)
(** ** What the hit test can return *)

Section HitProperties.
Context `{EditorReads}.

(** [getShapeAtPoint] only returns shapes that pass its first filter,
    also when the answer is a pending candidate: a shape of the sorted
    page shapes that is not a group, whose mask, if it has one, contains
    the point, and that the [filter] option accepts. *)
Theorem getShapeAtPoint_candidates (point : Vec.t) (opts : HitOptions.t) (hit : TLShape.t) :
  getShapeAtPoint point opts = Ret (Some hit) →
  hit ∈ (if HitOptions.renderingOnly opts then getCurrentPageRenderingShapesSorted
         else getCurrentPageShapesSorted) ∧
  TLShape.type hit ≠ GroupType ∧
  (∀ pageMask, getShapeMask (TLShape.id hit) = Some pageMask →
               pointInPolygon point pageMask = true) ∧
  (∀ f, HitOptions.filter opts = Some f → f hit = true).
Proof.
  intros [Hin _]%getShapeAtPoint_hit. unfold shapesToCheck in Hin.
  apply list_elem_of_filter in Hin as [Hcheck Hin]. split; [done|].
  unfold toCheck in Hcheck. case_bool_decide as Hgroup; [done|]. split; [done|].
  destruct (getShapeMask (TLShape.id hit)) as [pageMask|].
  - destruct (pointInPolygon point pageMask) eqn:Hp; [|done]. split.
    + by intros ? [= <-].
    + intros f Hf. rewrite Hf in Hcheck. simpl in Hcheck. by destruct (f hit).
  - split; [done|]. intros f Hf. rewrite Hf in Hcheck. simpl in Hcheck. by destruct (f hit).
Qed.

(** A shape that ends the search when its turn comes: a closed filled
    shape with the point in reach, or a frame with the point within the
    margin of its edge or inside it. *)
Definition occludes (opts : HitOptions.t) (point : Vec.t) (shape : TLShape.t) : bool :=
  let geometry := getShapeGeometry (TLShape.id shape) in
  let p := getPointInShapeSpace (TLShape.id shape) point in
  bool_decide (labelHitAt point shape = Some false) &&
  if bool_decide (TLShape.type shape = FrameType) then
    number_leb (number_abs (Geometry2d.distanceToPoint (geometryOf geometry) p
                              (HitOptions.hitInside opts)))
               (HitOptions.margin opts)
    || Geometry2d.hitTestPoint (geometryOf geometry) p (Finite 0) true
  else
    Geometry2d.isClosed (geometryOf geometry)
    && number_leb (distanceOf opts point shape) (HitOptions.margin opts)
    && bool_decide (countsAsFilled geometry = Some true).

Lemma checkShape_occludes opts point state shape :
  occludes opts point shape = true →
  ∃ hit, checkShape opts point state shape = Return hit ∧
         ∀ h, hit = Some h → h = shape ∨ tracked state h.
Proof.
  unfold occludes, labelHitAt, distanceOf, checkShape.
  rewrite andb_true_iff, bool_decide_eq_true. intros [-> Hocc].
  destruct (bool_decide (TLShape.type shape = FrameType)).
  - destruct (number_leb _ _).
    + eexists. split; [done|]. unfold orElse, tracked.
      intros h. destruct (inMarginClosestToEdgeHit state); intros [= <-]; auto.
    + simpl in Hocc. rewrite Hocc. eexists. split; [done|]. unfold orElse, tracked.
      intros h. destruct (inMarginClosestToEdgeHit state), (inHollowSmallestAreaHit state),
        (HitOptions.hitFrameInside opts); intros [= <-]; auto.
  - rewrite !andb_true_iff, bool_decide_eq_true in Hocc. destruct Hocc as [[-> ->] ->].
    eexists. split; [done|]. unfold orElse, tracked.
    intros h. destruct (inMarginClosestToEdgeHit state); intros [= <-]; auto.
Qed.




End HitProperties.


(* ------------------------------------------------------------------ *)
(** ** Cleaning up the page state *)

Section PageStateProperties.
Import TLInstancePageState.

Lemma stillInPage_length (removed : gset TLShapeId) (ids : list TLShapeId) :
  length (stillInPage removed ids) = length ids → stillInPage removed ids = ids.
Proof.
  unfold stillInPage. induction ids as [|id ids IH]; [done|].
  rewrite filter_cons. destruct (decide (id ∉ removed)); simpl.
  - intros [= Hl]. by rewrite IH.
  - intros Hl. pose proof (length_filter (λ id, id ∉ removed) ids). lia.
Qed.

Lemma stillInPage_elem (removed : gset TLShapeId) (ids : list TLShapeId) id :
  id ∈ stillInPage removed ids ↔ id ∈ ids ∧ id ∉ removed.
Proof. unfold stillInPage. rewrite list_elem_of_filter. tauto. Qed.

(** The page state with every mention of a removed shape taken out. *)
Definition cleaned (prev : t) (removed : gset TLShapeId) : t :=
  let clear (id : option TLShapeId) := if noLongerInPage removed id then None else id in
  mk (pageId prev)
     (stillInPage removed (selectedShapeIds prev))
     (stillInPage removed (erasingShapeIds prev))
     (clear (hoveredShapeId prev))
     (clear (editingShapeId prev))
     (stillInPage removed (hintingShapeIds prev))
     (clear (focusedGroupId prev)).

Lemma cleanupInstancePageState_cleaned (prev : t) (removed : gset TLShapeId) :
  cleanupInstancePageState prev removed =
  if decide (cleaned prev removed = prev) then None else Some (cleaned prev removed).
Proof.
  destruct prev as [pg sel era hov edi hin foc].
  unfold cleanupInstancePageState, cleaned.
  assert (Hlen : ∀ ids,
    bool_decide (length (stillInPage removed ids) ≠ length ids)
    = bool_decide (stillInPage removed ids ≠ ids)).
  { intros ids. apply bool_decide_ext. split; [intros Hl Heq; by rewrite Heq in Hl|].
    intros Hne Hl. by apply Hne, stillInPage_length. }
  assert (Hclear : ∀ id, noLongerInPage removed id = true → id ≠ None).
  { by intros [id|] Hid. }
  simpl. rewrite !Hlen.
  destruct (decide (stillInPage removed sel = sel)) as [Esel|Nsel];
    [rewrite (bool_decide_eq_false_2 (stillInPage removed sel ≠ sel)) by auto
    |rewrite (bool_decide_eq_true_2 (stillInPage removed sel ≠ sel)) by auto];
  (destruct (decide (stillInPage removed era = era)) as [Eera|Nera];
    [rewrite (bool_decide_eq_false_2 (stillInPage removed era ≠ era)) by auto
    |rewrite (bool_decide_eq_true_2 (stillInPage removed era ≠ era)) by auto]);
  (destruct (decide (stillInPage removed hin = hin)) as [Ehin|Nhin];
    [rewrite (bool_decide_eq_false_2 (stillInPage removed hin ≠ hin)) by auto
    |rewrite (bool_decide_eq_true_2 (stillInPage removed hin ≠ hin)) by auto]);
  destruct (noLongerInPage removed hov) eqn:Hhov;
  destruct (noLongerInPage removed edi) eqn:Hedi;
  destruct (noLongerInPage removed foc) eqn:Hfoc;
  repeat match goal with
  | Hx : noLongerInPage removed _ = true |- _ => apply Hclear in Hx
  end;
  simpl; unfold id; simpl; rewrite ?Esel, ?Eera, ?Ehin;
  (case_decide as Heq;
   first [ reflexivity
         | exfalso; injection Heq; intros; congruence
         | exfalso; apply Heq; reflexivity ]).
Qed.

Lemma cleaned_mentions (prev : t) (removed : gset TLShapeId) id :
  EmptyString ∉ removed →
  mentions (cleaned prev removed) id ↔ mentions prev id ∧ id ∉ removed.
Proof.
  intros Hempty. unfold mentions, cleaned. cbn [selectedShapeIds erasingShapeIds
    hoveredShapeId editingShapeId hintingShapeIds focusedGroupId].
  rewrite !stillInPage_elem.
  assert (Hclear : ∀ o : option TLShapeId,
    (if noLongerInPage removed o then None else o) = Some id ↔ o = Some id ∧ id ∉ removed).
  { intros [x|]; simpl; [|by split; [|intros [? _]]].
    destruct (decide (x = EmptyString)) as [->|Hx].
    - rewrite bool_decide_eq_true_2 by done. simpl. split; [|tauto].
      intros [= <-]. done.
    - rewrite (bool_decide_eq_false_2 (x = EmptyString)) by done. simpl.
      case_bool_decide as Hin; simpl.
      + split; [done|]. intros [[= ->] Hnot]. done.
      + split; [|tauto]. intros [= ->]. done. }
  rewrite !Hclear. tauto.
Qed.

Lemma cleaned_idemp (prev : t) (removed : gset TLShapeId) :
  cleaned (cleaned prev removed) removed = cleaned prev removed.
Proof.
  unfold cleaned. cbn [pageId selectedShapeIds erasingShapeIds hoveredShapeId editingShapeId
    hintingShapeIds focusedGroupId].
  assert (Hf : ∀ ids, stillInPage removed (stillInPage removed ids) = stillInPage removed ids).
  { intros ids. unfold stillInPage. induction ids as [|x ids IH]; [done|].
    rewrite filter_cons. destruct (decide (x ∉ removed)); [|done].
    rewrite filter_cons, decide_True by done. by rewrite IH. }
  assert (Hc : ∀ o : option TLShapeId,
    (if noLongerInPage removed (if noLongerInPage removed o then None else o) then None
     else (if noLongerInPage removed o then None else o))
    = (if noLongerInPage removed o then None else o)).
  { intros o. destruct (noLongerInPage removed o) eqn:Ho; [done|]. by rewrite Ho. }
  by rewrite !Hf, !Hc.
Qed.

(** [cleanupInstancePageState] answers [null] exactly when the page
    state mentions none of the removed shapes; otherwise the state it
    answers is for the same page, mentions exactly the shapes mentioned
    before that are not removed, keeps the selection in order, and needs
    no further cleaning. *)
Theorem cleanupInstancePageState_spec (prev : t) (removed : gset TLShapeId) :
  EmptyString ∉ removed →
  match cleanupInstancePageState prev removed with
  | None => ∀ id, id ∈ removed → ¬ mentions prev id
  | Some next =>
    (∃ id, id ∈ removed ∧ mentions prev id) ∧
    pageId next = pageId prev ∧
    selectedShapeIds next = filter (λ id, id ∉ removed) (selectedShapeIds prev) ∧
    (∀ id, mentions next id ↔ mentions prev id ∧ id ∉ removed) ∧
    cleanupInstancePageState next removed = None
  end.
Proof.
  intros Hempty. rewrite cleanupInstancePageState_cleaned.
  destruct (decide (cleaned prev removed = prev)) as [Heq|Hne].
  - intros id Hin Hm. rewrite <- Heq in Hm. apply (cleaned_mentions _ _ _ Hempty) in Hm. tauto.
  - split_and!; [|done..| |].
    + apply dec_stable. intros Hnone. apply Hne.
      assert (Hkeep : ∀ id, mentions prev id → id ∉ removed).
      { intros id Hm Hin. apply Hnone. by exists id. }
      destruct prev as [pg sel era hov edi hin foc]. unfold cleaned, mentions in *.
      cbn [pageId selectedShapeIds erasingShapeIds hoveredShapeId editingShapeId
           hintingShapeIds focusedGroupId] in *.
      assert (Hf : ∀ ids, (∀ id, id ∈ ids → id ∉ removed) → stillInPage removed ids = ids).
      { intros ids Hall. unfold stillInPage. induction ids as [|x ids IH]; [done|].
        rewrite filter_cons, decide_True by (apply Hall; left).
        rewrite IH; [done|]. intros y Hy. apply Hall. by right. }
      assert (Hc : ∀ o : option TLShapeId, (∀ id, o = Some id → id ∉ removed) →
                (if noLongerInPage removed o then None else o) = o).
      { intros [x|] Hx; [|done]. simpl. rewrite (bool_decide_eq_false_2 (x ∈ removed)) by auto.
        by rewrite andb_false_r. }
      rewrite (Hf sel), (Hf era), (Hf hin), (Hc hov), (Hc edi), (Hc foc)
        by (intros; apply Hkeep; tauto).
      done.
    + intros id. by apply cleaned_mentions.
    + rewrite cleanupInstancePageState_cleaned, cleaned_idemp. by rewrite decide_True.
Qed.

End PageStateProperties.


(* ------------------------------------------------------------------ *)
(** ** The walks down the tree *)

Section ChildFacts.
Context `{Scalar}.

Lemma store_ids (ed : Editor) :
  store_wf ed → TLShape.id <$> (map_to_list (store ed)).*2 = (map_to_list (store ed)).*1.
Proof.
  intros Hwf. rewrite <- list_fmap_compose. apply Forall_fmap_ext, Forall_forall.
  intros [k s] Hin%elem_of_map_to_list. exact (Hwf _ _ Hin).
Qed.

(** The children of a parent are the shapes whose record names it. *)
Lemma children_elem (ed : Editor) (parent : TLParentId) k :
  store_wf ed →
  k ∈ getSortedChildIdsForParent ed parent ↔
  ∃ s, store ed !! k = Some s ∧ TLShape.parentId s = parent.
Proof.
  intros Hwf. unfold getSortedChildIdsForParent.
  rewrite list_elem_of_fmap. setoid_rewrite merge_sort_Permutation.
  setoid_rewrite list_elem_of_filter. setoid_rewrite list_elem_of_fmap. split.
  - intros (s & -> & Hp & [k' s'] & -> & Hin%elem_of_map_to_list). simpl in *.
    exists s'. by rewrite (Hwf _ _ Hin).
  - intros (s & Hs & Hp). exists s. split; [by rewrite (Hwf _ _ Hs)|]. split; [done|].
    exists (k, s). split; [done|]. by apply elem_of_map_to_list.
Qed.

Lemma children_NoDup (ed : Editor) (parent : TLParentId) :
  store_wf ed → NoDup (getSortedChildIdsForParent ed parent).
Proof.
  intros Hwf. unfold getSortedChildIdsForParent. rewrite merge_sort_Permutation.
  apply (sublist_NoDup _ (TLShape.id <$> (map_to_list (store ed)).*2)).
  - rewrite (store_ids ed Hwf). apply NoDup_fst_map_to_list.
  - apply fmap_sublist, sublist_filter.
Qed.

Lemma children_parent_of (ed : Editor) (p c : TLShapeId) :
  store_wf ed → c ∈ getSortedChildIdsForParent ed (ShapeId p) ↔ parent_of ed c p.
Proof. intros Hwf. by rewrite children_elem. Qed.

Lemma tc_parent_flip (ed : Editor) x y :
  tc (flip (parent_of ed)) x y ↔ tc (parent_of ed) y x.
Proof.
  split.
  - induction 1 as [x y Hxy|x y z Hxy _ IH]; [by apply tc_once|].
    eapply tc_r; [exact IH|exact Hxy].
  - induction 1 as [x y Hxy|x y z Hxy _ IH]; [by apply tc_once|].
    eapply tc_r; [exact IH|exact Hxy].
Qed.

(** In a forest every walk down ends as well: the store is finite. *)
Lemma walk_down_ends (ed : Editor) :
  Acyclic ed → ∀ k, Acc (parent_of ed) k.
Proof.
  intros Hac k. change (sn (flip (parent_of ed)) k). apply tc_finite_sn.
  - intros x Hx. apply tc_parent_flip in Hx. exact (tc_parent_irrefl ed x (Hac x) Hx).
  - exists (map_to_list (store ed)).*1. intros y Hy. apply tc_parent_flip in Hy.
    apply tc_parent_has_record in Hy as [s Hs].
    apply list_elem_of_fmap. exists (y, s). split; [done|]. by apply elem_of_map_to_list.
Qed.

End ChildFacts.

(** The results of a loop, given those of its turns. *)
Lemma returns_foldlM {A B} (f : nat → A → B → outcome A) (g : A → B → A) (l : list B) :
  (∀ x, x ∈ l → ∀ a, returns (λ n, f n a x) (g a x)) →
  ∀ a, returns (λ n, foldlM (f n) a l) (foldl g a l).
Proof.
  induction l as [|x l IH]; intros Hf a; [apply returns_ret|]. simpl.
  eapply (returns_bind _ (λ n a', foldlM (f n) a' l)).
  - apply Hf. by left.
  - apply IH. intros y Hy. apply Hf. by right.
Qed.


Section TraversalFacts.
Context `{Scalar}.
Variables (ed : Editor) (descend : TLShapeId → bool).
Hypothesis Hwf : store_wf ed.
Hypothesis Hac : Acyclic ed.

(** The shapes a visit of the descendants of [parent] comes to: its
    children, and the children of every shape it comes to and descends
    into. *)
Inductive below (parent : TLParentId) : TLShapeId → Prop :=
| below_child k s :
    store ed !! k = Some s → TLShape.parentId s = parent → below parent k
| below_deeper k m :
    below parent m → descend m = true → parent_of ed k m → below parent k.

(** [k] is the child [c], or a shape that a visit descending from [c]
    comes to. *)
Definition inPiece (c k : TLShapeId) : Prop :=
  k = c ∨ (descend c = true ∧ below (ShapeId c) k).

Lemma below_tc p k : below (ShapeId p) k → tc (parent_of ed) k p.
Proof.
  induction 1 as [k s Hs Hp|k m _ IH _ Hkm].
  - apply tc_once. by exists s.
  - by eapply tc_l.
Qed.

Lemma below_not_self p : ¬ below (ShapeId p) p.
Proof. intros Hb%below_tc. exact (tc_parent_irrefl ed p (Hac p) Hb). Qed.

Lemma below_parent parent k m :
  below parent k → parent_of ed k m → parent = ShapeId m ∨ below parent m.
Proof.
  intros Hb (s & Hs & Hp). destruct Hb as [k s' Hs' Hp'|k m' Hm' _ Hkm'].
  - left. congruence.
  - right. assert (m' = m) as <-; [|done]. eapply parent_of_fun; [exact Hkm'|by exists s].
Qed.

Lemma below_split parent k :
  below parent k ↔ ∃ c, c ∈ getSortedChildIdsForParent ed parent ∧ inPiece c k.
Proof.
  split.
  - induction 1 as [k s Hs Hp|k m _ (c & Hc & Hpiece) Hd Hkm].
    + exists k. split; [|by left]. apply children_elem; eauto.
    + exists c. split; [done|]. right. destruct Hpiece as [->|[Hdc Hb]].
      * split; [done|]. destruct Hkm as (s & Hs & Hp). by eapply below_child.
      * split; [done|]. by eapply below_deeper.
  - intros (c & Hc & Hpiece). apply (children_elem _ _ _ Hwf) in Hc as (sc & Hsc & Hpc).
    assert (Hbc : below parent c) by (by eapply below_child).
    destruct Hpiece as [->|[Hdc Hb]]; [done|].
    remember (ShapeId c) as pc eqn:Epc.
    induction Hb as [k s Hs Hp|k m _ IH Hd Hkm]; subst pc.
    + eapply below_deeper; [exact Hbc|done|]. by exists s.
    + eapply below_deeper; [by apply IH|done..].
Qed.

Lemma inPiece_rtc c k : inPiece c k → rtc (parent_of ed) k c.
Proof. intros [->|[_ Hb%below_tc]]; [done|]. by apply tc_rtc. Qed.

Lemma rtc_parent_linear k a b :
  rtc (parent_of ed) k a → rtc (parent_of ed) k b →
  rtc (parent_of ed) a b ∨ rtc (parent_of ed) b a.
Proof.
  intros Ha. revert b. induction Ha as [k|k y a Hky Hya IH]; intros b Hb; [by left|].
  destruct Hb as [|k y' b Hky' Hyb].
  - right. by eapply rtc_l.
  - assert (y' = y) as -> by (by eapply parent_of_fun). by apply IH.
Qed.

(** The pieces of two children of one parent share no shape. *)
Lemma pieces_disjoint parent c c' k :
  c ∈ getSortedChildIdsForParent ed parent → c' ∈ getSortedChildIdsForParent ed parent →
  inPiece c k → inPiece c' k → c = c'.
Proof.
  intros (sc & Hsc & Hpc)%(children_elem _ _ _ Hwf) (sc' & Hsc' & Hpc')%(children_elem _ _ _ Hwf)
    Hk%inPiece_rtc Hk'%inPiece_rtc.
  assert (Hno : ∀ x y sx sy, store ed !! x = Some sx → TLShape.parentId sx = parent →
            store ed !! y = Some sy → TLShape.parentId sy = parent →
            rtc (parent_of ed) x y → x = y).
  { intros x y sx sy Hx Hpx Hy Hpy Hxy. apply rtc_tc in Hxy as [->|Hxy]; [done|]. exfalso.
    destruct (tc_parent_inv _ _ _ Hxy) as (s & q & Hs & Hq & Hcase).
    assert (s = sx) as -> by congruence.
    assert (Hyq : parent_of ed y q) by (exists sy; split; [done|congruence]).
    apply (tc_parent_irrefl ed y (Hac y)). destruct Hcase as [->|Hqy].
    - by apply tc_once.
    - by eapply tc_l. }
  destruct (rtc_parent_linear _ _ _ Hk Hk') as [Hcc|Hcc].
  - by eapply Hno.
  - symmetry. by eapply Hno.
Qed.

(** The visiting order [order] of the descendants of [parent]: the shapes
    the visit comes to, each once, a shape after its parent. *)
Definition visitSpec (parent : TLParentId) (order : list TLShapeId) : Prop :=
  (∀ k, k ∈ order ↔ below parent k) ∧ NoDup order ∧
  ∀ i j ki kj, order !! i = Some ki → order !! j = Some kj → parent_of ed kj ki → i < j.

(** A visitor that works on its state with [upd] and descends where
    [descend] says so. *)
Definition visitorOf {St} (upd : TLShapeId → St → St) : TLShapeId → St → St * bool :=
  λ id st, (upd id st, descend id).

Definition visitRuns (parent : TLParentId) (order : list TLShapeId) : Prop :=
  ∀ St (upd : TLShapeId → St → St) (st : St),
    returns (λ n, visitDescendants n ed parent (visitorOf upd) st)
            (foldl (λ st id, upd id st) st order).

Definition recordsOf (order : list TLShapeId) : list TLShape.t :=
  omap (λ id, store ed !! id) order.

Definition pushRuns (k : TLShapeId) (order : list TLShapeId) : Prop :=
  (∀ id, descend id = true) →
  ∀ s result, store ed !! k = Some s →
    returns (λ n, pushShapeWithDescendants n ed k result) (result ++ s :: recordsOf order).

Definition visited (k : TLShapeId) (order : list TLShapeId) : Prop :=
  visitSpec (ShapeId k) order ∧ visitRuns (ShapeId k) order ∧ pushRuns k order.

Lemma foldl_upd_app {St} (upd : TLShapeId → St → St) st l1 l2 :
  foldl (λ st id, upd id st) st (l1 ++ l2)
  = foldl (λ st id, upd id st) (foldl (λ st id, upd id st) st l1) l2.
Proof. apply foldl_app. Qed.

Lemma visit_children (parent : TLParentId) (l : list TLShapeId) :
  (∀ c, c ∈ l → c ∈ getSortedChildIdsForParent ed parent) → NoDup l →
  (∀ c, c ∈ l → ∃ order, visited c order) →
  ∃ order,
    (∀ k, k ∈ order ↔ ∃ c, c ∈ l ∧ inPiece c k) ∧ NoDup order ∧
    (∀ i j ki kj, order !! i = Some ki → order !! j = Some kj → parent_of ed kj ki → i < j) ∧
    (∀ St (upd : TLShapeId → St → St) (st : St),
       returns (λ n, foldlM (λ st id,
                  if descend id
                  then visitDescendants n ed (ShapeId id) (visitorOf upd) (upd id st)
                  else Ret (upd id st)) st l)
               (foldl (λ st id, upd id st) st order)) ∧
    ((∀ id, descend id = true) →
     ∀ result, returns (λ n, foldlM (λ r c, pushShapeWithDescendants n ed c r) result l)
                       (result ++ recordsOf order)).
Proof.
  induction l as [|c l IH]; intros Hchildren Hnodup Hvisited.
  { exists []. split_and!.
    - intros k. split; [by intros ?%elem_of_nil|]. by intros (c & ?%elem_of_nil & _).
    - constructor.
    - by intros i j ki kj ?.
    - intros St upd st. apply returns_ret.
    - intros _ result. rewrite app_nil_r. apply returns_ret. }
  apply NoDup_cons in Hnodup as [Hc Hnodup].
  destruct (Hvisited c ltac:(by left)) as (sub & (Hm & Hn & Ho) & Hrun & Hpush).
  destruct IH as (rest & Hmr & Hnr & Hor & Hrunr & Hpushr);
    [intros c' Hc'; apply Hchildren; by right|done
    |intros c' Hc'; apply Hvisited; by right|].
  pose proof (Hchildren c ltac:(by left)) as Hcchild.
  destruct (proj1 (children_elem _ _ _ Hwf) Hcchild) as (sc & Hsc & Hpc).
  set (piece := c :: (if descend c then sub else [])).
  assert (Hpiece : ∀ k, k ∈ piece ↔ inPiece c k).
  { intros k. unfold piece, inPiece. rewrite elem_of_cons. destruct (descend c).
    - rewrite Hm. tauto.
    - split; [intros [->|?%elem_of_nil]; [by left|done]|]. intros [->|[? _]]; [by left|done]. }
  assert (Hdisj : ∀ k, k ∈ piece → k ∈ rest → False).
  { intros k Hk%Hpiece (c' & Hc' & Hk')%Hmr. apply Hc.
    assert (c = c') as ->; [|done].
    eapply (pieces_disjoint parent); [done|by apply Hchildren; right|done..]. }
  assert (Hnpiece : NoDup piece).
  { unfold piece. apply NoDup_cons. split; [|destruct (descend c); [done|constructor]].
    destruct (descend c); [|by intros ?%elem_of_nil]. intros Hin%Hm. by apply below_not_self in Hin. }
  exists (piece ++ rest). split_and!.
  - intros k. rewrite elem_of_app, Hpiece, Hmr. split.
    + intros [Hk|(c' & Hc' & Hk)]; [exists c; split; [by left|done]|].
      exists c'. split; [by right|done].
    + intros (c' & [->|Hc']%elem_of_cons & Hk); [by left|]. right. eauto.
  - apply NoDup_app. split_and!; [done| |done]. intros k Hk Hk'. by eapply Hdisj.
  - intros i j ki kj Hi Hj Hpar.
    destruct (decide (i < length piece)) as [Hil|Hil], (decide (j < length piece)) as [Hjl|Hjl].
    + rewrite lookup_app_l in Hi, Hj by done. unfold piece in Hi, Hj.
      destruct i as [|i], j as [|j]; simpl in Hi, Hj.
      * exfalso. injection Hi as <-. injection Hj as <-.
        apply (tc_parent_irrefl ed c (Hac c)). by apply tc_once.
      * lia.
      * exfalso. injection Hj as <-. destruct (descend c); [|done].
        apply list_elem_of_lookup_2, Hm, below_tc in Hi.
        apply (tc_parent_irrefl ed c (Hac c)). by eapply tc_l.
      * destruct (descend c); [|done]. pose proof (Ho _ _ _ _ Hi Hj Hpar). lia.
    + lia.
    + exfalso. rewrite lookup_app_l in Hj by done. rewrite lookup_app_r in Hi by lia.
      apply list_elem_of_lookup_2 in Hi, Hj.
      apply (Hdisj ki); [|done]. apply Hpiece. apply Hpiece in Hj as [->|[Hd Hb]].
      * (* the parent of the child [c] is [parent] itself *)
        exfalso. destruct Hpar as (s & Hs & Hp).
        assert (s = sc) as -> by congruence.
        apply Hmr in Hi as (c' & Hc' & Hki).
        pose proof (Hchildren c' ltac:(by right)) as Hc'child.
        apply (children_elem _ _ _ Hwf) in Hc'child as (sc' & Hsc' & Hpc').
        apply (tc_parent_irrefl ed c' (Hac c')).
        eapply tc_rtc_r; [|by apply inPiece_rtc]. apply tc_once. exists sc'. split; [done|congruence].
      * destruct (below_parent _ _ _ Hb Hpar) as [[= ->]|Hb']; [by left|]. by right.
    + rewrite lookup_app_r in Hi, Hj by lia. pose proof (Hor _ _ _ _ Hi Hj Hpar). lia.
  - intros St upd st. cbn [foldlM]. rewrite foldl_upd_app.
    eapply (returns_bind _ (λ n a', foldlM _ a' l)); [|apply Hrunr].
    unfold piece. cbn [foldl]. destruct (descend c); [apply Hrun|apply returns_ret].
  - intros Hall result. cbn [foldlM].
    eapply (returns_bind _ (λ n a', foldlM _ a' l)); [by apply (Hpush Hall sc result)|].
    unfold piece. rewrite (Hall c).
    replace (result ++ recordsOf ((c :: sub) ++ rest))
      with ((result ++ sc :: recordsOf sub) ++ recordsOf rest); [by apply Hpushr|].
    unfold recordsOf. rewrite <- app_comm_cons. cbn [omap list_omap]. rewrite Hsc.
    rewrite omap_app, <- (assoc_L (++)). done.
Qed.

Lemma visit_from (parent : TLParentId) :
  ∃ order, visitSpec parent order ∧ visitRuns parent order ∧
    ((∀ id, descend id = true) →
     ∀ result,
       returns (λ n, foldlM (λ r c, pushShapeWithDescendants n ed c r) result
                       (getSortedChildIdsForParent ed parent))
               (result ++ recordsOf order)).
Proof.
  assert (Hshape : ∀ k, Acc (parent_of ed) k →
    ∀ parent, parent = ShapeId k →
    ∃ order, visitSpec parent order ∧ visitRuns parent order ∧
      ((∀ id, descend id = true) →
       ∀ result,
         returns (λ n, foldlM (λ r c, pushShapeWithDescendants n ed c r) result
                         (getSortedChildIdsForParent ed parent))
                 (result ++ recordsOf order)) ∧
      pushRuns k order).
  { intros k Hacc. induction Hacc as [k _ IH]. intros parent' ->.
    destruct (visit_children (ShapeId k) (getSortedChildIdsForParent ed (ShapeId k)))
      as (order & Hm & Hn & Ho & Hrun & Hpush); [done|by apply children_NoDup| |].
    { intros c Hc%(children_parent_of _ _ _ Hwf).
      destruct (IH c Hc (ShapeId c) eq_refl) as (order & ? & ? & _ & ?). by exists order. }
    exists order. split_and!; [split_and!| | |].
    - intros k'. by rewrite Hm, below_split.
    - done.
    - done.
    - intros St upd st. eapply returns_step; [|apply (Hrun St upd st)]. done.
    - done.
    - intros Hall s result Hs.
      replace (result ++ s :: recordsOf order) with ((result ++ [s]) ++ recordsOf order)
        by (by rewrite <- (assoc_L (++))).
      eapply returns_step; [|apply (Hpush Hall (result ++ [s]))].
      intros n. cbn [pushShapeWithDescendants getShape]. by rewrite Hs. }
  destruct parent as [pg|k].
  - destruct (visit_children (PageId pg) (getSortedChildIdsForParent ed (PageId pg)))
      as (order & Hm & Hn & Ho & Hrun & Hpush); [done|by apply children_NoDup| |].
    { intros c _.
      destruct (Hshape c (walk_down_ends ed Hac c) (ShapeId c) eq_refl)
        as (order & ? & ? & _ & ?). by exists order. }
    exists order. split_and!; [split_and!| |done].
    + intros k'. by rewrite Hm, below_split.
    + done.
    + done.
    + intros St upd st. eapply returns_step; [|apply (Hrun St upd st)]. done.
  - destruct (Hshape k (walk_down_ends ed Hac k) (ShapeId k) eq_refl)
      as (order & ? & ? & ? & _). by exists order.
Qed.

(** [visitDescendants] with a visitor whose answer depends on the shape
    only: the visitor is run once on every shape below the parent that
    is reached without passing a shape where it answers [false], on a
    shape after its parent. *)
Theorem visitDescendants_order (parent : TLParentId) :
  ∃ order,
    (∀ St (upd : TLShapeId → St → St) (st : St),
       returns (λ n, visitDescendants n ed parent (λ id st, (upd id st, descend id)) st)
               (foldl (λ st id, upd id st) st order)) ∧
    (∀ k, k ∈ order ↔ below parent k) ∧ NoDup order ∧
    ∀ i j ki kj, order !! i = Some ki → order !! j = Some kj → parent_of ed kj ki → i < j.
Proof.
  destruct (visit_from parent) as (order & (Hm & Hn & Ho) & Hrun & _).
  exists order. split_and!; [|done..]. exact Hrun.
Qed.

End TraversalFacts.

Section TraversalProperties.
Context `{Scalar}.

Lemma below_all_tc (ed : Editor) p k :
  below ed (λ _, true) (ShapeId p) k ↔ tc (parent_of ed) k p.
Proof.
  split.
  - induction 1 as [k s Hs Hp|k m _ IH _ Hkm]; [apply tc_once; by exists s|by eapply tc_l].
  - induction 1 as [k p (s & Hs & Hp)|k m p Hkm _ IH]; [by eapply below_child|].
    by eapply below_deeper.
Qed.

Lemma below_all_rootPage (ed : Editor) pg k :
  below ed (λ _, true) (PageId pg) k ↔ rootPage ed k pg.
Proof.
  split.
  - induction 1 as [k s Hs Hp|k m _ (a & sa & Hpath & Hsa & Hpa) _ Hkm].
    + exists k, s. split; [apply rtc_refl|done].
    + exists a, sa. split; [|done]. by eapply rtc_l.
  - intros (a & sa & Hpath & Hsa & Hpa). induction Hpath as [k|k y a Hky _ IH].
    + by eapply below_child.
    + eapply below_deeper; [by apply IH|done..].
Qed.

Lemma Set_add_elem (set : list TLShapeId) id k :
  k ∈ Set_add set id ↔ k ∈ set ∨ k = id.
Proof.
  unfold Set_add. case_decide as Hin.
  - split; [by left|]. intros [?| ->]; done.
  - by rewrite elem_of_app, list_elem_of_singleton.
Qed.

Lemma Set_add_NoDup (set : list TLShapeId) id : NoDup set → NoDup (Set_add set id).
Proof.
  intros Hn. unfold Set_add. case_decide as Hin; [done|].
  apply NoDup_app. split_and!; [done| |apply NoDup_singleton].
  intros k Hk ->%list_elem_of_singleton. done.
Qed.

Lemma foldl_Set_add (l set : list TLShapeId) :
  (∀ k, k ∈ foldl Set_add set l ↔ k ∈ set ∨ k ∈ l) ∧
  (NoDup set → NoDup (foldl Set_add set l)).
Proof.
  revert set. induction l as [|id l IH]; intros set; simpl.
  - split; [|done]. intros k. split; [by left|]. by intros [?|?%elem_of_nil].
  - destruct (IH (Set_add set id)) as [Hm Hn]. split.
    + intros k. rewrite Hm, Set_add_elem, elem_of_cons. tauto.
    + intros Hs. by apply Hn, Set_add_NoDup.
Qed.

Lemma deleteShapes_visits (ed : Editor) (l : list TLShapeId) :
  store_wf ed → Acyclic ed → ∀ allIds,
  ∃ allIds',
    returns (λ n, foldlM (λ allIds id,
                   visitDescendants n ed (ShapeId id)
                     (λ childId allIds, (Set_add allIds childId, true)) allIds) allIds l)
            allIds' ∧
    (∀ k, k ∈ allIds' ↔ k ∈ allIds ∨ ∃ id, id ∈ l ∧ tc (parent_of ed) k id) ∧
    (NoDup allIds → NoDup allIds').
Proof.
  intros Hwf Hac. induction l as [|id l IH]; intros allIds.
  { exists allIds. split; [apply returns_ret|]. split; [|done].
    intros k. split; [by left|]. by intros [?|(? & ?%elem_of_nil & _)]. }
  destruct (visit_from ed (λ _, true) Hwf Hac (ShapeId id)) as (order & (Hm & _) & Hrun & _).
  destruct (IH (foldl Set_add allIds order)) as (allIds' & Hret & Hm' & Hn').
  destruct (foldl_Set_add order allIds) as [Hadd Hnadd].
  exists allIds'. split_and!.
  - cbn [foldlM]. eapply (returns_bind _ (λ n a', foldlM _ a' l)); [|exact Hret].
    exact (Hrun _ (λ childId allIds, Set_add allIds childId) allIds).
  - intros k. rewrite Hm', Hadd, Hm, below_all_tc. split.
    + intros [[?|?]|(id' & ? & ?)]; [by left| |].
      * right. exists id. split; [by left|done].
      * right. exists id'. split; [by right|done].
    + intros [?|(id' & [->|?]%elem_of_cons & ?)]; [by left; left|by left; right|].
      right. by exists id'.
  - intros Hn. by apply Hn', Hnadd.
Qed.

(** [deleteShapes] in an editor that is not read-only: it hands to
    [store.remove], each once, the named shapes that are not locked
    (whether or not they have a record) and all the shapes below them,
    locked or not; it removes nothing when every named shape is locked. *)
Theorem deleteShapes_spec (ed : Editor) (ids : list TLShapeId) :
  store_wf ed → Acyclic ed → isReadonly ed = false →
  ∃ r, returns (λ fuel, deleteShapes fuel ed ids) r ∧
    match r with
    | None => ∀ id, id ∈ ids → ∃ s, store ed !! id = Some s ∧ TLShape.isLocked s = true
    | Some deleted =>
      NoDup deleted ∧
      ∀ k, k ∈ deleted ↔
        ∃ id, id ∈ ids ∧ (∀ s, store ed !! id = Some s → TLShape.isLocked s = false) ∧
              (k = id ∨ tc (parent_of ed) k id)
    end.
Proof.
  intros Hwf Hac Hro. unfold deleteShapes. rewrite Hro.
  assert (Hunlocked : ∀ id, id ∈ _getUnlockedShapeIds ed ids ↔
            id ∈ ids ∧ ∀ s, store ed !! id = Some s → TLShape.isLocked s = false).
  { intros id. unfold _getUnlockedShapeIds. rewrite list_elem_of_filter. simpl.
    destruct (store ed !! id) as [s|]; simpl; split.
    - intros [Hl Hin]. split; [done|]. by intros ? [= <-].
    - intros [Hin Hl]. split; [by apply Hl|done].
    - intros [_ Hin]. by split.
    - intros [Hin _]. by split. }
  case_bool_decide as Hlen.
  - exists None. split; [apply returns_ret|]. intros id Hin.
    apply length_zero_iff_nil in Hlen.
    destruct (store ed !! id) as [s|] eqn:Hs.
    + exists s. split; [done|]. destruct (TLShape.isLocked s) eqn:Hl; [done|]. exfalso.
      assert (id ∈ _getUnlockedShapeIds ed ids) as Hx.
      { apply Hunlocked. split; [done|]. intros s' Hs'. congruence. }
      rewrite Hlen in Hx. by apply elem_of_nil in Hx.
    + exfalso. assert (id ∈ _getUnlockedShapeIds ed ids) as Hx.
      { apply Hunlocked. split; [done|]. intros s' Hs'. congruence. }
      rewrite Hlen in Hx. by apply elem_of_nil in Hx.
  - destruct (deleteShapes_visits ed (_getUnlockedShapeIds ed ids) Hwf Hac
                (foldl Set_add [] (_getUnlockedShapeIds ed ids)))
      as (allIds & Hret & Hm & Hn).
    destruct (foldl_Set_add (_getUnlockedShapeIds ed ids) []) as [Hadd Hnadd].
    exists (Some allIds). split.
    + eapply (returns_bind _ (λ _ allIds, Ret (Some allIds))); [exact Hret|apply returns_ret].
    + split; [apply Hn, Hnadd; constructor|].
      intros k. rewrite Hm, Hadd. split.
      * intros [[?%elem_of_nil|Hk]|(id & Hid & Htc)]; [done| |].
        -- apply Hunlocked in Hk as [? ?]. exists k. split_and!; [done..|by left].
        -- apply Hunlocked in Hid as [? ?]. exists id. split_and!; [done..|by right].
      * intros (id & Hin & Hl & [->|Htc]).
        -- left. right. by apply Hunlocked.
        -- right. exists id. split; [by apply Hunlocked|done].
Qed.

Lemma recordsOf_lookup (ed : Editor) (order : list TLShapeId) :
  (∀ k, k ∈ order → is_Some (store ed !! k)) →
  ∀ i, recordsOf ed order !! i = order !! i ≫= (λ k, store ed !! k).
Proof.
  unfold recordsOf. induction order as [|k order IH]; intros Hall i; [done|].
  destruct (Hall k ltac:(by left)) as [s Hs]. cbn [omap list_omap]. rewrite Hs.
  destruct i as [|i]; simpl; [by rewrite Hs|].
  apply IH. intros k' Hk'. apply Hall. by right.
Qed.

(** [getCurrentPageShapesSorted], from the records of the store: the
    shapes whose walk up ends on the current page, each once, a shape
    after its parent. *)
Theorem getCurrentPageShapesSorted_spec (ed : Editor) (currentPageId : TLPageId) :
  store_wf ed → Acyclic ed →
  ∃ shapes,
    returns (λ fuel, Page.getCurrentPageShapesSorted fuel ed currentPageId) shapes ∧
    (∀ s, s ∈ shapes ↔
       store ed !! TLShape.id s = Some s ∧ rootPage ed (TLShape.id s) currentPageId) ∧
    NoDup shapes ∧
    ∀ i j si sj, shapes !! i = Some si → shapes !! j = Some sj →
      TLShape.parentId sj = ShapeId (TLShape.id si) → i < j.
Proof.
  intros Hwf Hac.
  destruct (visit_from ed (λ _, true) Hwf Hac (PageId currentPageId))
    as (order & (Hm & Hn & Ho) & _ & Hpush).
  assert (Hrec : ∀ k, k ∈ order → is_Some (store ed !! k)).
  { intros k Hk%Hm. destruct Hk as [k s Hs _|k m _ _ (s & Hs & _)]; eauto. }
  pose proof (recordsOf_lookup ed order Hrec) as Hlookup.
  assert (Hat : ∀ i si, recordsOf ed order !! i = Some si ↔
            order !! i = Some (TLShape.id si) ∧ store ed !! TLShape.id si = Some si).
  { intros i si. rewrite Hlookup. destruct (order !! i) as [k|] eqn:Hk; simpl.
    - split.
      + intros Hs. by rewrite (Hwf _ _ Hs) in *.
      + intros [[= ->] Hs]. done.
    - split; [done|]. by intros [? _]. }
  exists (recordsOf ed order). split_and!.
  - specialize (Hpush (λ _, eq_refl) []). exact Hpush.
  - intros s. rewrite list_elem_of_lookup. setoid_rewrite Hat. split.
    + intros (i & Hi & Hs). split; [done|].
      by apply below_all_rootPage, Hm, (list_elem_of_lookup_2 _ i).
    + intros [Hs Hroot]. apply below_all_rootPage, Hm, list_elem_of_lookup in Hroot as [i Hi].
      by exists i.
  - apply NoDup_alt. intros i j s [Hi _]%Hat [Hj _]%Hat.
    by eapply NoDup_lookup.
  - intros i j si sj [Hi Hsi]%Hat [Hj Hsj]%Hat Hpar.
    apply (Ho _ _ _ _ Hi Hj). by exists sj.
Qed.

End TraversalProperties.


Section WorklistProperties.
Context `{Scalar}.
Variables (ed : Editor) (universe : list TLShapeId).
Hypothesis Hwf : store_wf ed.
Hypothesis Hempty : store ed !! EmptyString = None.
Hypothesis Huniverse : ∀ c p, parent_of ed c p → c ∈ universe.

Lemma getShapeAndDescendantIds_loop_runs (m : nat) :
  ∀ idsToInclude idsToCheck,
    length universe < m + length idsToInclude →
    NoDup idsToInclude →
    (∀ k, k ∈ idsToInclude → k ∈ universe) →
    (∀ k, k ∈ idsToCheck → k ∈ universe ∧ k ≠ EmptyString) →
    (∀ k c, k ∈ idsToInclude → parent_of ed c k → c ∈ idsToInclude ∨ c ∈ idsToCheck) →
    ∃ r,
      returns (λ n, getShapeAndDescendantIds_loop n ed idsToCheck idsToInclude) r ∧
      NoDup r ∧
      (∀ k, k ∈ idsToInclude → k ∈ r) ∧
      (∀ k, k ∈ idsToCheck → k ∈ r) ∧
      (∀ k, k ∈ r → k ∈ idsToInclude ∨ ∃ id, id ∈ idsToCheck ∧ rtc (parent_of ed) k id) ∧
      (∀ k c, k ∈ r → parent_of ed c k → c ∈ r).
Proof.
  induction m as [|m IHm]; intros included stack Hlen Hnd HinU.
  { exfalso. pose proof (submseteq_length _ _ (NoDup_submseteq _ _ Hnd HinU)). lia. }
  revert included Hlen Hnd HinU.
  induction stack as [|id stack IHs]; intros included Hlen Hnd HinU Hst Hclosed.
  - exists included. split_and!; [|done|done|by intros ? ?%elem_of_nil|by left|].
    + exists 1. intros [|n] ?; [lia|done].
    + intros k c Hk Hc. destruct (Hclosed k c Hk Hc) as [?|?%elem_of_nil]; done.
  - destruct (Hst id ltac:(by left)) as [HidU Hid].
    destruct (decide (id ∈ included)) as [Hin|Hin].
    + destruct (IHs included Hlen Hnd HinU) as (r & Hret & Hndr & Hinc & Hstk & Hsound & Hcl).
      { intros k Hk. apply Hst. by right. }
      { intros k c Hk Hc. destruct (Hclosed k c Hk Hc) as [?|[->|?]%elem_of_cons]; auto. }
      exists r. split_and!; [|done|done| | |done].
      * eapply returns_step; [|exact Hret]. intros n. simpl.
        destruct (decide (id = EmptyString)); [done|].
        destruct (decide (id ∈ included)); done.
      * intros k [->|Hk]%elem_of_cons; auto.
      * intros k Hk. destruct (Hsound k Hk) as [?|(id' & Hid' & Hpath)]; [by left|].
        right. exists id'. split; [by right|done].
    + destruct (IHm (included ++ [id])
                  (reverse (getSortedChildIdsForParent ed (ShapeId id)) ++ stack))
        as (r & Hret & Hndr & Hinc & Hstk & Hsound & Hcl).
      { rewrite length_app. simpl. lia. }
      { apply NoDup_app. split_and!; [done| |apply NoDup_singleton].
        by intros k Hk ->%list_elem_of_singleton. }
      { intros k [Hk| ->%list_elem_of_singleton]%elem_of_app; auto. }
      { intros k [Hk|Hk]%elem_of_app.
        - rewrite elem_of_reverse in Hk. apply (children_parent_of _ _ _ Hwf) in Hk. split; [by eapply Huniverse|].
          intros ->. destruct Hk as (s & Hs & _). congruence.
        - apply Hst. by right. }
      { intros k c [Hk| ->%list_elem_of_singleton]%elem_of_app Hc.
        - destruct (Hclosed k c Hk Hc) as [?|[->|?]%elem_of_cons].
          + left. apply elem_of_app. by left.
          + left. apply elem_of_app. right. by apply list_elem_of_singleton.
          + right. apply elem_of_app. by right.
        - right. apply elem_of_app. left.
          rewrite elem_of_reverse. by apply (children_parent_of _ _ _ Hwf). }
      exists r. split_and!; [|done| | | |done].
      * eapply returns_step; [|exact Hret]. intros n. simpl.
        destruct (decide (id = EmptyString)); [done|].
        destruct (decide (id ∈ included)); done.
      * intros k Hk. apply Hinc, elem_of_app. by left.
      * intros k [->|Hk]%elem_of_cons.
        -- apply Hinc, elem_of_app. right. by apply list_elem_of_singleton.
        -- apply Hstk, elem_of_app. by right.
      * intros k Hk.
        destruct (Hsound k Hk)
          as [[?| ->%list_elem_of_singleton]%elem_of_app|(id' & Hid' & Hpath)].
        -- by left.
        -- right. exists id. split; [by left|apply rtc_refl].
        -- right. apply elem_of_app in Hid' as [Hc|Hs].
           ++ rewrite elem_of_reverse in Hc. exists id. split; [by left|]. eapply rtc_r; [exact Hpath|].
              by apply (children_parent_of _ _ _ Hwf).
           ++ exists id'. split; [by right|done].
Qed.

End WorklistProperties.

Section WorklistResult.
Context `{Scalar}.

(** [getShapeAndDescendantIds], when no id is the empty string: it
    returns on every store, one with a cycle of parents included, and
    the set holds the named ids and every shape below one of them, each
    once. *)
Theorem getShapeAndDescendantIds_spec (ed : Editor) (ids : list TLShapeId) :
  store_wf ed → store ed !! EmptyString = None → EmptyString ∉ ids →
  ∃ r,
    returns (λ fuel, getShapeAndDescendantIds fuel ed ids) r ∧ NoDup r ∧
    ∀ k, k ∈ r ↔ ∃ id, id ∈ ids ∧ rtc (parent_of ed) k id.
Proof.
  intros Hwf Hempty Hids.
  set (universe := ids ++ (map_to_list (store ed)).*1).
  destruct (getShapeAndDescendantIds_loop_runs ed universe Hwf Hempty) with
    (m := S (length universe)) (idsToInclude := @nil TLShapeId) (idsToCheck := reverse ids)
    as (r & Hret & Hnd & _ & Hstk & Hsound & Hcl).
  - intros c p (s & Hs & _). apply elem_of_app. right.
    apply list_elem_of_fmap. exists (c, s). split; [done|]. by apply elem_of_map_to_list.
  - simpl. lia.
  - constructor.
  - by intros ? ?%elem_of_nil.
  - intros k Hk. rewrite elem_of_reverse in Hk.
    split; [apply elem_of_app; by left|]. by intros ->.
  - by intros k c ?%elem_of_nil.
  - exists r. split_and!; [exact Hret|done|]. intros k. split.
    + intros Hk. destruct (Hsound k Hk) as [?%elem_of_nil|(id & Hid & Hpath)]; [done|].
      rewrite elem_of_reverse in Hid. by exists id.
    + intros (id & Hid & Hpath). apply rtc_nsteps in Hpath as [n Hpath].
      revert k Hpath. induction n as [|n IH]; intros k Hpath.
      * inversion Hpath; subst. apply Hstk. by rewrite elem_of_reverse.
      * inversion Hpath as [|? ? y ? Hky Hrest]; subst. eapply Hcl; [|exact Hky]. by apply IH.
Qed.

End WorklistResult.


(* ================================================================== *)
(** ** The shape a click selects *)

Section SelectionProperties.
Context `{Scalar}.
Variables (ed : Editor) (focusedGroup : option TLShape.t)
          (filter : option (TLShape.t → bool)).
Hypothesis Hwf : store_wf ed.
Hypothesis Hac : Acyclic ed.

(** A group that a click may select: it is not the focused group, does
    not lie above it, and passes the filter. *)
Definition selectableGroup (node : TLShape.t) : Prop :=
  TLShape.type node = GroupType ∧
  TLShape.id <$> focusedGroup ≠ Some (TLShape.id node) ∧
  (∀ f, TLShape.id <$> focusedGroup = Some f → ¬ tc (parent_of ed) f (TLShape.id node)) ∧
  from_option (λ f, f node) true filter = true.

(** On the way up from [k], the focused group does not come before [n]. *)
Definition withinFocus (k n : TLShapeId) : Prop :=
  ∀ m, onPathUp ed k m → tc (parent_of ed) m n → TLShape.id <$> focusedGroup ≠ Some m.

Lemma selectable_decided (node : TLShape.t) :
  store ed !! TLShape.id node = Some node →
  ∃ b,
    returns (λ fuel,
      if bool_decide (TLShape.type node = GroupType)
         && negb (bool_decide (TLShape.id <$> focusedGroup = Some (TLShape.id node)))
      then
        above ← hasAncestor fuel ed (TLShape.id <$> focusedGroup) (TLShape.id node);
        Ret (negb above && from_option (λ f, f node) true filter)
      else Ret false) b ∧
    (b = true ↔ selectableGroup node).
Proof.
  intros Hnode. unfold selectableGroup.
  case_bool_decide as Htype; simpl.
  2:{ exists false. split; [apply returns_ret|]. split; [done|]. by intros [? _]. }
  case_bool_decide as Hfocus; simpl.
  { exists false. split; [apply returns_ret|]. split; [done|]. by intros (_ & ? & _). }
  destruct focusedGroup as [fg|]; simpl in *.
  - destruct (hasAncestor_total ed (TLShape.id node) Hwf (TLShape.id fg) (Hac _))
      as [above [n Hn]].
    pose proof (hasAncestor_sound ed Hwf n (TLShape.id fg) (TLShape.id node) above
                  (Hn n (le_n _))) as Hsound.
    exists (negb above && from_option (λ f, f node) true filter). split.
    + eapply (returns_bind _ (λ _ above, Ret (negb above && _))); [by exists n|].
      apply returns_ret.
    + rewrite andb_true_iff, negb_true_iff. split.
      * intros [-> Hf]. split_and!; [done..| |done]. by intros f [= <-].
      * intros (_ & _ & Hnot & Hf). split; [|done].
        destruct above; [|done]. by destruct (Hnot _ eq_refl).
  - exists (from_option (λ f, f node) true filter). split.
    + exists 1. intros [|n] ?; [lia|]. done.
    + split; [|by intros (_ & _ & _ & ?)]. intros Hf. split_and!; done.
Qed.

Lemma no_record_above (x : TLShapeId) (n : TLShapeId) :
  getShapeParent ed (Some x) = None → tc (parent_of ed) x n → store ed !! n = None.
Proof.
  intros Hgp Htc. destruct (store ed !! n) as [sn|] eqn:Hsn; [|done]. exfalso.
  destruct (tc_parent_inv _ _ _ Htc) as (s & p & Hs & Hp & Hcase).
  unfold getShapeParent, getShape in Hgp. rewrite Hs, Hp in Hgp.
  destruct Hcase as [->|Hpn]; [congruence|].
  destruct (tc_parent_inv _ _ _ Hpn) as (sp & ? & Hsp & _). congruence.
Qed.

Lemma getOutermostSelectableShape_loop_spec (k : TLShapeId) (s : TLShape.t) :
  ∀ x, Acc (λ p c, parent_of ed c p) x →
  ∀ sx match_,
    store ed !! x = Some sx → onPathUp ed k x → withinFocus k x →
    store ed !! TLShape.id match_ = Some match_ →
    onPathUp ed k (TLShape.id match_) →
    (match_ = s ∨ selectableGroup match_) →
    (∀ n sn, onPathUp ed k n → tc (parent_of ed) n x → store ed !! n = Some sn →
             selectableGroup sn → onPathUp ed n (TLShape.id match_)) →
    ∃ r,
      returns (λ fuel, getOutermostSelectableShape_loop fuel ed focusedGroup filter
                         match_ (Some sx)) r ∧
      store ed !! TLShape.id r = Some r ∧ onPathUp ed k (TLShape.id r) ∧
      (r = s ∨ selectableGroup r) ∧
      ∀ n sn, onPathUp ed k n → store ed !! n = Some sn → selectableGroup sn →
              withinFocus k n → onPathUp ed n (TLShape.id r).
Proof.
  intros x Hacc. induction Hacc as [x _ IH].
  intros sx match_ Hsx Hkx Hfocus Hm Hkm Hmatch Hbelow.
  pose proof (Hwf _ _ Hsx) as Hidx. simpl in Hidx.
  assert (Hsx' : store ed !! TLShape.id sx = Some sx) by (by rewrite Hidx).
  destruct (selectable_decided sx Hsx') as (b & Hb & Hbiff).
  rewrite Hidx in Hb.
  (* what is known about the shapes of the path that are not below [x] *)
  assert (Hsplit : ∀ n, onPathUp ed k n →
            tc (parent_of ed) n x ∨ n = x ∨ tc (parent_of ed) x n).
  { intros n Hkn. destruct (rtc_parent_linear ed k n x Hkn Hkx) as [Hnx|Hxn].
    - apply rtc_tc in Hnx as [->|?]; auto.
    - apply rtc_tc in Hxn as [->|?]; auto. }
  (* the next turn of the loop, with the match it carries *)
  assert (Hnext : ∀ match', 
            TLShape.id <$> focusedGroup ≠ Some x →
            store ed !! TLShape.id match' = Some match' →
            onPathUp ed k (TLShape.id match') →
            (match' = s ∨ selectableGroup match') →
            (∀ n sn, onPathUp ed k n → (tc (parent_of ed) n x ∨ n = x) →
                     store ed !! n = Some sn → selectableGroup sn →
                     onPathUp ed n (TLShape.id match')) →
            ∃ r,
              returns (λ fuel, getOutermostSelectableShape_loop fuel ed focusedGroup filter
                                 match' (getShapeParent ed (Some x))) r ∧
              store ed !! TLShape.id r = Some r ∧ onPathUp ed k (TLShape.id r) ∧
              (r = s ∨ selectableGroup r) ∧
              ∀ n sn, onPathUp ed k n → store ed !! n = Some sn → selectableGroup sn →
                      withinFocus k n → onPathUp ed n (TLShape.id r)).
  { intros match' Hnf Hm' Hkm' Hmatch' Hbelow'.
    destruct (getShapeParent ed (Some x)) as [px|] eqn:Hgp.
    - unfold getShapeParent, getShape in Hgp. rewrite Hsx in Hgp.
      destruct (TLShape.parentId sx) as [|p] eqn:Hp; [done|].
      pose proof (Hwf _ _ Hgp) as Hidp. simpl in Hidp.
      assert (Hxp : parent_of ed x p) by (by exists sx).
      destruct (IH p Hxp px match' Hgp) as (r & Hr & Hpost); [..|by exists r].
      + eapply rtc_r; [exact Hkx|done].
      + intros m Hkm0 Hmp. destruct (Hsplit m Hkm0) as [Hmx|[->|Hxm]]; [by apply Hfocus|done|].
        exfalso. apply (tc_parent_irrefl ed m (Hac m)).
        destruct (tc_parent_step _ _ _ _ _ Hsx Hp Hxm) as [->|Hpm]; [done|].
        by eapply tc_transitive.
      + done.
      + done.
      + done.
      + intros n sn Hkn Hnp Hsn Hsel. apply (Hbelow' n sn Hkn); [|done..].
        destruct (Hsplit n Hkn) as [?|[->|Hxn]]; [by left|by right|].
        exfalso. apply (tc_parent_irrefl ed n (Hac n)).
        destruct (tc_parent_step _ _ _ _ _ Hsx Hp Hxn) as [->|Hpn]; [done|].
        by eapply tc_transitive.
    - exists match'. split_and!; [|done..|].
      + exists 1. intros [|n] ?; [lia|done].
      + intros n sn Hkn Hsn Hsel _. destruct (Hsplit n Hkn) as [?|[->|Hxn]].
        * apply (Hbelow' n sn); auto.
        * apply (Hbelow' x sn); auto.
        * pose proof (no_record_above x n Hgp Hxn). congruence. }
  destruct b.
  - (* the node becomes the match *)
    assert (Hsel : selectableGroup sx) by (by apply Hbiff).
    destruct (Hnext sx) as (r & Hr & Hpost);
      [destruct Hsel as (_ & Hne & _); by rewrite Hidx in Hne|done| | | |].
    + by rewrite Hidx.
    + by right.
    + intros n sn Hkn [Hnx| ->] Hsn _; rewrite Hidx; [by apply tc_rtc|apply rtc_refl].
    + exists r. split; [|exact Hpost].
      destruct Hb as [n1 Hn1], Hr as [n2 Hn2]. exists (S (n1 `max` n2)).
      intros [|n] Hn; [lia|]. pose proof (Hn1 n ltac:(lia)) as E1. cbv beta in E1.
      cbn [getOutermostSelectableShape_loop]. cbv zeta. rewrite Hidx, E1.
      apply Hn2. lia.
  - destruct (decide (TLShape.id <$> focusedGroup = Some x)) as [Hfx|Hfx].
    + (* the focused group ends the walk *)
      exists match_. split_and!; [|done..|].
      * destruct Hb as [n1 Hn1]. exists (S n1).
        intros [|n] Hn; [lia|]. pose proof (Hn1 n ltac:(lia)) as E1. cbv beta in E1.
        cbn [getOutermostSelectableShape_loop]. cbv zeta. rewrite Hidx, E1.
        simpl. by rewrite (bool_decide_eq_true_2 _ Hfx).
      * intros n sn Hkn Hsn Hsel Hwithin. destruct (Hsplit n Hkn) as [Hnx|[->|Hxn]].
        -- by apply (Hbelow n sn).
        -- assert (sn = sx) as -> by congruence.
           destruct Hsel as (_ & Hne & _). by rewrite Hidx in Hne.
        -- by destruct (Hwithin x Hkx Hxn).
    + destruct (Hnext match_) as (r & Hr & Hpost); [done..| |].
      * intros n sn Hkn [Hnx| ->] Hsn Hsel; [by apply (Hbelow n sn)|].
        assert (sn = sx) as -> by congruence.
        by apply Hbiff in Hsel.
      * exists r. split; [|exact Hpost].
        destruct Hb as [n1 Hn1], Hr as [n2 Hn2]. exists (S (n1 `max` n2)).
        intros [|n] Hn; [lia|]. pose proof (Hn1 n ltac:(lia)) as E1. cbv beta in E1.
        cbn [getOutermostSelectableShape_loop]. cbv zeta. rewrite Hidx, E1.
        simpl. rewrite (bool_decide_eq_false_2 _ Hfx). apply Hn2. lia.
Qed.

(** [getOutermostSelectableShape] of a shape of the store answers the
    shape itself, or a group above it that is not the focused group,
    does not lie above the focused group, and passes the filter; and it
    answers the outermost such group that the walk up comes to before
    it comes to the focused group. *)
Theorem getOutermostSelectableShape_spec (k : TLShapeId) (s : TLShape.t) :
  store ed !! k = Some s →
  ∃ r,
    returns (λ fuel, getOutermostSelectableShape fuel ed focusedGroup k filter) (Some r) ∧
    store ed !! TLShape.id r = Some r ∧ onPathUp ed k (TLShape.id r) ∧
    (r = s ∨ selectableGroup r) ∧
    ∀ n sn, onPathUp ed k n → store ed !! n = Some sn → selectableGroup sn →
            withinFocus k n → onPathUp ed n (TLShape.id r).
Proof.
  intros Hs. pose proof (Hwf _ _ Hs) as Hid. simpl in Hid.
  destruct (getOutermostSelectableShape_loop_spec k s k (Hac k) s s Hs)
    as (r & Hr & Hpost).
  - apply rtc_refl.
  - intros m Hkm Hmk. exfalso. apply (tc_parent_irrefl ed k (Hac k)).
    apply rtc_tc in Hkm as [->|Hkm]; [done|]. by eapply tc_transitive.
  - by rewrite Hid.
  - rewrite Hid. apply rtc_refl.
  - by left.
  - intros n sn Hkn Hnk. exfalso. apply (tc_parent_irrefl ed k (Hac k)).
    apply rtc_tc in Hkn as [->|Hkn]; [done|]. by eapply tc_transitive.
  - exists r. split; [|exact Hpost].
    unfold getOutermostSelectableShape, getShape. rewrite Hs.
    eapply (returns_bind _ (λ _ r, Ret (Some r))); [exact Hr|apply returns_ret].
Qed.

End SelectionProperties.


(* ================================================================== *)
(** ** The shape to drop on *)

Section DroppingProperties.
Context `{MatOps} `{!IndexOps} `{!ShapeUtils} `{!GeometryOps} `{!EditorReads}.
Variable canDropShapes : TLShape.t → list TLShape.t → bool.
Variable Box_containsPoint : Box → Vec.t → bool.
Hypothesis Hhooks : hooks_keep_structure.

Lemma isDroppedOrBelow_decides (ed : Editor) (shape : TLShape.t)
    (droppingShapes : list TLShape.t) :
  store_wf ed → Acyclic ed →
  ∃ b, returns (λ fuel, isDroppedOrBelow fuel ed shape droppingShapes) b ∧
    (b = false ↔
     ∀ s, s ∈ droppingShapes →
          TLShape.id s ≠ TLShape.id shape ∧
          ¬ tc (parent_of ed) (TLShape.id shape) (TLShape.id s)).
Proof.
  intros Hwf Hac. induction droppingShapes as [|s rest IH].
  { exists false. split; [apply returns_ret|]. split; [|done]. by intros _ ? ?%elem_of_nil. }
  cbn [isDroppedOrBelow]. destruct (decide (TLShape.id s = TLShape.id shape)) as [Heq|Hne].
  { exists true. split; [apply returns_ret|]. split; [done|].
    intros Hall. by destruct (Hall s ltac:(left)). }
  destruct (hasAncestor_total ed (TLShape.id s) Hwf (TLShape.id shape) (Hac _))
    as [above [n Hn]].
  pose proof (hasAncestor_sound ed Hwf n (TLShape.id shape) (TLShape.id s) above
                (Hn n (le_n _))) as Hsound.
  destruct above.
  - exists true. split.
    + eapply (returns_bind _ (λ fuel (b : bool),
                if b then Ret true else isDroppedOrBelow fuel ed shape rest));
        [by exists n|apply returns_ret].
    + split; [done|]. intros Hall. by destruct (Hall s ltac:(left)).
  - destruct IH as (b & Hb & Hiff). exists b. split.
    + eapply (returns_bind _ (λ fuel (b : bool),
                if b then Ret true else isDroppedOrBelow fuel ed shape rest));
        [by exists n|exact Hb].
    + rewrite Hiff. split.
      * intros Hall s' [->|Hs']%elem_of_cons; [done|by apply Hall].
      * intros Hall s' Hs'. apply Hall. by right.
Qed.

(** The loop of [getDroppingOverShape] ends, with a shape, with nothing
    or with an error; a shape it ends with passed every test. *)
Lemma getDroppingOverShape_loop_spec (ed : Editor) (selectedShapeIds : list TLShapeId)
    (point : Vec.t) (droppingShapes topDown : list TLShape.t) :
  store_wf ed → Acyclic ed →
  ∃ o n0,
    (∀ n, n0 ≤ n →
       getDroppingOverShape_loop canDropShapes Box_containsPoint n ed selectedShapeIds
         point droppingShapes topDown = o) ∧
    o ≠ Diverge ∧
    ∀ r, o = Ret (Some r) →
      r ∈ topDown ∧ (TLShape.id r ∉ selectedShapeIds) ∧
      canDropShapes r droppingShapes = true ∧
      ∀ s, s ∈ droppingShapes →
           TLShape.id s ≠ TLShape.id r ∧ ¬ tc (parent_of ed) (TLShape.id r) (TLShape.id s).
Proof.
  intros Hwf Hac. induction topDown as [|shape rest IH].
  { exists (Ret None), 0. split; [done|]. split; [done|]. intros r [=]. }
  destruct IH as (o & n0 & Hrun & Hnd & Hres).
  assert (Hrest : ∃ n0,
            (∀ n, n0 ≤ n →
               getDroppingOverShape_loop canDropShapes Box_containsPoint n ed
                 selectedShapeIds point droppingShapes rest = o) ∧
            o ≠ Diverge ∧
            ∀ r, o = Ret (Some r) →
              r ∈ shape :: rest ∧ (TLShape.id r ∉ selectedShapeIds) ∧
              canDropShapes r droppingShapes = true ∧
              ∀ s, s ∈ droppingShapes →
                   TLShape.id s ≠ TLShape.id r ∧
                   ¬ tc (parent_of ed) (TLShape.id r) (TLShape.id s)).
  { exists n0. split; [done|]. split; [done|]. intros r Hr.
    destruct (Hres r Hr) as (? & ? & ? & ?). split_and!; [by right|done..]. }
  clear Hres.
  cbn [getDroppingOverShape_loop]. cbv zeta.
  case_bool_decide as Hsel; [by exists o|].
  destruct (canDropShapes shape droppingShapes) eqn:Hcan; simpl; [|by exists o].
  destruct (isDroppedOrBelow_decides ed shape droppingShapes Hwf Hac)
    as (skip & [n1 Hn1] & Hskip).
  destruct Hrest as (n2 & Hn2 & Hnd2 & Hres2).
  destruct skip.
  { exists o, (n1 `max` n2). split; [|done].
    intros n Hn. rewrite Hn1 by lia. simpl. apply Hn2. lia. }
  assert (Hok : ∀ s, s ∈ droppingShapes →
            TLShape.id s ≠ TLShape.id shape ∧
            ¬ tc (parent_of ed) (TLShape.id shape) (TLShape.id s)) by (by apply Hskip).
  destruct (getShapeMaskedPageBounds (TLShape.id shape)) as [[bounds|]|msg|] eqn:Hmask.
  - destruct (Box_containsPoint bounds point
              && Geometry2d.hitTestPoint (geometryOf (getShapeGeometry (TLShape.id shape)))
                   (getPointInShapeSpace (TLShape.id shape) point) (Finite 0) true)
      eqn:Hhit.
    + exists (Ret (Some shape)), n1. split_and!; [|done|].
      * intros n Hn. rewrite Hn1 by lia. simpl. by rewrite Hhit.
      * intros r [= <-]. split_and!; [by left|done..].
    + exists o, (n1 `max` n2). split; [|done].
      intros n Hn. rewrite Hn1 by lia. simpl. rewrite Hhit. apply Hn2. lia.
  - exists o, (n1 `max` n2). split; [|done].
    intros n Hn. rewrite Hn1 by lia. simpl. apply Hn2. lia.
  - exists (Throw msg), n1. split_and!; [|done|done].
    intros n Hn. rewrite Hn1 by lia. done.
  - exists Diverge, n1. exfalso.
    unfold getShapeMaskedPageBounds in Hmask.
    destruct (getShapePageBounds (TLShape.id shape)); [|done].
    destruct (getShapeMask (TLShape.id shape)) as [pageMask|]; [|done].
    case_bool_decide; [done|].
    assert (Hcorners : ∀ corners i, cornersMatch corners pageMask i ≠ Diverge).
    { induction corners as [|p corners IHc]; intros i; simpl; [done|].
      destruct (pageMask !! i) as [q|]; [|done]. destruct (Vec_Equals p q); [apply IHc|done]. }
    destruct (cornersMatch (Box_corners b) pageMask 0) as [[]| |] eqn:Hc; simpl in Hmask;
      [done| |done|by apply Hcorners in Hc].
    by destruct (intersectPolygonPolygon pageMask (Box_corners b)).
Qed.


End DroppingProperties.


(* ================================================================== *)
(** ** The common ancestor of several shapes *)

Section CommonAncestorProperties.
Context `{Scalar}.
Variables (ed : Editor) (predicate : option (TLShape.t → bool)).
Hypothesis Hwf : store_wf ed.
Hypothesis Hac : Acyclic ed.

(** [c] has a record that passes the predicate and lies above every
    shape of [fresh]. *)
Definition aboveAll (fresh : list TLShape.t) (c : TLShapeId) : Prop :=
  ∃ sc, store ed !! c = Some sc ∧ from_option (λ p, p sc) true predicate = true ∧
        ∀ s, s ∈ fresh → tc (parent_of ed) (TLShape.id s) c.

(** [r] is the lowest of the shapes above all of [fresh], or nothing
    when there is none. *)
Definition lowestAboveAll (fresh : list TLShape.t) (r : option TLShapeId) : Prop :=
  match r with
  | Some c => aboveAll fresh c ∧ ∀ c', aboveAll fresh c' → c' = c ∨ tc (parent_of ed) c c'
  | None => ∀ c', ¬ aboveAll fresh c'
  end.

Lemma every_hasAncestor_decides (others : list TLShape.t) (anc : TLShapeId) :
  ∃ b, returns (λ fuel, every_hasAncestor fuel ed others anc) b ∧
       (b = true ↔ ∀ s, s ∈ others → tc (parent_of ed) (TLShape.id s) anc).
Proof.
  induction others as [|s rest IH].
  { exists true. split; [apply returns_ret|]. split; [|done]. by intros _ ? ?%elem_of_nil. }
  destruct (hasAncestor_total ed anc Hwf (TLShape.id s) (Hac _)) as [above [n Hn]].
  pose proof (hasAncestor_sound ed Hwf n (TLShape.id s) anc above (Hn n (le_n _))) as Hsound.
  cbn [every_hasAncestor]. destruct above.
  - destruct IH as (b & Hb & Hiff). exists b. split.
    + eapply (returns_bind _ (λ fuel (b : bool),
                if b then every_hasAncestor fuel ed rest anc else Ret false));
        [by exists n|exact Hb].
    + rewrite Hiff. split.
      * intros Hall s' [->|Hs']%elem_of_cons; [done|by apply Hall].
      * intros Hall s' Hs'. apply Hall. by right.
  - exists false. split.
    + eapply (returns_bind _ (λ fuel (b : bool),
                if b then every_hasAncestor fuel ed rest anc else Ret false));
        [by exists n|apply returns_ret].
    + split; [done|]. intros Hall. destruct Hsound. apply Hall. by left.
Qed.

Lemma parent_record_above (x n : TLShapeId) :
  getShapeParent ed (Some x) = None → tc (parent_of ed) x n → store ed !! n = None.
Proof.
  intros Hgp Htc. destruct (store ed !! n) as [sn|] eqn:Hsn; [|done]. exfalso.
  destruct (tc_parent_inv _ _ _ Htc) as (s & p & Hs & Hp & Hcase).
  unfold getShapeParent, getShape in Hgp. rewrite Hs, Hp in Hgp.
  destruct Hcase as [->|Hpn]; [congruence|].
  destruct (tc_parent_inv _ _ _ Hpn) as (sp & ? & Hsp & _). congruence.
Qed.

Lemma findCommonAncestor_loop_lowest (nodeA : TLShape.t) (others : list TLShape.t) :
  ∀ x, Acc (λ p c, parent_of ed c p) x →
  ∀ sx, store ed !! x = Some sx → tc (parent_of ed) (TLShape.id nodeA) x →
  (∀ c', aboveAll (nodeA :: others) c' → rtc (parent_of ed) x c') →
  ∃ r, returns (λ fuel, findCommonAncestor_loop fuel ed (Some sx) others predicate) r ∧
       lowestAboveAll (nodeA :: others) r.
Proof.
  intros x Hacc. induction Hacc as [x _ IH]. intros sx Hsx Hax Hlow.
  pose proof (Hwf _ _ Hsx) as Hidx. simpl in Hidx.
  destruct (every_hasAncestor_decides others x) as (b & [n1 Hn1] & Hb).
  (* the walk goes on above [x] when [x] is not the answer *)
  assert (Hnext : ¬ aboveAll (nodeA :: others) x →
            ∃ r, returns (λ fuel, findCommonAncestor_loop fuel ed
                                    (getShapeParent ed (Some x)) others predicate) r ∧
                 lowestAboveAll (nodeA :: others) r).
  { intros Hnot.
    assert (Hup : ∀ c', aboveAll (nodeA :: others) c' → tc (parent_of ed) x c').
    { intros c' Hc'. destruct (proj1 (rtc_tc _ _) (Hlow c' Hc')) as [<-|?]; done. }
    destruct (getShapeParent ed (Some x)) as [px|] eqn:Hgp.
    - unfold getShapeParent, getShape in Hgp. rewrite Hsx in Hgp.
      destruct (TLShape.parentId sx) as [|p] eqn:Hp; [done|].
      apply (IH p); [by exists sx|done| |].
      + eapply tc_r; [exact Hax|by exists sx].
      + intros c' Hc'. destruct (tc_parent_step _ _ _ _ _ Hsx Hp (Hup c' Hc')) as [->|?];
          [apply rtc_refl|by apply tc_rtc].
    - exists None. split; [exists 1; intros [|n] ?; [lia|done]|].
      intros c' Hc'. pose proof (parent_record_above x c' Hgp (Hup c' Hc')) as Hnone.
      destruct Hc' as (sc & Hsc & _). congruence. }
  destruct (from_option (λ p, p sx) true predicate) eqn:Hpass.
  - destruct b.
    + exists (Some x). split.
      * exists (S n1). intros [|n] Hn; [lia|]. cbn [findCommonAncestor_loop].
        rewrite Hpass, Hidx. simpl. rewrite Hn1 by lia. done.
      * split.
        -- exists sx. split_and!; [done..|].
           intros s [->|Hs]%elem_of_cons; [done|]. by apply Hb.
        -- intros c' Hc'. destruct (proj1 (rtc_tc _ _) (Hlow c' Hc')) as [<-|?]; auto.
    + destruct Hnext as (r & [n2 Hn2] & Hr).
      { intros (_ & _ & _ & Hall). assert (false = true); [|done].
        apply Hb. intros s Hs. apply Hall. by right. }
      exists r. split; [|done]. exists (S (n1 `max` n2)).
      intros [|n] Hn; [lia|]. cbn [findCommonAncestor_loop].
      rewrite Hpass, Hidx. simpl. rewrite Hn1 by lia. simpl. apply Hn2. lia.
  - destruct Hnext as (r & [n2 Hn2] & Hr).
    { intros (sc & Hsc & Hp & _). assert (sc = sx) as -> by congruence. congruence. }
    exists r. split; [|done]. exists (S n2).
    intros [|n] Hn; [lia|]. cbn [findCommonAncestor_loop].
    rewrite Hpass, Hidx. simpl. apply Hn2. lia.
Qed.

Lemma findShapeAncestor_lowest (only : TLShape.t) (p : TLShape.t → bool) :
  predicate = Some p → store ed !! TLShape.id only = Some only →
  ∃ r, returns (λ fuel, findShapeAncestor fuel ed (TLShape.id only) p) r ∧
       lowestAboveAll [only] (TLShape.id <$> r).
Proof.
  intros Hpred Honly.
  destruct (findShapeAncestor_nearest ed p Hwf Hac (TLShape.id only) (Hac _))
    as (r & Hret & Hr).
  exists r. split; [done|]. unfold lowestAboveAll, aboveAll. rewrite Hpred.
  destruct r as [anc|]; simpl.
  - destruct Hr as (Hanc & Hup & Hp & Hnear). split.
    + exists anc. split_and!; [done..|]. by intros s ->%list_elem_of_singleton.
    + intros c' (sc & Hsc & Hpc & Hall).
      pose proof (Hall only ltac:(by left)) as Hc'.
      destruct (rtc_parent_linear ed (TLShape.id only) c' (TLShape.id anc))
        as [Hca|Hac']; [by apply tc_rtc..| |].
      * destruct (proj1 (rtc_tc _ _) Hca) as [?|Hlt]; [by left|].
        rewrite (Hnear c' sc Hc' Hlt Hsc) in Hpc. done.
      * destruct (proj1 (rtc_tc _ _) Hac') as [?|?]; auto.
  - intros c' (sc & Hsc & Hpc & Hall).
    rewrite (Hr c' sc (Hall only ltac:(by left)) Hsc) in Hpc. done.
Qed.

(** [findCommonAncestor] looks only at the ids that have a record.  With
    two or more of them, and with one and a predicate, it answers the
    lowest shape that has a record, passes the predicate and lies above
    all of them, or nothing when there is none.  With one and no
    predicate it answers the parent id of that shape, whether or not a
    record exists for it. *)
Theorem findCommonAncestor_lowest (shapes : list TLShapeId) :
  ∃ r, returns (λ fuel, findCommonAncestor fuel ed shapes predicate) r ∧
    match omap (λ id, getShape ed (ShapeId id)) shapes, predicate with
    | [], _ => r = None
    | [only], None =>
      r = match TLShape.parentId only with PageId _ => None | ShapeId p => Some p end
    | fresh, _ => lowestAboveAll fresh r
    end.
Proof.
  unfold findCommonAncestor. destruct shapes as [|id0 ids].
  { exists None. split; [apply returns_ret|done]. }
  set (shapes := id0 :: ids).
  assert (Hfresh : ∀ s, s ∈ omap (λ id, getShape ed (ShapeId id)) shapes →
            store ed !! TLShape.id s = Some s).
  { intros s (id & _ & Hs)%list_elem_of_omap. unfold getShape in Hs.
    by rewrite (Hwf _ _ Hs). }
  destruct (omap (λ id, getShape ed (ShapeId id)) shapes) as [|nodeA [|nodeB others]]
    eqn:Hshapes.
  - exists None. split; [apply returns_ret|done].
  - pose proof (Hfresh nodeA ltac:(by left)) as HA.
    destruct (TLShape.parentId nodeA) as [pg|p] eqn:Hp.
    + exists None. split; [apply returns_ret|].
      destruct predicate; [|done].
      intros c' (_ & _ & _ & Hall).
      destruct (tc_parent_inv _ _ _ (Hall nodeA ltac:(by left))) as (? & ? & ? & ? & _).
      congruence.
    + destruct predicate as [pr|] eqn:Hpred.
      * destruct (findShapeAncestor_lowest nodeA pr Hpred HA) as (r & Hret & Hr).
        exists (TLShape.id <$> r). split; [|done].
        eapply (returns_bind _ (λ _ (r : option TLShape.t), Ret (TLShape.id <$> r)));
          [exact Hret|apply returns_ret].
      * exists (Some p). split; [apply returns_ret|done].
  - pose proof (Hfresh nodeA ltac:(by left)) as HA.
    assert (Hgoal : ∃ r,
              returns (λ fuel, findCommonAncestor_loop fuel ed
                                 (getShapeParent ed (Some (TLShape.id nodeA)))
                                 (nodeB :: others) predicate) r ∧
              lowestAboveAll (nodeA :: nodeB :: others) r).
    { destruct (getShapeParent ed (Some (TLShape.id nodeA))) as [px|] eqn:Hgp.
      - unfold getShapeParent, getShape in Hgp. rewrite HA in Hgp.
        destruct (TLShape.parentId nodeA) as [|p] eqn:Hp; [done|].
        apply (findCommonAncestor_loop_lowest nodeA (nodeB :: others) p (Hac p) px Hgp).
        + apply tc_once. by exists nodeA.
        + intros c' (_ & _ & _ & Hall).
          destruct (tc_parent_step _ _ _ _ _ HA Hp (Hall nodeA ltac:(by left))) as [->|?];
            [apply rtc_refl|by apply tc_rtc].
      - exists None. split; [exists 1; intros [|n] ?; [lia|done]|].
        intros c' (sc & Hsc & _ & Hall).
        pose proof (parent_record_above _ c' Hgp (Hall nodeA ltac:(by left))). congruence. }
    destruct Hgoal as (r & Hret & Hr). exists r. split; [exact Hret|].
    by destruct predicate.
Qed.

End CommonAncestorProperties.


(* ================================================================== *)
(** ** Several partials for one shape *)

Section UpdateOrder.
Context `{MatOps} `{!IndexOps} `{!ShapeUtils}.
Hypothesis Hhooks : hooks_keep_structure.

(** After [put], a record read back is the last one written under its
    id. *)
Lemma store_put_lookup_last (ed : Editor) (l : list TLShape.t) (k : TLShapeId) :
  store (store_put ed l) !! k =
  match last (filter (λ r, TLShape.id r = k) l) with
  | Some r => Some r
  | None => store ed !! k
  end.
Proof.
  induction l as [|x l IH] using rev_ind; [by rewrite store_put_nil|].
  rewrite store_put_snoc, filter_app. simpl.
  destruct (decide (TLShape.id x = k)) as [<-|Hne].
  - rewrite lookup_insert_eq, filter_cons_True by done. by rewrite filter_nil, last_snoc.
  - rewrite lookup_insert_ne by done. rewrite filter_cons_False by done.
    by rewrite filter_nil, app_nil_r.
Qed.

Lemma updatedShape_filter (ed : Editor) (partials : list TLShapePartial.t) (k : TLShapeId) :
  store_wf ed →
  filter (λ r, TLShape.id r = k) (omap (updatedShape ed) partials) =
  omap (updatedShape ed) (filter (λ p, TLShapePartial.id p = k) partials).
Proof.
  intros Hwf. induction partials as [|p partials IH]; [done|].
  cbn [omap list_omap]. destruct (updatedShape ed p) as [r|] eqn:Hu.
  - destruct (updatedShape_Some Hhooks _ _ _ Hwf Hu) as (_ & _ & Hid & _).
    destruct (decide (TLShapePartial.id p = k)) as [Hk|Hk].
    + rewrite !filter_cons_True by congruence. cbn [omap list_omap]. by rewrite Hu, IH.
    + rewrite !filter_cons_False by congruence. done.
  - destruct (decide (TLShapePartial.id p = k)) as [Hk|Hk].
    + rewrite filter_cons_True by done. cbn [omap list_omap]. by rewrite Hu.
    + by rewrite filter_cons_False by done.
Qed.

(** The lock check of [updateShapes] keeps the partials in their order. *)
Lemma compactedPartials_order (ed : Editor) (partials : list TLShapePartial.t)
    (k : TLShapeId) :
  store_wf ed → Acyclic ed →
  is_Some (store ed !! k) → ¬ lockedAbove ed k →
  ∃ kept, returns (λ fuel, compactedPartials fuel ed partials) kept ∧
    filter (λ p, TLShapePartial.id p = k) kept =
    filter (λ p, TLShapePartial.id p = k) partials.
Proof.
  intros Hwf Hac Hk Hfree. induction partials as [|partial rest IH].
  { exists []. split; [apply returns_ret|done]. }
  destruct IH as (kept & Hret & Hkept).
  destruct (store ed !! TLShapePartial.id partial) as [shape|] eqn:Hs.
  - destruct (isShapeOrAncestorLocked_path ed Hwf _ (Hac _) shape Hs) as (b & Hb & Hiff).
    fold (lockedAbove ed (TLShapePartial.id partial)) in Hiff.
    assert (Hrun : ∀ r,
      returns (λ fuel,
        if b && negb (bool_decide (is_Some (TLShapePartial.isLocked partial)))
        then compactedPartials fuel ed rest
        else kept ← compactedPartials fuel ed rest; Ret (partial :: kept)) r →
      returns (λ fuel, compactedPartials fuel ed (partial :: rest)) r).
    { intros r Hr.
      apply (returns_ext (λ fuel,
        locked ← isShapeOrAncestorLocked fuel ed (Some shape);
        if (locked : bool) && negb (bool_decide (is_Some (TLShapePartial.isLocked partial)))
        then compactedPartials fuel ed rest
        else kept ← compactedPartials fuel ed rest; Ret (partial :: kept))).
      { intros n. simpl. by rewrite Hs. }
      by eapply (returns_bind _ (λ fuel (locked : bool),
        if locked && negb (bool_decide (is_Some (TLShapePartial.isLocked partial)))
        then compactedPartials fuel ed rest
        else kept ← compactedPartials fuel ed rest; Ret (partial :: kept))); [exact Hb|]. }
    destruct (b && negb (bool_decide (is_Some (TLShapePartial.isLocked partial)))) eqn:Hskip.
    + apply andb_true_iff in Hskip as [-> _].
      exists kept. split; [by apply Hrun|].
      rewrite filter_cons_False; [done|]. intros Heq. apply Hfree. rewrite <- Heq.
      by apply Hiff.
    + exists (partial :: kept). split.
      * apply Hrun. eapply (returns_bind _ (λ _ kept, Ret (partial :: kept))); [exact Hret|].
        apply returns_ret.
      * destruct (decide (TLShapePartial.id partial = k)).
        -- rewrite !filter_cons_True by done. by rewrite Hkept.
        -- by rewrite !filter_cons_False by done.
  - exists kept. split.
    + apply (returns_ext (λ fuel, compactedPartials fuel ed rest)); [|exact Hret].
      intros n. simpl. by rewrite Hs.
    + rewrite filter_cons_False; [done|]. intros Heq. rewrite Heq in Hs.
      destruct Hk. congruence.
Qed.


End UpdateOrder.


(* ================================================================== *)
(** ** The selection *)



(* ================================================================== *)
(** * The properties on concrete editors *)

Module Checks.
Import Examples.
#[local] Existing Instances ZScalar ZMatOps plainIndexOps noHooks plainArrowOps ZGeometryOps.
#[local] Open Scope Z_scope.

Lemma ZMat_Compose_Identity_l (m : Mat) : Mat_Compose Mat_Identity m = m.
Proof. destruct m. cbv [Mat_Compose Mat_Identity ZMatOps ZMat_multiply ZMat_Identity ma mb mc md me mf]. f_equal; lia. Qed.

Lemma noHooks_keep_structure : hooks_keep_structure.
Proof. intros prev next r. discriminate. Qed.

Lemma walkEnds_Acc (n : nat) (ed : Editor) (k : TLShapeId) :
  walkEnds n ed k = true → Acc (λ p c, parent_of ed c p) k.
Proof.
  revert k. induction n as [|n IH]; intros k; [done|]. simpl. intros Hw.
  constructor. intros p (s & Hs & Hp). rewrite Hs, Hp in Hw. by apply IH.
Qed.

Lemma walkEnds_Acyclic (n : nat) (ed : Editor) :
  map_Forall (λ k _, walkEnds n ed k = true) (store ed) → Acyclic ed.
Proof.
  intros Hall k. destruct (store ed !! k) as [s|] eqn:Hs.
  - exact (walkEnds_Acc n ed k (Hall k s Hs)).
  - constructor. intros p (s & Hs' & _). congruence.
Qed.

Lemma no_children (ed : Editor) (a : TLShapeId) :
  map_Forall (λ _ s, TLShape.parentId s ≠ ShapeId a) (store ed) →
  ∀ c, ¬ parent_of ed c a.
Proof. intros Hall c (s & Hs & Hp). exact (Hall c s Hs Hp). Qed.

Lemma cycle_not_Acyclic (ed : Editor) (a b : TLShapeId) :
  parent_of ed a b → parent_of ed b a → ¬ Acyclic ed.
Proof.
  intros Hab Hba Hac. revert b Hab Hba.
  induction (Hac a) as [x _ IH]. intros b Hab Hba.
  exact (IH b Hab x Hba Hab).
Qed.

Ltac by_evaluation := apply (bool_decide_unpack _); vm_compute; exact I.

Lemma familyEditor_wf : store_wf familyEditor.
Proof. unfold store_wf. by_evaluation. Qed.

Lemma familyEditor_Acyclic : Acyclic familyEditor.
Proof. apply (walkEnds_Acyclic 3). by_evaluation. Qed.

(** The rotated child of [familyEditor]: its page transform is its
    parent's composed with its own. *)
Lemma getShapePageTransform_spec_witness :
  ∃ m, returns (λ fuel, getShapePageTransform fuel familyEditor "shape:b") m ∧
    ∃ mp, returns (λ fuel, getShapePageTransform fuel familyEditor "shape:a") mp ∧
      m = Mat_Compose mp (localTransformOf rotatedChild).
Proof.
  exact (getShapePageTransform_spec ZMat_Compose_Identity_l familyEditor "shape:b"
           rotatedChild familyEditor_wf familyEditor_Acyclic eq_refl).
Defined.

Lemma lockedEditor_wf : store_wf lockedEditor.
Proof. unfold store_wf. by_evaluation. Qed.

Lemma lockedEditor_Acyclic : Acyclic lockedEditor.
Proof. apply (walkEnds_Acyclic 2). by_evaluation. Qed.






Lemma arrowEditor_wf (readonly : bool) : store_wf (arrowEditor readonly).
Proof. unfold store_wf. destruct readonly; by_evaluation. Qed.

Lemma arrowEditor_Acyclic (readonly : bool) : Acyclic (arrowEditor readonly).
Proof. apply (walkEnds_Acyclic 3). destruct readonly; by_evaluation. Qed.

Lemma arrowEditor_lowestCommonAncestor (readonly : bool) :
  lowestCommonAncestor (arrowEditor readonly) "shape:x" "shape:y" "shape:frame".
Proof.
  destruct (findCommonAncestor_spec (arrowEditor readonly) "shape:x" "shape:y" boundX boundY
              (arrowEditor_wf readonly) (arrowEditor_Acyclic readonly) eq_refl eq_refl)
    as (r & Hret & Hr).
  assert (r = Some "shape:frame") as ->; [|exact Hr].
  apply (returns_unique _ _ _ Hret).
  exists 4%nat. intros n Hn. do 4 (destruct n as [|n]; [lia|]).
  destruct readonly; reflexivity.
Qed.







(** The box that covers the viewport of [coverScene], at a point deep
    inside it. *)
Lemma getShapeAtPoint_skips_viewport_cover_witness :
  (∀ state, @checkShape _ _ coverScene (optionsWith 0 true) insideBoth state
              (placedShape coverBox) = Continue state) ∧
  @getShapeAtPoint _ _ coverScene insideBoth (optionsWith 0 true)
    ≠ Ret (Some (placedShape coverBox)).
Proof.
  exact (@getShapeAtPoint_skips_viewport_cover _ _ coverScene (optionsWith 0 true)
           insideBoth (placedShape coverBox) eq_refl eq_refl eq_refl).
Defined.

(** C10, the counterexample: a hollow geo shape that covers the viewport
    is returned all the same when the point is on its text label. *)
Lemma getShapeAtPoint_returns_viewport_cover :
  @isHollow _ _ labelledScene labelledGeo = true ∧
  @coversViewport _ _ labelledScene labelledGeo = true ∧
  @getShapeAtPoint _ _ labelledScene (Vec.mk 4 4) (optionsWith 0 false)
    = Ret (Some labelledGeo).
Proof. split_and!; reflexivity. Qed.

(** The empty mask of [maskedScene]. *)
Lemma empty_mask_hides_shape_witness :
  @getShapeMaskedPageBounds _ _ maskedScene "shape:masked" = Ret None ∧
  (∀ point margin hitInside,
     @isPointInShape _ _ maskedScene "shape:masked" point margin hitInside = false) ∧
  (∀ point opts hit,
     @getShapeAtPoint _ _ maskedScene point opts = Ret (Some hit) →
     TLShape.id hit ≠ "shape:masked").
Proof.
  exact (@empty_mask_hides_shape _ _ maskedScene (λ p, eq_refl) "shape:masked" eq_refl).
Defined.


Lemma coverScene_shapesToCheck :
  @shapesToCheck _ _ coverScene (optionsWith 0 true) insideBoth
    = [placedShape wideBox; placedShape coverBox].
Proof. reflexivity. Qed.

(** The two boxes of [coverScene] at a point inside both: the only
    hollow candidate is the wide one. *)
Lemma getShapeAtPoint_pending_witness :
  @getShapeAtPoint _ _ coverScene insideBoth (optionsWith 0 true)
    = Ret (Some (placedShape wideBox)).
Proof.
  destruct (@getShapeAtPoint_pending _ _ coverScene (optionsWith 0 true) insideBoth
              (mkHitState (ofZ 400) (Some (placedShape wideBox)) Infinity None) eq_refl)
    as (result & Hret & _ & Hsmallest).
  rewrite Hret. f_equal. apply Hsmallest.
  - rewrite coverScene_shapesToCheck. apply list_elem_of_here.
  - reflexivity.
  - reflexivity.
  - intros s Hs. rewrite coverScene_shapesToCheck in Hs.
    apply elem_of_cons in Hs as [->|Hs]; [reflexivity|].
    apply list_elem_of_singleton in Hs as ->. reflexivity.
  - intros s Hs Hcandidate Hne. rewrite coverScene_shapesToCheck in Hs.
    apply elem_of_cons in Hs as [->|Hs]; [done|].
    apply list_elem_of_singleton in Hs as ->. discriminate Hcandidate.
Defined.

(** C3, the counterexample: two overlapping hollow boxes of areas 100
    and 400, both containing the point, at margin 0; no turn of the loop
    returns at once, and the box of area 400 is returned, because the
    box of area 100 covers the viewport. *)
Lemma getShapeAtPoint_returns_larger_area :
  @areaOf _ _ coverScene (placedShape coverBox) = ofZ 100 ∧
  @areaOf _ _ coverScene (placedShape wideBox) = ofZ 400 ∧
  @isHollow _ _ coverScene (placedShape coverBox) = true ∧
  @isHollow _ _ coverScene (placedShape wideBox) = true ∧
  @isPointInShape _ _ coverScene "shape:cover" insideBoth (ofZ 0) true = true ∧
  @isPointInShape _ _ coverScene "shape:wide" insideBoth (ofZ 0) true = true ∧
  (∃ state,
     @hitLoop _ _ coverScene (optionsWith 0 true) insideBoth initialHitState
       (reverse (@shapesToCheck _ _ coverScene (optionsWith 0 true) insideBoth))
     = Continue state) ∧
  @getShapeAtPoint _ _ coverScene insideBoth (optionsWith 0 true)
    = Ret (Some (placedShape wideBox)).
Proof. split_and!; try reflexivity. eexists. reflexivity. Qed.


Lemma noHooks_keep_placement : hooks_keep_placement.
Proof. intros prev next r. discriminate. Qed.





(** ** The further properties on concrete editors *)

(** The rotated child of [familyEditor] and the shape above it. *)
Lemma hasAncestor_iff_witness :
  ∃ b, returns (λ fuel, hasAncestor fuel familyEditor (Some "shape:b") "shape:a") b ∧
       (b = true ↔ tc (parent_of familyEditor) "shape:b" "shape:a").
Proof.
  exact (hasAncestor_iff familyEditor "shape:b" "shape:a" familyEditor_wf familyEditor_Acyclic).
Defined.

(** The locked shape of [lockedEditor]. *)
Lemma isShapeOrAncestorLocked_iff_witness :
  ∃ b, returns (λ fuel, isShapeOrAncestorLocked fuel lockedEditor (Some lockedShape)) b ∧
    (b = true ↔ ∃ a sa, onPathUp lockedEditor "shape:locked" a ∧
                        store lockedEditor !! a = Some sa ∧ TLShape.isLocked sa = true).
Proof.
  exact (isShapeOrAncestorLocked_iff lockedEditor "shape:locked" lockedShape
           lockedEditor_wf lockedEditor_Acyclic eq_refl).
Defined.

(** The page of the rotated child of [familyEditor]. *)
Lemma getAncestorPageId_root_witness :
  ∃ r, returns (λ fuel, getAncestorPageId fuel familyEditor (Some "shape:b")) r ∧
       ∀ pg, r = Some pg ↔ rootPage familyEditor "shape:b" pg.
Proof.
  exact (getAncestorPageId_root familyEditor "shape:b" familyEditor_wf familyEditor_Acyclic).
Defined.

(** The shape of [familyEditor] whose parent is gone is in no page. *)
Lemma isShapeInPage_iff_witness :
  ∃ b r, returns (λ fuel, isShapeInPage fuel familyEditor "shape:c" "page:1") b ∧
         returns (λ fuel, getAncestorPageId fuel familyEditor (Some "shape:c")) r ∧
         (b = true ↔ r = Some "page:1").
Proof.
  exact (isShapeInPage_iff familyEditor "shape:c" "page:1"
           familyEditor_wf familyEditor_Acyclic).
Defined.

(** The nearest unlocked shape above the rotated child of [familyEditor]. *)
Lemma findShapeAncestor_spec_witness :
  ∃ r, returns (λ fuel, findShapeAncestor fuel familyEditor "shape:b"
                          (λ s, negb (TLShape.isLocked s))) r ∧
    match r with
    | Some anc =>
      store familyEditor !! TLShape.id anc = Some anc ∧
      tc (parent_of familyEditor) "shape:b" (TLShape.id anc) ∧
      negb (TLShape.isLocked anc) = true ∧
      ∀ m sm, tc (parent_of familyEditor) "shape:b" m →
              tc (parent_of familyEditor) m (TLShape.id anc) →
              store familyEditor !! m = Some sm → negb (TLShape.isLocked sm) = false
    | None =>
      ∀ a sa, tc (parent_of familyEditor) "shape:b" a → store familyEditor !! a = Some sa →
              negb (TLShape.isLocked sa) = false
    end.
Proof.
  exact (findShapeAncestor_spec familyEditor "shape:b" (λ s, negb (TLShape.isLocked s))
           familyEditor_wf familyEditor_Acyclic).
Defined.

(** The rotated child of [familyEditor] while its parent is selected. *)
Lemma isAncestorSelected_iff_witness :
  ∃ b, returns (λ fuel, isAncestorSelected fuel familyEditor ["shape:a"] "shape:b") b ∧
    (b = true ↔ ∃ a, tc (parent_of familyEditor) "shape:b" a ∧
                     is_Some (store familyEditor !! a) ∧ a ∈ ["shape:a"]).
Proof.
  exact (isAncestorSelected_iff familyEditor ["shape:a"] "shape:b"
           familyEditor_wf familyEditor_Acyclic).
Defined.

(** The parent transform of the rotated child of [familyEditor]. *)
Lemma getShapeParentTransform_spec_witness :
  ∃ pt m, returns (λ fuel, getShapeParentTransform fuel familyEditor "shape:b") pt ∧
          returns (λ fuel, getShapePageTransform fuel familyEditor "shape:b") m ∧
          returns (λ fuel, getShapePageTransform fuel familyEditor "shape:a") pt ∧
          m = Mat_Compose pt (localTransformOf rotatedChild).
Proof.
  exact (getShapeParentTransform_spec familyEditor "shape:b" rotatedChild
           familyEditor_wf familyEditor_Acyclic eq_refl).
Defined.

(** The ancestors of the rotated child of [familyEditor]. *)
Lemma getShapeAncestors_spec_witness :
  ∃ l r, returns (λ fuel, getShapeAncestors fuel familyEditor "shape:b" []) l ∧
         returns (λ fuel, getAncestorPageId fuel familyEditor (Some "shape:b")) r ∧
    (∀ sa, sa ∈ l ↔
       tc (parent_of familyEditor) "shape:b" (TLShape.id sa) ∧
       store familyEditor !! TLShape.id sa = Some sa) ∧
    NoDup l ∧
    ∀ i j si sj, l !! i = Some si → l !! j = Some sj → (i < j)%nat →
      match r with
      | Some _ => tc (parent_of familyEditor) (TLShape.id sj) (TLShape.id si)
      | None => tc (parent_of familyEditor) (TLShape.id si) (TLShape.id sj)
      end.
Proof.
  exact (getShapeAncestors_spec familyEditor "shape:b" familyEditor_wf familyEditor_Acyclic).
Defined.



(** The wide box of [coverScene], returned as a pending candidate. *)
Lemma getShapeAtPoint_candidates_witness :
  placedShape wideBox ∈ @getCurrentPageShapesSorted _ _ coverScene ∧
  TLShape.type (placedShape wideBox) ≠ GroupType.
Proof.
  destruct (@getShapeAtPoint_candidates _ _ coverScene insideBoth (optionsWith 0 true)
              (placedShape wideBox) eq_refl) as (Hin & Htype & _).
  split; [exact Hin|exact Htype].
Defined.



(** The page state [selectionState] after [shape:b] is removed. *)
Lemma cleanupInstancePageState_spec_witness :
  ∃ next,
    cleanupInstancePageState selectionState removedShapes = Some next ∧
    TLInstancePageState.selectedShapeIds next = ["shape:a"] ∧
    cleanupInstancePageState next removedShapes = None.
Proof.
  pose proof (cleanupInstancePageState_spec selectionState removedShapes) as Hspec.
  destruct (cleanupInstancePageState selectionState removedShapes)
    as [next|] eqn:Hrun; [|by vm_compute in Hrun].
  destruct Hspec as (_ & _ & Hsel & _ & Hdone).
  { intros Hin%elem_of_singleton. discriminate Hin. }
  exists next. split; [reflexivity|]. split; [|exact Hdone].
  rewrite Hsel. by_evaluation.
Defined.

(** A visit of every shape of the page of [familyEditor]. *)
Lemma visitDescendants_order_witness :
  ∃ order,
    returns (λ n, visitDescendants n familyEditor (PageId "page:1")
                    (λ id st, (id :: st, true)) [])
            (foldl (λ st id, id :: st) [] order) ∧
    NoDup order ∧ "shape:b" ∈ order.
Proof.
  destruct (visitDescendants_order familyEditor (λ _, true) familyEditor_wf
              familyEditor_Acyclic (PageId "page:1")) as (order & Hrun & Hm & Hn & _).
  exists order. split; [exact (Hrun _ (λ id st, id :: st) [])|]. split; [exact Hn|].
  apply Hm. eapply below_deeper; [|reflexivity|exists rotatedChild; split; reflexivity].
  eapply below_child; reflexivity.
Defined.

(** Deleting the parent shape of [familyEditor] takes its child along. *)
Lemma deleteShapes_spec_witness :
  ∃ deleted,
    returns (λ fuel, deleteShapes fuel familyEditor ["shape:a"]) (Some deleted) ∧
    "shape:b" ∈ deleted.
Proof.
  destruct (deleteShapes_spec familyEditor ["shape:a"] familyEditor_wf familyEditor_Acyclic
              eq_refl) as ([deleted|] & Hret & Hr).
  - exists deleted. split; [exact Hret|]. apply Hr. exists "shape:a". split_and!.
    + apply list_elem_of_here.
    + intros s Hs. vm_compute in Hs. injection Hs as <-. reflexivity.
    + right. apply tc_once. exists rotatedChild. split; reflexivity.
  - exfalso. destruct (Hr "shape:a") as (s & Hs & Hl); [apply list_elem_of_here|].
    vm_compute in Hs. injection Hs as <-. discriminate Hl.
Defined.

(** The shapes of the page of [familyEditor], bottom to top. *)
Lemma getCurrentPageShapesSorted_spec_witness :
  ∃ shapes,
    returns (λ fuel, Page.getCurrentPageShapesSorted fuel familyEditor "page:1") shapes ∧
    NoDup shapes ∧ rotatedChild ∈ shapes.
Proof.
  destruct (getCurrentPageShapesSorted_spec familyEditor "page:1" familyEditor_wf
              familyEditor_Acyclic) as (shapes & Hret & Hm & Hn & _).
  exists shapes. split; [exact Hret|]. split; [exact Hn|].
  apply Hm. split; [reflexivity|].
  eexists "shape:a", _. split; [|split; reflexivity].
  eapply rtc_l; [|apply rtc_refl]. exists rotatedChild. split; reflexivity.
Defined.

(** The parent shape of [familyEditor] and everything below it. *)
Lemma getShapeAndDescendantIds_spec_witness :
  ∃ r, returns (λ fuel, getShapeAndDescendantIds fuel familyEditor ["shape:a"]) r ∧
       NoDup r ∧ "shape:b" ∈ r.
Proof.
  destruct (getShapeAndDescendantIds_spec familyEditor ["shape:a"] familyEditor_wf eq_refl)
    as (r & Hret & Hn & Hm).
  { intros Hin%list_elem_of_singleton. discriminate Hin. }
  exists r. split; [exact Hret|]. split; [exact Hn|].
  apply Hm. exists "shape:a". split; [apply list_elem_of_here|].
  apply rtc_once. exists rotatedChild. split; reflexivity.
Defined.


Lemma groupEditor_wf : store_wf groupEditor.
Proof. unfold store_wf. by_evaluation. Qed.

Lemma groupEditor_Acyclic : Acyclic groupEditor.
Proof. apply (walkEnds_Acyclic 4). by_evaluation. Qed.

(** A click on the leaf of [groupEditor] while no group is focused
    selects the outer group. *)
Lemma getOutermostSelectableShape_spec_witness :
  returns (λ fuel, getOutermostSelectableShape fuel groupEditor None "shape:leaf" None)
          (Some outerGroup).
Proof.
  destruct (getOutermostSelectableShape_spec groupEditor None None groupEditor_wf
              groupEditor_Acyclic "shape:leaf" groupLeaf eq_refl)
    as (r & Hret & Hrec & _ & _ & Hmax).
  assert (Hup : onPathUp groupEditor "shape:outer" (TLShape.id r)).
  { apply (Hmax "shape:outer" outerGroup).
    - eapply rtc_l; [exists groupLeaf; split; reflexivity|].
      eapply rtc_l; [exists innerGroup; split; reflexivity|apply rtc_refl].
    - reflexivity.
    - split_and!; [reflexivity|discriminate| |reflexivity]. intros f Hf. discriminate Hf.
    - intros m _ _ Hm. discriminate Hm. }
  assert (E : store groupEditor !! "shape:outer" = Some outerGroup) by reflexivity.
  destruct (onPathUp_inv groupEditor _ _ outerGroup E Hup) as [Hid|(p & Hp & _)];
    [|discriminate Hp].
  rewrite Hid, E in Hrec. injection Hrec as <-. exact Hret.
Defined.

Lemma dropEditor_wf : store_wf dropEditor.
Proof. unfold store_wf. by_evaluation. Qed.

Lemma dropEditor_Acyclic : Acyclic dropEditor.
Proof. apply (walkEnds_Acyclic 3). by_evaluation. Qed.



(** The two bound shapes of [arrowEditor] and an id without a record:
    the frame is their lowest common ancestor. *)
Lemma findCommonAncestor_lowest_witness :
  returns (λ fuel, findCommonAncestor fuel (arrowEditor false)
                     ["shape:x"; "shape:gone"; "shape:y"] None) (Some "shape:frame") ∧
  lowestAboveAll (arrowEditor false) None [boundX; boundY] (Some "shape:frame").
Proof.
  destruct (findCommonAncestor_lowest (arrowEditor false) None (arrowEditor_wf false)
              (arrowEditor_Acyclic false) ["shape:x"; "shape:gone"; "shape:y"])
    as (r & Hret & Hr).
  assert (r = Some "shape:frame") as ->.
  { apply (returns_unique _ _ _ Hret).
    exists 4%nat. intros n Hn. do 4 (destruct n as [|n]; [lia|]). reflexivity. }
  split; [exact Hret|exact Hr].
Defined.






End Checks.
